(** * konfig: the bound value of a config store (value.go)

    A shallow embedding of [value.go]: the strict key enumeration
    ([getStructKeys]), the single-key and batched updates ([set],
    [setValues]), the reflective field walk ([setStruct]), the text-codec
    hook ([unmarshalText], [unmarshal]) and the coercion table
    ([castValue]).

    Go's [reflect] is modelled by a first-order description of Go types
    ([type]) and of the data they hold ([data]). The external libraries
    ([cast], user supplied [UnmarshalText] methods) are parameters of the
    development; [copier.Copy] is the value copy.

    Snapshots are values: pointer identity and the sharing of maps and
    pointees between a snapshot and its copy are not kept. [copier.Copy]
    is a shallow copy, and [SetMapIndex] and a pointer-receiver codec
    write in place: when two fields of a record, or a snapshot and its
    clone, hold one map or one pointee, a write through one shows through
    the other. The statements below that speak of what a call leaves
    alone are therefore made for the fields whose type is [plain] (no
    map, pointer, slice or interface inside) or for calls that write
    through one field only. The mutex makes [set] and [setValues]
    critical sections; they are modelled as functions from the bound
    value the cell holds to the one it holds afterwards, with the debug
    log and the panic as effects. *)

From Stdlib Require Import ZArith Ascii String DecimalString Sorted.
From stdpp Require Import gmap strings list fin_maps.

Local Set Warnings "-register-all".

(** ** Strings

    Go strings are byte sequences; [strings.ToLower] and
    [strings.EqualFold] are modelled on ASCII letters: they are Go's
    functions on the strings that hold ASCII bytes only ([isASCII]), and
    differ from them on other letters, which Go folds and lower-cases by
    the Unicode tables. A statement that rests on the folding is made for
    ASCII names. *)

Module Strings.

Definition lower_ascii (c : ascii) : ascii :=
  let n := Ascii.N_of_ascii c in
  if ((65 <=? n) && (n <=? 90))%N then Ascii.ascii_of_N (n + 32) else c.

Definition upper_ascii (c : ascii) : bool :=
  let n := Ascii.N_of_ascii c in ((65 <=? n) && (n <=? 90))%N.

Fixpoint ToLower (s : string) : string :=
  match s with
  | EmptyString => EmptyString
  | String c s' => String (lower_ascii c) (ToLower s')
  end.

Definition EqualFold (a b : string) : bool :=
  String.eqb (ToLower a) (ToLower b).

(** The strings of ASCII bytes, on which [ToLower] and [EqualFold] are
    Go's. *)
Fixpoint isASCII (s : string) : bool :=
  match s with
  | EmptyString => true
  | String c s' => (Ascii.N_of_ascii c <? 128)%N && isASCII s'
  end.

(** [strings.HasPrefix(s, p)] *)
Definition HasPrefix (s p : string) : bool := String.prefix p s.

(** The slice expression [s[n:]] (callers only use it with
    [n <= len(s)]). *)
Fixpoint from (n : nat) (s : string) : string :=
  match n, s with
  | O, _ => s
  | S n', String _ s' => from n' s'
  | S _, EmptyString => EmptyString
  end.

(** [strings.SplitN(s, sep, 2)] for a one-byte separator: [None] when
    the result has one element, [Some (a, b)] when it has two. *)
Fixpoint SplitN2 (sep : ascii) (s : string) : option (string * string) :=
  match s with
  | EmptyString => None
  | String c s' =>
      if Ascii.eqb c sep then Some (EmptyString, s')
      else match SplitN2 sep s' with
           | Some (a, b) => Some (String c a, b)
           | None => None
           end
  end.

(** [sort.Strings]: insertion sort on the byte-wise order. *)
Fixpoint insert_sorted (x : string) (l : list string) : list string :=
  match l with
  | [] => [x]
  | y :: l' => if String.leb x y then x :: l else y :: insert_sorted x l'
  end.

Definition sort (l : list string) : list string :=
  foldr insert_sorted [] l.

End Strings.

(** [TagKey] and [KeySep] *)
Definition TagKey : string := "konfig".
Definition KeySep : string := ".".
Definition KeySepByte : ascii := "."%char.

(** ** Types, as [reflect.Type] shows them *)

Inductive basic :=
| String_ | Bool | Int | Uint | Int8 | Uint8 | Int16 | Uint16
| Int32 | Uint32 | Int64 | Uint64 | Float32 | Float64.

(** How a defined type declares [UnmarshalText], if it does. *)
Inductive receiver := ValueRecv | PtrRecv.

(** The declaration of a defined (named) type: its name and whether it
    has an [UnmarshalText] method. [None] in a [type] is a type literal or
    a predeclared type. *)
Record decl := Decl { tname : string; unmarshaler : option receiver }.

(** [reflect.StructField]; [Tag] is the result of [Tag.Get(TagKey)]. For
    an embedded field [Anonymous] is true and [Name] is the name of its
    type: no field of a Go struct type has an empty name. *)
Record StructField (T : Type) := Field {
  Name : string;
  Anonymous : bool;
  Tag : string;
  Type_ : T
}.
Arguments Field {T}.
Arguments Name {T}.
Arguments Anonymous {T}.
Arguments Tag {T}.
Arguments Type_ {T}.

Inductive type :=
| TBasic (d : option decl) (b : basic)
| TPtr (elem : type)
| TStruct (d : option decl) (fields : list (StructField type))
| TMap (d : option decl) (key elem : type)
| TSlice (d : option decl) (elem : type)
| TInterface.

Abbreviation field := (StructField type).

Inductive Kind := KBasic (b : basic) | KPtr | KStruct | KMap | KSlice | KInterface.

Definition kind (t : type) : Kind :=
  match t with
  | TBasic _ b => KBasic b
  | TPtr _ => KPtr
  | TStruct _ _ => KStruct
  | TMap _ _ _ => KMap
  | TSlice _ _ => KSlice
  | TInterface => KInterface
  end.

(** A field is exported when its name starts with an upper-case letter
    (an ASCII one here; Go takes any upper-case first letter); [reflect]
    refuses to set the others ([CanSet] is false). *)
Definition exported (f : field) : bool :=
  match Name f with
  | String c _ => Strings.upper_ascii c
  | EmptyString => false
  end.

(** ** The strict key enumeration *)

(** [getStructKeys]. The [prefix] declared inside the struct branch
    shadows the parameter: the child prefix is [tag + KeySep] alone. *)
Fixpoint getStructKeys (t : type) (prefix : string) : list string :=
  match t with
  | TStruct _ fields =>
      (fix loop (fs : list field) : list string :=
         match fs with
         | [] => []
         | fieldValue :: rest =>
             let tag := Tag fieldValue in
             if String.eqb tag "-" then loop rest
             else
               let tag :=
                 if String.eqb tag "" then
                   if String.eqb (Name fieldValue) "" then ",embed"
                   else Strings.ToLower (Name fieldValue)
                 else tag in
               match Type_ fieldValue with
               | TStruct _ _ =>
                   let prefix' :=
                     if String.eqb tag ",embed" then "" else tag +:+ KeySep in
                   getStructKeys (Type_ fieldValue) prefix' ++ loop rest
               | _ => (prefix +:+ tag) :: loop rest
               end
         end) fields
  | _ => []
  end.

(** The alias [getStructKeys] works with for a field it does not skip:
    the tag, or without one the lower-cased name. *)
Definition alias (f : field) : string :=
  if String.eqb (Tag f) "" then
    if String.eqb (Name f) "" then ",embed" else Strings.ToLower (Name f)
  else Tag f.

(** ** Data

    What a value of a given [type] holds. The dynamic type travels with
    the data only inside an interface value, as in the Go runtime. Maps
    are the string-keyed ones, the only maps [value.go] reads or writes;
    integers of every width are [DNum], floats are kept as their bit
    pattern; a pointer is nil or holds its pointee (snapshots are compared
    by value, so pointer identity is not kept). *)

Inductive data :=
| DString (s : string)
| DBool (b : bool)
| DNum (n : Z)
| DFloat (bits : Z)
| DPtr (p : option data)
| DStruct (fs : list data)
| DMap (m : option (gmap string data))
| DSlice (l : option (list data))
| DIface (i : option (type * data)).

(** An [interface{}] value: nil, or a dynamic type with its data. *)
Abbreviation iface := (option (type * data)).

(** [reflect.Zero] *)
Fixpoint zero (t : type) : data :=
  match t with
  | TBasic _ String_ => DString ""
  | TBasic _ Bool => DBool false
  | TBasic _ Float32 | TBasic _ Float64 => DFloat 0
  | TBasic _ _ => DNum 0
  | TPtr _ => DPtr None
  | TStruct _ fields => DStruct (List.map (fun f => zero (Type_ f)) fields)
  | TMap _ _ _ => DMap None
  | TSlice _ _ => DSlice None
  | TInterface => DIface None
  end.

(** [Value.Interface()] of a value of static type [t]: an interface typed
    value yields what it holds, any other value is boxed with its type. *)
Definition Interface (t : type) (d : data) : iface :=
  match t with
  | TInterface => match d with DIface i => i | _ => None end
  | _ => Some (t, d)
  end.

(** ** Type identity and assignability *)

Definition basic_eqb (a b : basic) : bool :=
  match a, b with
  | String_, String_ | Bool, Bool | Int, Int | Uint, Uint | Int8, Int8
  | Uint8, Uint8 | Int16, Int16 | Uint16, Uint16 | Int32, Int32
  | Uint32, Uint32 | Int64, Int64 | Uint64, Uint64 | Float32, Float32
  | Float64, Float64 => true
  | _, _ => false
  end.

Definition receiver_eqb (a b : receiver) : bool :=
  match a, b with
  | ValueRecv, ValueRecv | PtrRecv, PtrRecv => true
  | _, _ => false
  end.

Definition option_eqb {A} (eqb : A -> A -> bool) (a b : option A) : bool :=
  match a, b with
  | Some x, Some y => eqb x y
  | None, None => true
  | _, _ => false
  end.

Definition decl_eqb (a b : decl) : bool :=
  String.eqb (tname a) (tname b)
  && option_eqb receiver_eqb (unmarshaler a) (unmarshaler b).

Fixpoint type_eqb (a b : type) : bool :=
  match a, b with
  | TBasic d1 b1, TBasic d2 b2 => option_eqb decl_eqb d1 d2 && basic_eqb b1 b2
  | TPtr e1, TPtr e2 => type_eqb e1 e2
  | TStruct d1 fs1, TStruct d2 fs2 =>
      option_eqb decl_eqb d1 d2 &&
      (fix fields_eqb (l1 l2 : list field) : bool :=
         match l1, l2 with
         | [], [] => true
         | f1 :: r1, f2 :: r2 =>
             String.eqb (Name f1) (Name f2)
             && Bool.eqb (Anonymous f1) (Anonymous f2)
             && String.eqb (Tag f1) (Tag f2)
             && type_eqb (Type_ f1) (Type_ f2)
             && fields_eqb r1 r2
         | _, _ => false
         end) fs1 fs2
  | TMap d1 k1 e1, TMap d2 k2 e2 =>
      option_eqb decl_eqb d1 d2 && type_eqb k1 k2 && type_eqb e1 e2
  | TSlice d1 e1, TSlice d2 e2 => option_eqb decl_eqb d1 d2 && type_eqb e1 e2
  | TInterface, TInterface => true
  | _, _ => false
  end.

(** Whether a type has a name (predeclared types have one). *)
Definition named (t : type) : bool :=
  match t with
  | TBasic _ _ => true
  | TStruct d _ | TMap d _ _ | TSlice d _ => bool_decide (is_Some d)
  | TPtr _ | TInterface => false
  end.

(** The type without the name it was declared with. *)
Definition underlying (t : type) : type :=
  match t with
  | TBasic _ b => TBasic None b
  | TStruct _ fs => TStruct None fs
  | TMap _ k e => TMap None k e
  | TSlice _ e => TSlice None e
  | TPtr _ | TInterface => t
  end.

(** [Type.AssignableTo]: identical types, any value to [interface{}], or
    identical underlying types when one of the two types has no name. *)
Definition AssignableTo (v t : type) : bool :=
  type_eqb v t
  || match t with TInterface => true | _ => false end
  || (negb (named v && named t) && type_eqb (underlying v) (underlying t)).

(** The size of a type, the measure of the inductions on types. *)
Fixpoint tsize (t : type) : nat :=
  match t with
  | TBasic _ _ | TInterface => 1
  | TPtr e | TSlice _ e => S (tsize e)
  | TMap _ k e => S (tsize k + tsize e)
  | TStruct _ fields => S (list_sum (List.map (fun f => tsize (Type_ f)) fields))
  end.

(** The types whose values hold no map, pointer, slice or interface: a
    copy of such a value shares nothing with the original. *)
Fixpoint plain (t : type) : bool :=
  match t with
  | TBasic _ _ => true
  | TStruct _ fields => forallb (fun f => plain (Type_ f)) fields
  | _ => false
  end.

(** ** Effects: the debug log and panics

    A computation emits debug messages (the [Logger] of the store) and
    either returns or panics. *)

Inductive panic :=
| DecodeError (err : string)      (* [panic(err)] of [unmarshalText] *)
| ReflectPanic (what : string)    (* a panic raised by package [reflect] *)
| RuntimePanic (what : string)    (* a failed type assertion *)
| ErrIncorrectValue
| ErrIncorrectStructValue.

Inductive outcome (A : Type) :=
| Ok (a : A)
| Panic (p : panic).
Arguments Ok {A}.
Arguments Panic {A}.

Definition M (A : Type) : Type := list string * outcome A.

Definition ret {A} (a : A) : M A := ([], Ok a).
Definition raise {A} (p : panic) : M A := ([], Panic p).
Definition Debug (msg : string) : M unit := ([msg], Ok tt).

Definition bind {A B} (m : M A) (f : A -> M B) : M B :=
  match m with
  | (l, Ok a) => let '(l', r) := f a in ((l ++ l')%list, r)
  | (l, Panic p) => (l, Panic p)
  end.

#[global] Instance M_ret : MRet M := @ret.
#[global] Instance M_bind : MBind M := fun A B f m => bind m f.

(** The debug messages of a computation and its outcome. *)
Definition logged {A} (m : M A) : list string := fst m.
Definition result {A} (m : M A) : outcome A := snd m.

(** ** The external libraries *)

(** What an [UnmarshalText] method answers. *)
Inductive decoded :=
| Decoded (d : data)
| Rejected (err : string).

(** Package [github.com/spf13/cast]. The scalar conversions are given by
    their [To...E] form ([None] is the error result); [cast.ToX] drops the
    error and returns the zero value with it. *)
Record Cast := {
  ToStringE : iface -> option string;
  ToBoolE : iface -> option bool;
  ToIntegerE : basic -> iface -> option Z;  (* ToIntE, ToUint8E, ... by target *)
  ToFloatE : basic -> iface -> option Z;    (* ToFloat32E, ToFloat64E *)
  ToDurationE : iface -> option Z;
  ToTime : iface -> data;
  ToStringSlice : iface -> option (list string);
  ToIntSlice : iface -> option (list Z);
  ToStringMapString : iface -> option (gmap string string)
}.

Section Konfig.

Context (cast : Cast).

(** [UnmarshalText] of the defined type of this name, on a receiver
    holding [d], with the text: the new content, or the error. *)
Context (UnmarshalText : string -> data -> string -> decoded).

Definition ToString (v : iface) : string := default "" (ToStringE cast v).
Definition ToBool (v : iface) : bool := default false (ToBoolE cast v).
Definition ToInteger (b : basic) (v : iface) : Z :=
  default 0%Z (ToIntegerE cast b v).
Definition ToFloat (b : basic) (v : iface) : Z :=
  default 0%Z (ToFloatE cast b v).
Definition ToDuration (v : iface) : Z := default 0%Z (ToDurationE cast v).

(** *** castValue *)

(** The value-typed cases of the type switch: string, bool, the integer
    and float types, [time.Time] and [time.Duration]. *)
Definition castScalar (t : type) (v : iface) : option data :=
  match t with
  | TBasic None b =>
      Some match b with
           | String_ => DString (ToString v)
           | Bool => DBool (ToBool v)
           | Float32 | Float64 => DFloat (ToFloat b v)
           | _ => DNum (ToInteger b v)
           end
  | TBasic (Some d) Int64 =>
      if String.eqb (tname d) "time.Duration"
      then Some (DNum (ToDuration v)) else None
  | TStruct (Some d) _ =>
      if String.eqb (tname d) "time.Time" then Some (ToTime cast v) else None
  | _ => None
  end.

(** The container cases: [[]string], [[]int], [map[string]string]. *)
Definition castContainer (t : type) (v : iface) : option data :=
  if type_eqb t (TSlice None (TBasic None String_)) then
    Some (DSlice (List.map DString <$> ToStringSlice cast v))
  else if type_eqb t (TSlice None (TBasic None Int)) then
    Some (DSlice (List.map DNum <$> ToIntSlice cast v))
  else if type_eqb t (TMap None (TBasic None String_) (TBasic None String_)) then
    Some (DMap (fmap (M := gmap string) DString <$> ToStringMapString cast v))
  else None.

(** [castValue(f, v)]: the switch is on the dynamic type of [f]; each
    scalar type comes with its pointer form, which wraps the converted
    value in a fresh pointer; then the three container types; any other
    type returns [v] itself. *)
Definition castValue (f : iface) (v : iface) : iface :=
  match f with
  | None => v
  | Some (t, _) =>
      match t with
      | TPtr e =>
          match castScalar e v with
          | Some d => Some (t, DPtr (Some d))
          | None => v
          end
      | _ =>
          match castScalar t v with
          | Some d => Some (t, d)
          | None =>
              match castContainer t v with
              | Some d => Some (t, d)
              | None => v
              end
          end
      end
  end.

(** The types the switch of [castValue] has a case for. *)
Definition isScalar (t : type) : bool :=
  match t with
  | TBasic None _ => true
  | TBasic (Some d) Int64 => String.eqb (tname d) "time.Duration"
  | TStruct (Some d) _ => String.eqb (tname d) "time.Time"
  | _ => false
  end.

Definition isContainer (t : type) : bool :=
  type_eqb t (TSlice None (TBasic None String_))
  || type_eqb t (TSlice None (TBasic None Int))
  || type_eqb t (TMap None (TBasic None String_) (TBasic None String_)).

Definition recognized (t : type) : bool :=
  match t with
  | TPtr e => isScalar e
  | _ => isScalar t || isContainer t
  end.

(** *** The text-codec hook *)

(** The [UnmarshalText] method of a defined type, if it declares one. *)
Definition method (t : type) : option (string * receiver) :=
  match t with
  | TBasic (Some d) _ | TStruct (Some d) _ | TMap (Some d) _ _
  | TSlice (Some d) _ =>
      match unmarshaler d with
      | Some r => Some (tname d, r)
      | None => None
      end
  | _ => None
  end.

(** The name of the type whose [UnmarshalText] serves a field of type
    [t]: the type or its pointer form implements the interface. *)
Definition codecName (t : type) : option string :=
  match t with
  | TPtr e => fst <$> method e
  | _ => fst <$> method t
  end.

(** [t.Implements(encoding.TextUnmarshaler)]: the method set of a
    defined type holds its value-receiver methods, that of a pointer to
    it holds them all. *)
Definition Implements (t : type) : bool :=
  match t with
  | TPtr e => match method e with Some _ => true | None => false end
  | _ => match method t with Some (_, ValueRecv) => true | _ => false end
  end.

(** The call [tu.UnmarshalText([]byte(str))] on the value [d] of type
    [t]: a pointer-receiver method writes through the pointer, a
    value-receiver method works on a copy (and what it would write through
    a map or a slice the copy shares with the field is not kept). *)
Definition callUnmarshalText (t : type) (d : data) (str : string) : decoded :=
  match t with
  | TPtr e =>
      let pointee := match d with DPtr (Some p) => p | _ => zero e end in
      match method e with
      | Some (n, PtrRecv) =>
          match UnmarshalText n pointee str with
          | Decoded p' => Decoded (DPtr (Some p'))
          | Rejected err => Rejected err
          end
      | Some (n, ValueRecv) =>
          match UnmarshalText n pointee str with
          | Decoded _ => Decoded d
          | Rejected err => Rejected err
          end
      | None => Decoded d
      end
  | _ =>
      match method t with
      | Some (n, _) =>
          match UnmarshalText n d str with
          | Decoded _ => Decoded d
          | Rejected err => Rejected err
          end
      | None => Decoded d
      end
  end.

(** [unmarshalText(f, v)], [f] a settable value of type [t] holding [d]:
    the answer and what [f] holds afterwards. *)
Definition unmarshalText (t : type) (d : data) (v : iface) : M (bool * data) :=
  if negb (Implements t) then ret (false, d)
  else
    (* the type assertion holds: the dynamic type of [f.Interface()] is [t] *)
    let d :=
      match t, d with
      | TPtr e, DPtr None => DPtr (Some (zero e))
      | _, _ => d
      end in
    let str := ToString v in
    match callUnmarshalText t d str with
    | Rejected err => raise (DecodeError err)
    | Decoded d' => ret (true, d')
    end.

(** [unmarshal(f, v)]; [f.CanAddr()] holds for the fields of the clone
    [setStruct] works on, and [f.Addr()] is a non-nil pointer to [f]. *)
Definition unmarshal (t : type) (d : data) (v : iface) : M (bool * data) :=
  '(ok, d1) ← unmarshalText t d v;
  if ok : bool then ret (true, d1)
  else
    '(ok, p) ← unmarshalText (TPtr t) (DPtr (Some d)) v;
    if ok : bool
    then ret (true, match p with DPtr (Some d') => d' | _ => d end)
    else ret (false, d).

(** What [unmarshal] comes to, by the type of the field: the codec is
    that of the pointee of a pointer field (a nil pointer is given a
    fresh pointee first) or that of the field itself; a pointer-receiver
    codec writes its result, a value-receiver one leaves the field as it
    is. [None] when no codec serves the type. *)
Definition codecResult (t : type) (d : data) (str : string) : option decoded :=
  match t with
  | TPtr e =>
      let d := match d with DPtr None => DPtr (Some (zero e)) | _ => d end in
      let pointee := match d with DPtr (Some p) => p | _ => zero e end in
      match method e with
      | Some (n, PtrRecv) =>
          Some match UnmarshalText n pointee str with
               | Decoded p' => Decoded (DPtr (Some p'))
               | Rejected err => Rejected err
               end
      | Some (n, ValueRecv) =>
          Some match UnmarshalText n pointee str with
               | Decoded _ => Decoded d
               | Rejected err => Rejected err
               end
      | None => None
      end
  | _ =>
      match method t with
      | Some (n, ValueRecv) =>
          Some match UnmarshalText n d str with
               | Decoded _ => Decoded d
               | Rejected err => Rejected err
               end
      | Some (n, PtrRecv) => Some (UnmarshalText n d str)
      | None => None
      end
  end.

(** *** The reflective operations [setStruct] uses *)

(** The conversion [reflect] applies to a value stored into a slot of
    type [t] ([Value.Set], [Value.SetMapIndex]): a panic unless the
    dynamic type is assignable. *)
Definition assignTo (what : string) (t : type) (x : type * data) : M data :=
  if AssignableTo x.1 t then
    ret (match t with TInterface => DIface (Some x) | _ => x.2 end)
  else raise (ReflectPanic what).

(** Package [github.com/jinzhu/copier]: [copier.Copy(to, from)] between
    two values of one struct type, a value copy; a pointer source is
    followed, and a nil one copies nothing. *)
Definition copier_Copy (to from : data) : data :=
  match from with
  | DPtr None => to
  | DPtr (Some p) => p
  | _ => from
  end.

Definition IsNil (d : data) : bool :=
  match d with
  | DMap (Some _) | DPtr (Some _) => false
  | _ => true
  end.

Definition map_of (d : data) : gmap string data :=
  match d with DMap (Some m) => m | _ => ∅ end.

Definition struct_vals (d : data) : list data :=
  match d with DStruct vals => vals | _ => [] end.

(** [if field.IsNil() { field.Set(reflect.MakeMap(...)) }] on the map
    field [f] holding [d]: the map the field holds afterwards. *)
Definition makeMapIfNil (f : field) (d : data) : M (gmap string data) :=
  if IsNil d then
    if exported f then ret ∅
    else raise (ReflectPanic "Set: unexported field")
  else ret (map_of d).

(** [field.SetMapIndex(reflect.ValueOf(key), elem)] on the map [m] of
    field [f], of type [map[kt]et]; the zero [reflect.Value] (that of a
    nil interface) deletes the key. *)
Definition SetMapIndex (f : field) (kt et : type) (m : gmap string data)
    (key : string) (elem : iface) : M (gmap string data) :=
  if negb (exported f) then raise (ReflectPanic "SetMapIndex: unexported field")
  else if negb (AssignableTo (TBasic None String_) kt)
  then raise (ReflectPanic "SetMapIndex: key is not assignable")
  else match elem with
       | None => ret (delete key m)
       | Some x =>
           d ← assignTo "SetMapIndex: value is not assignable" et x;
           ret (<[key := d]> m)
       end.

(** *** setStruct *)

Definition notFound (k : string) : string :=
  "Config key " +:+ k +:+ " not found in bound value".

(** The tag the loop works with. *)
Definition tagOf (f : field) : string :=
  if String.eqb (Tag f) "" && String.eqb (Name f) "" then ",embed" else Tag f.

Definition exactMatch (f : field) (k : string) : bool :=
  String.eqb (tagOf f) k || Strings.EqualFold (Name f) k.

Definition prefixMatch (f : field) (k : string) : bool :=
  String.eqb (tagOf f) ",embed"
  || Strings.HasPrefix k (tagOf f +:+ KeySep)
  || Strings.HasPrefix (Strings.ToLower k) (Strings.ToLower (Name f) +:+ KeySep).

(** The remainder key [nK]. *)
Definition remainder (f : field) (k : string) : string :=
  if String.eqb (tagOf f) ",embed" then k
  else if Strings.HasPrefix k (tagOf f +:+ KeySep)
  then Strings.from (String.length (tagOf f +:+ KeySep)) k
  else Strings.from (String.length (Name f +:+ KeySep)) k.

(** The types a prefix match walks into: a struct, a pointer to one, a
    map of structs or of pointers to structs. *)
Definition nestedRecord (t : type) : bool :=
  match t with
  | TStruct _ _ | TPtr (TStruct _ _)
  | TMap _ _ (TStruct _ _) | TMap _ _ (TPtr (TStruct _ _)) => true
  | _ => false
  end.

(** The key leads into the nested record the field holds. *)
Definition descends (f : field) (k : string) : bool :=
  negb (exactMatch f k) && prefixMatch f k && nestedRecord (Type_ f).

(** The nested call the loop of [setStruct] makes on field [f], if it
    makes one: the struct type of the record it walks into and the key it
    goes on with. The key matches the field by prefix and not exactly,
    and the field is an exported struct, an exported pointer to a struct,
    or a string-keyed map of structs or of pointers to structs with a
    remainder key of the form [mapKey.rest]. *)
Definition walk (f : field) (k : string) : option (type * string) :=
  if exactMatch f k then None
  else if prefixMatch f k then
    let nK := remainder f k in
    match Type_ f with
    | TMap _ kt et =>
        match kind kt with
        | KBasic String_ =>
            match et with
            | TPtr (TStruct _ _ as structType) =>
                match Strings.SplitN2 KeySepByte nK with
                | Some (_, rest) => Some (structType, rest)
                | None => None
                end
            | TStruct _ _ =>
                match Strings.SplitN2 KeySepByte nK with
                | Some (_, rest) => Some (et, rest)
                | None => None
                end
            | _ => None
            end
        | _ => None
        end
    | TStruct _ _ => if exported f then Some (Type_ f, nK) else None
    | TPtr (TStruct _ _ as structType) =>
        if exported f then Some (structType, nK) else None
    | _ => None
    end
  else None.

(** The exact-match branch on field [f] holding [d]: what the field
    holds afterwards. *)
Definition assignField (f : field) (d : data) (v : iface) : M data :=
  if exported f then                      (* field.CanSet() *)
    '(ok, d1) ← unmarshal (Type_ f) d v;
    if ok : bool then ret d1
    else
      match castValue (Interface (Type_ f) d1) v with
      | None => ret (zero (Type_ f))      (* result == nil *)
      | Some x => assignTo "Set: value is not assignable" (Type_ f) x
      end
  else ret d.

(** The string-element map branch. *)
Definition setStringMap (f : field) (kt et : type) (d : data)
    (nK : string) (v : iface) : M data :=
  m ← makeMapIfNil f d;
  m' ← SetMapIndex f kt et m nK v;
  ret (DMap (Some m')).

Section Step.

(** The recursive call [val.setStruct(k, v, nVal)], by the struct
    type of [nVal]. *)
Variable rec : type -> string -> iface -> data -> M (data * bool).

(** The map-of-struct branch; [ptr] tells a map of pointers. *)
Definition setStructMap (f : field) (kt structType : type) (ptr : bool)
    (d : data) (set : bool) (nK : string) (v : iface) : M (data * bool) :=
  match Strings.SplitN2 KeySepByte nK with
  | None => ret (d, set)
  | Some (mapKey, rest) =>
      m ← makeMapIfNil f d;
      if negb (AssignableTo (TBasic None String_) kt)
      then raise (ReflectPanic "MapIndex: key is not assignable")
      else
        nVal0 ← match m !! mapKey with
                | Some ov =>
                    if exported f
                    then ret (copier_Copy (zero structType) ov)
                    else raise (ReflectPanic "Interface: unexported field")
                | None => ret (zero structType)
                end;
        '(nVal, ok) ← rec structType rest v nVal0;
        if ok : bool then
          m' ← (if exported f
                then ret (<[mapKey := if ptr then DPtr (Some nVal) else nVal]> m)
                else raise (ReflectPanic "SetMapIndex: unexported field"));
          ret (DMap (Some m'), true)
        else ret (DMap (Some m), set)
  end.

(** One iteration of the loop of [setStruct], on field [f] holding
    [d]: what the field holds afterwards and the flag [set]. *)
Definition fieldStep (k : string) (v : iface) (f : field) (d : data)
    (set : bool) : M (data * bool) :=
  if exactMatch f k then
    d' ← assignField f d v;
    ret (d', true)
  else if prefixMatch f k then
    let nK := remainder f k in
    match Type_ f with
    | TMap _ kt et =>
        match kind kt with
        | KBasic String_ =>
            match et with
            | TPtr (TStruct _ _ as structType) =>
                setStructMap f kt structType true d set nK v
            | TStruct _ _ =>
                setStructMap f kt et false d set nK v
            | TPtr (TBasic _ String_) | TBasic _ String_ =>
                d' ← setStringMap f kt et d nK v;
                ret (d', true)
            | _ => ret (d, set)
            end
        | _ => ret (d, set)
        end
    | TStruct _ _ =>
        if exported f then
          '(nVal, ok) ← rec (Type_ f) nK v (copier_Copy (zero (Type_ f)) d);
          if ok : bool then ret (nVal, true) else ret (d, set)
        else ret (d, set)
    | TPtr (TStruct _ _ as structType) =>
        if exported f then
          let nVal0 :=
            if IsNil d then zero structType
            else copier_Copy (zero structType) d in
          '(nVal, ok) ← rec structType nK v nVal0;
          if ok : bool then ret (DPtr (Some nVal), true) else ret (d, set)
        else ret (d, set)
    | _ => ret (d, set)
    end
  else ret (d, set).

End Step.

(** The loop over the fields of the struct type, each with the data
    the value holds for it. *)
Fixpoint fieldsLoop (step : field -> data -> bool -> M (data * bool))
    (fs : list field) (vals : list data) (set : bool)
    : M (list data * bool) :=
  match fs with
  | [] => ret ([], set)
  | fieldValue :: rest =>
      let d := hd (zero (Type_ fieldValue)) vals in
      '(d', set') ← step fieldValue d set;
      '(vals', set'') ← fieldsLoop step rest (tl vals) set';
      ret (d' :: vals', set'')
  end.

(** [setStruct(k, v, targetValue)] on a pointer to a value of struct
    type [t] holding [target]: what the pointee holds afterwards and the
    flag [set]. [valValue.FieldByName(fieldValue.Name)] is the field the
    loop is at: the names of the fields of a struct type are distinct, but
    for blank fields, which are unexported and assigned by no branch. *)
Fixpoint setStruct (t : type) (k : string) (v : iface) (target : data)
    : M (data * bool) :=
  match t with
  | TStruct _ fields =>
      '(vals, set) ←
        fieldsLoop (fieldStep setStruct k v) fields (struct_vals target) false;
      (if set : bool then ret tt else Debug (notFound k));;
      ret (DStruct vals, set)
  | _ => raise (ReflectPanic "NumField of non-struct type")
  end.

(** *** The bound value *)

(** The [value] struct: the type descriptor [vt], the flag [isMap] and
    the snapshot the atomic cell [v] holds. The store [s] is seen through
    the debug log, and the mutex [mut] serializes the writers: [set] and
    [setValues] run one at a time, each from the snapshot the one before
    stored. *)
Record value := Value {
  vt : type;
  isMap : bool;
  snapshot : data
}.

(** [map[string]interface{}] *)
Definition openMap : type := TMap None (TBasic None String_) TInterface.

(** [sorted]: the keys of the map, in increasing order. *)
Definition sorted {A} (source : gmap string A) : list string :=
  Strings.sort (fst <$> map_to_list source).

(** [Bind], by the type of the value given: the bound value installed.
    The snapshot is the zero value of the type. *)
Definition Bind (t : type) : outcome value :=
  match t with
  | TStruct _ _ => Ok (Value t false (zero t))
  | TMap _ kt et =>
      match kind kt, et with
      | KBasic String_, TInterface => Ok (Value t true (zero t))
      | _, _ => Panic ErrIncorrectValue
      end
  | _ => Panic ErrIncorrectValue
  end.

(** [BindStructStrict]: the keys handed to [Strict] and the bound value. *)
Definition BindStructStrict (t : type) : outcome (list string * value) :=
  match t with
  | TStruct _ _ =>
      let keys := getStructKeys t "" in
      match Bind t with
      | Ok val => Ok (keys, val)
      | Panic p => Panic p
      end
  | _ => Panic ErrIncorrectStructValue
  end.

(** The copy loop of the map branch: [nMap[kk] = mapV[kk]] for each key. *)
Definition copyMap (mapV : gmap string data) : gmap string data :=
  foldl (fun nMap kk => <[kk := default (DIface None) (mapV !! kk)]> nMap)
        ∅ (sorted mapV).

(** [set]: the bound value after the call (the snapshot stored). A panic
    leaves the cell as it was. *)
Definition set (val : value) (k : string) (v : iface) : M value :=
  let configValue := snapshot val in
  if isMap val then
    if type_eqb (vt val) openMap then
      let mapV := map_of configValue in
      let nMap := copyMap mapV in
      let nMap := <[k := DIface v]> nMap in
      ret (Value (vt val) (isMap val) (DMap (Some nMap)))
    else raise (RuntimePanic "interface conversion")
  else
    let t := vt val in
    let nVal := copier_Copy (zero t) configValue in
    '(nVal, _) ← setStruct t k v nVal;
    ret (Value (vt val) (isMap val) nVal).

(** The loop [for _, kk := range sorted(x) { val.setStruct(kk, x[kk], nVal) }] *)
Fixpoint setEach (t : type) (x : gmap string iface) (keys : list string)
    (nVal : data) : M data :=
  match keys with
  | [] => ret nVal
  | kk :: rest =>
      '(nVal, _) ← setStruct t kk (default None (x !! kk)) nVal;
      setEach t x rest nVal
  end.

(** [setValues]. The type [s] of [x] is declared outside [value.go];
    [sorted(x)] and [x[kk]] make it a [map[string]interface{}]. *)
Definition setValues (val : value) (x : gmap string iface) : M value :=
  let configValue := snapshot val in
  if isMap val then
    if type_eqb (vt val) openMap then
      let mapV := map_of configValue in
      let nMap := copyMap mapV in
      let nMap :=
        foldl (fun nMap kk => <[kk := DIface (default None (x !! kk))]> nMap)
              nMap (sorted x) in
      ret (Value (vt val) (isMap val) (DMap (Some nMap)))
    else raise (RuntimePanic "interface conversion")
  else
    let t := vt val in
    let nVal := zero t in
    nVal ← setEach t x (sorted x) nVal;
    ret (Value (vt val) (isMap val) nVal).

(** [set(kk, x[kk])] for each key of the list, one call after the
    other. *)
Fixpoint setAll (val : value) (x : gmap string iface) (keys : list string)
    : M value :=
  match keys with
  | [] => ret val
  | kk :: rest =>
      val' ← set val kk (default None (x !! kk));
      setAll val' x rest
  end.

(** What the cell holds after [set]: the snapshot stored, or the one it
    held when the call panics (as a value: what a call that panics had
    written in place before, through a map the snapshot shares with its
    clone, is not kept). *)
Definition stored (val : value) (k : string) (v : iface) : value :=
  match result (set val k v) with
  | Ok val' => val'
  | Panic _ => val
  end.

(** [setStruct] on the struct type [t] with the input [x] gives, on
    what it returned, the same again. *)
Definition idem_at (x : iface) (t : type) : Prop :=
  forall k target d b,
    result (setStruct t k x target) = Ok (d, b) ->
    result (setStruct t k x d) = Ok (d, b).

(** Whether [setStruct] on the struct type [t] finds a key is the same
    for every input and every value it works on. *)
Definition static_at (t : type) : Prop :=
  forall k v v' d d' l l' r r' b b',
    setStruct t k v d = (l, Ok (r, b)) ->
    setStruct t k v' d' = (l', Ok (r', b')) ->
    b = b'.

End Konfig.

(** ** A reference instance of the libraries

    The conversions of [cast] between strings and [int]s in decimal, the
    ones the examples below use; every other conversion is left failing. *)

Module Ref.

Definition t_string : type := TBasic None String_.
Definition t_int : type := TBasic None Int.

Definition str (s : string) : iface := Some (t_string, DString s).
Definition int (n : Z) : iface := Some (t_int, DNum n).

Definition toStringE (v : iface) : option string :=
  match v with
  | Some (TBasic None String_, DString s) => Some s
  | Some (TBasic None Int, DNum n) =>
      Some (DecimalString.NilZero.string_of_int (Z.to_int n))
  | _ => None
  end.

Definition toIntegerE (b : basic) (v : iface) : option Z :=
  match b, v with
  | Int, Some (TBasic None Int, DNum n) => Some n
  | Int, Some (TBasic None String_, DString s) =>
      match Z.of_int <$> DecimalString.NilZero.int_of_string s with
      | Some n =>
          (* [strconv.ParseInt] fails outside the range of [int] *)
          if ((- 2 ^ 63 <=? n) && (n <? 2 ^ 63))%Z then Some n else None
      | None => None
      end
  | _, _ => None
  end.

Definition cast : Cast := {|
  ToStringE := toStringE;
  ToBoolE := fun _ => None;
  ToIntegerE := toIntegerE;
  ToFloatE := fun _ _ => None;
  ToDurationE := fun _ => None;
  ToTime := fun _ => DStruct [];
  ToStringSlice := fun _ => None;
  ToIntSlice := fun _ => None;
  ToStringMapString := fun _ => Some ∅
|}.

(** No type declares [UnmarshalText]. *)
Definition noCodec (name : string) (d : data) (text : string) : decoded :=
  Decoded d.

End Ref.

(** ** The records of the examples *)

Module Ex.

Import Ref.

(** [struct { A string `konfig:"a"`; B int `konfig:"b"` }] *)
Definition tAB : type :=
  TStruct (Some (Decl "AB" None))
    [Field "A" false "a" t_string; Field "B" false "b" t_int].

(** [type B struct { C string `konfig:"c"` }] and
    [struct { A string `konfig:"a"`; B; D string `konfig:"-"` }]: the
    embedded field carries the name of its type. *)
Definition tEmbedded : type :=
  TStruct (Some (Decl "B" None)) [Field "C" false "c" t_string].
Definition tStrict : type :=
  TStruct (Some (Decl "Strict" None))
    [Field "A" false "a" t_string;
     Field "B" true "" tEmbedded;
     Field "D" false "-" t_string].

(** The same record with the embedded field tagged [`konfig:",embed"`]. *)
Definition tStrictTagged : type :=
  TStruct (Some (Decl "Strict" None))
    [Field "A" false "a" t_string;
     Field "B" true ",embed" tEmbedded;
     Field "D" false "-" t_string].

(** A record nested to depth three: the root field tagged [b] holds a
    struct whose field tagged [c] holds a struct with the leaf [d]. *)
Definition tLeaf : type :=
  TStruct (Some (Decl "Leaf" None)) [Field "D" false "d" t_string].
Definition tMid : type :=
  TStruct (Some (Decl "Mid" None)) [Field "C" false "c" tLeaf].
Definition tRoot : type :=
  TStruct (Some (Decl "Root" None)) [Field "B" false "b" tMid].

(** Two fields with the one alias [x]. *)
Definition tTwice : type :=
  TStruct (Some (Decl "Twice" None))
    [Field "A" false "x" t_string; Field "B" false "x" t_string].

(** [struct { Db struct { Host string `konfig:"host"` } `konfig:"db"` }] *)
Definition tDb : type :=
  TStruct (Some (Decl "Db" None)) [Field "Host" false "host" t_string].
Definition tNested : type :=
  TStruct (Some (Decl "Nested" None)) [Field "Db" false "db" tDb].

(** [struct { M map[string]int `konfig:"m"` }] and the same with a
    [map[string]string]. *)
Definition tIntMap : type :=
  TStruct (Some (Decl "IntMap" None))
    [Field "M" false "m" (TMap None t_string t_int)].
Definition tStringMap : type :=
  TStruct (Some (Decl "StringMap" None))
    [Field "M" false "m" (TMap None t_string t_string)].

(** [type List []string], whose pointer-receiver [UnmarshalText] appends
    the text to the list and returns no error, and [type Level int],
    whose [UnmarshalText] knows [debug] and [info] only. *)
Definition tList : type :=
  TSlice (Some (Decl "List" (Some PtrRecv))) t_string.
Definition tLevel : type :=
  TBasic (Some (Decl "Level" (Some PtrRecv))) Int.

Definition codec (name : string) (d : data) (text : string) : decoded :=
  if String.eqb name "List" then
    match d with
    | DSlice (Some l) => Decoded (DSlice (Some (l ++ [DString text])))
    | _ => Decoded (DSlice (Some [DString text]))
    end
  else if String.eqb name "Level" then
    if String.eqb text "debug" then Decoded (DNum 0)
    else if String.eqb text "info" then Decoded (DNum 1)
    else Rejected "unknown level"
  else Decoded d.

(** The codec of [Level] alone. *)
Definition levelCodec (name : string) (d : data) (text : string) : decoded :=
  if String.eqb name "Level" then
    if String.eqb text "debug" then Decoded (DNum 0)
    else if String.eqb text "info" then Decoded (DNum 1)
    else Rejected "unknown level"
  else Decoded d.

(** [struct { L List `konfig:"l"`; Lvl Level `konfig:"lvl"`; N int `konfig:"n"` }] *)
Definition tCodec : type :=
  TStruct (Some (Decl "Codec" None))
    [Field "L" false "l" tList; Field "Lvl" false "lvl" tLevel;
     Field "N" false "n" t_int].

(** [struct { X interface{} `konfig:"x"` }] and a nil [*int]. *)
Definition tAny : type :=
  TStruct (Some (Decl "Any" None)) [Field "X" false "x" TInterface].
Definition nilIntPtr : iface := Some (TPtr t_int, DPtr None).

(** [type Inner struct { B string `konfig:"b"` }] and
    [struct { Inner `konfig:",embed"`; A string `konfig:"a"` }]. *)
Definition tInner : type :=
  TStruct (Some (Decl "Inner" None)) [Field "B" false "b" t_string].
Definition tOuter : type :=
  TStruct (Some (Decl "Outer" None))
    [Field "Inner" true ",embed" tInner; Field "A" false "a" t_string].

(** [type Item struct { Name string `konfig:"name"` }] and
    [struct { Items map[string]Item `konfig:"items"` }]. *)
Definition tItem : type :=
  TStruct (Some (Decl "Item" None)) [Field "Name" false "name" t_string].
Definition tItems : type :=
  TStruct (Some (Decl "Items" None))
    [Field "Items" false "items" (TMap None t_string tItem)].

(** [struct { secret string `konfig:"secret"`; N int `konfig:"n"` }] *)
Definition tSecret : type :=
  TStruct (Some (Decl "Secret" None))
    [Field "secret" false "secret" t_string; Field "N" false "n" t_int].

(** [struct { A int `konfig:"x"`; B string `konfig:"x"` }] *)
Definition tIntTwice : type :=
  TStruct (Some (Decl "IntTwice" None))
    [Field "A" false "x" t_int; Field "B" false "x" t_string].

(** [struct { Inner `konfig:",embed"`; secret string `konfig:"secret"` }] *)
Definition tEmbSecret : type :=
  TStruct (Some (Decl "EmbSecret" None))
    [Field "Inner" true ",embed" tInner;
     Field "secret" false "secret" t_string].

(** [struct { S *Secret `konfig:"s"`; M map[string]Secret `konfig:"m"` }] *)
Definition tHolder : type :=
  TStruct (Some (Decl "Holder" None))
    [Field "S" false "s" (TPtr tSecret);
     Field "M" false "m" (TMap None t_string tSecret)].

(** [type Settings map[string]interface{}] *)
Definition tSettings : type :=
  TMap (Some (Decl "Settings" None)) t_string TInterface.

(** [type Port int] and
    [struct { Host string; Port Port `konfig:"port"`; Skip string `konfig:"-"` }] *)
Definition tPort : type := TBasic (Some (Decl "Port" None)) Int.
Definition tFlat : type :=
  TStruct (Some (Decl "Flat" None))
    [Field "Host" false "" t_string; Field "Port" false "port" tPort;
     Field "Skip" false "-" t_string].

(** [type Mode int], whose [UnmarshalText] has a value receiver. *)
Definition tMode : type := TBasic (Some (Decl "Mode" (Some ValueRecv))) Int.

End Ex.

(** * Properties *)

(** ** The effects *)

Section Effects.

Context {A B : Type}.

Lemma bind_ret (a : A) (f : A -> M B) : (ret a ≫= f) = f a.
Proof.
  unfold mbind, M_bind, bind, ret. destruct (f a) as [l r]. reflexivity.
Qed.

Lemma bind_pair l (a : A) (f : A -> M B) :
  ((l, Ok a) ≫= f) = (l ++ (f a).1, (f a).2).
Proof. unfold mbind, M_bind, bind. destruct (f a). reflexivity. Qed.

(** A computation that returns has run both of its parts. *)
Lemma bind_Ok_inv (m : M A) (f : A -> M B) l b :
  (m ≫= f) = (l, Ok b) ->
  exists l1 a l2, m = (l1, Ok a) /\ f a = (l2, Ok b) /\ l = l1 ++ l2.
Proof.
  unfold mbind, M_bind, bind. destruct m as [l1 [a|p]]; [|discriminate].
  destruct (f a) as [l2 r] eqn:Hf. intros [= <- ->].
  exists l1, a, l2. auto.
Qed.

End Effects.

Lemma ret_Ok_inv {A} (a b : A) l : ret a = (l, Ok b) -> l = [] /\ a = b.
Proof. intros [= <- <-]. auto. Qed.

Lemma result_bind {A B} (m : M A) (f : A -> M B) :
  result (m ≫= f) =
  match result m with Ok a => result (f a) | Panic p => Panic p end.
Proof.
  destruct m as [l [a|p]]; [|reflexivity].
  rewrite bind_pair. reflexivity.
Qed.

Lemma logged_bind {A B} (m : M A) (f : A -> M B) :
  logged (m ≫= f) =
  logged m ++ match result m with Ok a => logged (f a) | Panic _ => [] end.
Proof.
  destruct m as [l [a|p]]; [rewrite bind_pair; reflexivity|].
  cbn. rewrite app_nil_r. reflexivity.
Qed.

(** Reduction of the binds of a computation whose first part is known. *)
Ltac mred := cbn [mbind M_bind bind ret raise Debug]; rewrite ?app_nil_r.

(** Inversion of a computation that returned, along its binds, branches
    and matches. *)
Ltac inv_M H :=
  match type of H with
  | (_ ≫= _) = (_, Ok _) =>
      let l1 := fresh "l" in let a := fresh "a" in let l2 := fresh "l" in
      let H1 := fresh "H" in let El := fresh "El" in
      apply bind_Ok_inv in H; destruct H as (l1 & a & l2 & H1 & H & El);
      try inv_M H1; try inv_M H
  | ret _ = (_, Ok _) =>
      apply ret_Ok_inv in H; destruct H as [? H]; try (injection H as ? ?); subst
  | raise _ = (_, Ok _) => discriminate H
  | (let '(_, _) := ?x in _) = _ => destruct x; try inv_M H
  | (if ?b then _ else _) = _ => destruct b eqn:?; try inv_M H
  | (match ?x with _ => _ end) = _ => destruct x eqn:?; try inv_M H
  end.

(** ** Type identity *)

Lemma basic_eqb_refl b : basic_eqb b b = true.
Proof. destruct b; reflexivity. Qed.

Lemma decl_eqb_refl d : decl_eqb d d = true.
Proof.
  destruct d as [n [[]|]]; unfold decl_eqb; simpl;
    rewrite String.eqb_refl; reflexivity.
Qed.

Lemma option_decl_eqb_refl (d : option decl) : option_eqb decl_eqb d d = true.
Proof. destruct d; simpl; auto using decl_eqb_refl. Qed.

Lemma tsize_field d fields f :
  In f fields -> tsize (Type_ f) < tsize (TStruct d fields).
Proof.
  simpl. induction fields as [|g fs IH]; intros Hin; [destruct Hin|].
  destruct Hin as [->|Hin]; simpl; [lia|]. specialize (IH Hin). lia.
Qed.

Lemma type_eqb_refl t : type_eqb t t = true.
Proof.
  remember (tsize t) as n eqn:Hn. revert t Hn.
  induction n as [n IH] using lt_wf_ind. intros t ->.
  destruct t as [d b|e|d fields|d k e|d e|]; simpl.
  - rewrite option_decl_eqb_refl, basic_eqb_refl. reflexivity.
  - apply (IH (tsize e)); simpl; lia.
  - rewrite option_decl_eqb_refl. simpl.
    assert (Hf : forall f, In f fields -> type_eqb (Type_ f) (Type_ f) = true).
    { intros f Hin. apply (IH (tsize (Type_ f))); [|reflexivity].
      apply (tsize_field d), Hin. }
    clear IH. induction fields as [|f fs IHfs]; [reflexivity|].
    rewrite !String.eqb_refl, Bool.eqb_reflx, (Hf f) by (left; reflexivity).
    simpl. apply IHfs. intros g Hg. apply Hf. right. exact Hg.
  - rewrite option_decl_eqb_refl. simpl.
    rewrite (IH (tsize k)), (IH (tsize e)); simpl; auto; lia.
  - rewrite option_decl_eqb_refl. simpl. apply (IH (tsize e)); simpl; lia.
  - reflexivity.
Qed.

Lemma AssignableTo_refl t : AssignableTo t t = true.
Proof. unfold AssignableTo. rewrite type_eqb_refl. reflexivity. Qed.

(** ** The loop over the fields *)

Section Loop.

Context (c : Cast) (u : string -> data -> string -> decoded).

(** A key that matches the field exactly runs the exact-match branch. *)
Lemma fieldStep_exact rec k v f d s :
  exactMatch f k = true ->
  fieldStep c u rec k v f d s = (d' ← assignField c u f d v; ret (d', true)).
Proof. intros H. unfold fieldStep. rewrite H. reflexivity. Qed.

(** A key that does not match the field leaves it alone. *)
Lemma fieldStep_unmatched rec k v f d s :
  exactMatch f k = false -> prefixMatch f k = false ->
  fieldStep c u rec k v f d s = ret (d, s).
Proof. intros H1 H2. unfold fieldStep. rewrite H1, H2. reflexivity. Qed.

Lemma fieldsLoop_cons step f fs vals s :
  fieldsLoop step (f :: fs) vals s =
  ('(d', s') ← step f (hd (zero (Type_ f)) vals) s;
   '(vals', s'') ← fieldsLoop step fs (tl vals) s';
   ret (d' :: vals', s'')).
Proof. reflexivity. Qed.

(** Fields the key does not match are walked over. *)
Lemma fieldsLoop_unmatched rec k v fs vals s :
  Forall (fun f => exactMatch f k = false /\ prefixMatch f k = false) fs ->
  length vals = length fs ->
  fieldsLoop (fieldStep c u rec k v) fs vals s = ret (vals, s).
Proof.
  intros Hfs. revert vals. induction Hfs as [|f fs [H1 H2] _ IH]; intros vals Hlen.
  - destruct vals; [reflexivity|discriminate].
  - destruct vals as [|d vals]; [discriminate|]. injection Hlen as Hlen.
    rewrite fieldsLoop_cons, fieldStep_unmatched by assumption.
    rewrite bind_ret. simpl. rewrite IH by assumption.
    rewrite bind_ret. reflexivity.
Qed.

(** When the key matches one field only, the loop is the step on that
    field. *)
Lemma fieldsLoop_single rec k v fs : forall i f vals d s,
  fs !! i = Some f -> vals !! i = Some d ->
  length vals = length fs ->
  (forall j g, j <> i -> fs !! j = Some g ->
               exactMatch g k = false /\ prefixMatch g k = false) ->
  fieldsLoop (fieldStep c u rec k v) fs vals s =
  ('(d', s') ← fieldStep c u rec k v f d s; ret (<[i := d']> vals, s')).
Proof.
  induction fs as [|g fs IH]; intros i f vals d s Hf Hd Hlen Hothers;
    [discriminate|].
  destruct vals as [|d0 vals]; [discriminate|]. injection Hlen as Hlen.
  rewrite fieldsLoop_cons. destruct i as [|i]; simpl in Hf, Hd.
  - injection Hf as ->. injection Hd as ->. simpl hd. simpl tl.
    destruct (fieldStep c u rec k v f d s) as [l [[d' s']|p]] eqn:Hstep;
      [|reflexivity].
    rewrite !bind_pair. cbn beta iota.
    rewrite fieldsLoop_unmatched; [rewrite bind_ret; reflexivity| |assumption].
    apply Forall_lookup_2. intros j h Hj. apply (Hothers (S j)); [lia|exact Hj].
  - destruct (Hothers 0 g) as [H1 H2]; [lia|reflexivity|].
    rewrite fieldStep_unmatched by assumption. rewrite bind_ret. simpl.
    rewrite (IH i f vals d s Hf Hd Hlen).
    2:{ intros j h Hj Hh. apply (Hothers (S j)); [lia|exact Hh]. }
    destruct (fieldStep c u rec k v f d s) as [l [[d' s']|p]]; [|reflexivity].
    rewrite !bind_pair. unfold ret. cbn [fst snd]. rewrite bind_pair.
    cbn [fst snd]. rewrite !app_nil_r. reflexivity.
Qed.


(** The flag [set] is never reset. *)
Lemma fieldStep_mono rec k v f d l d' s' :
  fieldStep c u rec k v f d true = (l, Ok (d', s')) -> s' = true.
Proof.
  unfold fieldStep, setStructMap. intros H.
  inv_M H; reflexivity || congruence.
Qed.

(** A step that leaves the flag down has left the field as it was, but
    for a nil map of structs, which it has made. *)
Lemma fieldStep_untouched rec k v f d s l d' :
  fieldStep c u rec k v f d s = (l, Ok (d', false)) ->
  s = false /\
  (d' = d \/ (d' = DMap (Some ∅) /\ forall m, d <> DMap (Some m))).
Proof.
  unfold fieldStep, setStructMap, makeMapIfNil. intros H.
  inv_M H; try discriminate; try congruence.
  all: try (split; [reflexivity|left; reflexivity]).
  all: split; [reflexivity|].
  all: destruct d as [| | | | |?|[m|]| |]; simpl in *; try discriminate; auto.
  all: right; split; [reflexivity|congruence]. 
Qed.

(** A loop that returned has run the step on every field, with what the
    value held for it, and a flag once up stays up. *)
Lemma fieldsLoop_Ok_inv rec k v fs : forall vals s l vals' s',
  fieldsLoop (fieldStep c u rec k v) fs vals s = (l, Ok (vals', s')) ->
  length vals' = length fs /\
  (s = true -> s' = true) /\
  forall i f, fs !! i = Some f ->
    exists si li d' si',
      fieldStep c u rec k v f (default (zero (Type_ f)) (vals !! i)) si
      = (li, Ok (d', si')) /\
      vals' !! i = Some d' /\ (si' = true -> s' = true).
Proof.
  induction fs as [|g fs IH]; intros vals s l vals' s' H.
  - simpl in H. inv_M H. split; [reflexivity|]. split; [auto|].
    intros i f Hf. discriminate.
  - rewrite fieldsLoop_cons in H.
    apply bind_Ok_inv in H. destruct H as (l1 & [d1 s1] & l2 & Hstep & H & ->).
    apply bind_Ok_inv in H. destruct H as (l3 & [vs s2] & l4 & Hrest & H & ->).
    apply ret_Ok_inv in H. destruct H as [-> [= <- <-]].
    destruct (IH _ _ _ _ _ Hrest) as (Hlen & Hmono & Hfields).
    split; [simpl; congruence|]. split.
    + intros ->. apply Hmono. eapply fieldStep_mono. eassumption.
    + intros [|i] f Hf; simpl in Hf.
      * injection Hf as <-. exists s, l1, d1, s1. split; [|auto].
        destruct vals; exact Hstep.
      * destruct (Hfields i f Hf) as (si & li & d' & si' & Hs & Hv & Hsi).
        exists si, li, d', si'. split; [|auto].
        destruct vals; simpl in *; exact Hs.
Qed.
(** [unmarshal], by the codec that serves the type. *)
Lemma unmarshal_codecResult t d v :
  unmarshal c u t d v =
  match codecResult u t d (ToString c v) with
  | None => ret (false, d)
  | Some (Decoded d') => ret (true, d')
  | Some (Rejected err) => raise (DecodeError err)
  end.
Proof.
  unfold unmarshal, unmarshalText, Implements, callUnmarshalText, codecResult.
  destruct t as [dd bb|e|dd fs|dd kt et|dd e|].
  2: change (method (TPtr e)) with (@None (string * receiver)).
  all: repeat match goal with
         | |- context [method ?t] => destruct (method t) as [[n [|]]|] eqn:?
         end; cbn [negb].
  all: try reflexivity.
  all: try (destruct d as [| | | |[?|]| | | |]).
  all: repeat match goal with
         | |- context [u ?n ?a ?s] => destruct (u n a s) eqn:?
         end; try reflexivity.
Qed.

End Loop.

(** ** The strict key enumeration *)

(** C2. For the record with the fields [A] (tag [a]), [B] (an embedded
    struct with the one field [c], no tag) and [D] (tag [-]), the keys
    [BindStructStrict] hands to [Strict] are [a] and [b.c], not [a] and
    [c]: [reflect] names an embedded field after its type, so the test
    [fieldValue.Name == ""] fails and the field gets the prefix [b.]. With
    the tag [,embed] written out, the keys are [a] and [c]. *)
Theorem strict_keys_of_embedded_field :
  (exists val, BindStructStrict Ex.tStrict = Ok (["a"; "b.c"], val)) /\
  getStructKeys Ex.tStrictTagged "" = ["a"; "c"].
Proof. split; [eexists|]; reflexivity. Qed.

(** C3. For the record nested to depth three (root field [b], its field
    [c], the leaf [d]) the enumeration yields [c.d], not [b.c.d]: the child
    prefix is built from the tag of the parent alone. [set] resolves
    [b.c.d] and does not find [c.d]. *)
Theorem strict_keys_drop_grandparent :
  getStructKeys Ex.tRoot "" = ["c.d"] /\
  set Ref.cast Ref.noCodec (Value Ex.tRoot false (zero Ex.tRoot)) "b.c.d" (Ref.str "v")
  = ([], Ok (Value Ex.tRoot false (DStruct [DStruct [DStruct [DString "v"]]]))) /\
  set Ref.cast Ref.noCodec (Value Ex.tRoot false (zero Ex.tRoot)) "c.d" (Ref.str "v")
  = ([notFound "c.d"], Ok (Value Ex.tRoot false (zero Ex.tRoot))).
Proof. repeat split. Qed.

(** ** Batched updates *)

(** [setValues] on a record builds the new snapshot from the zero value:
    the snapshot the cell holds is not read. *)
Lemma setValues_ignores_snapshot c u t d d' x :
  setValues c u (Value t false d) x = setValues c u (Value t false d') x.
Proof. reflexivity. Qed.

(** C1. With the snapshot [{A: "x", B: 3}] and the batch [{b: "42"}],
    [setValues] stores [{A: "", B: 42}]: the field [A], which no key of the
    batch addresses, is reset. [set] with the same key keeps it. *)
Theorem setValues_resets_unaddressed_field :
  let val := Value Ex.tAB false (DStruct [DString "x"; DNum 3]) in
  setValues Ref.cast Ref.noCodec val {["b" := Ref.str "42"]}
  = ([], Ok (Value Ex.tAB false (DStruct [DString ""; DNum 42]))) /\
  set Ref.cast Ref.noCodec val "b" (Ref.str "42")
  = ([], Ok (Value Ex.tAB false (DStruct [DString "x"; DNum 42]))).
Proof. split; vm_compute; reflexivity. Qed.

(** ** Single-key updates *)

Section SingleKey.

Context (c : Cast) (u : string -> data -> string -> decoded).

Lemma setStruct_struct dd fs k v target :
  setStruct c u (TStruct dd fs) k v target =
  ('(vals, set) ← fieldsLoop (fieldStep c u (setStruct c u) k v) fs
                             (struct_vals target) false;
   (if set : bool then ret tt else Debug (notFound k));;
   ret (DStruct vals, set)).
Proof. reflexivity. Qed.

(** [setStruct] on a key that matches one field only. *)
Lemma setStruct_single dd fs vals i f d k v :
  fs !! i = Some f -> vals !! i = Some d -> length vals = length fs ->
  (forall j g, j <> i -> fs !! j = Some g ->
               exactMatch g k = false /\ prefixMatch g k = false) ->
  setStruct c u (TStruct dd fs) k v (DStruct vals) =
  ('(d', set) ← fieldStep c u (setStruct c u) k v f d false;
   (if set : bool then ret tt else Debug (notFound k));;
   ret (DStruct (<[i := d']> vals), set)).
Proof.
  intros Hf Hd Hlen Hothers. rewrite setStruct_struct. simpl struct_vals.
  rewrite (fieldsLoop_single c u _ k v fs i f vals d false) by assumption.
  destruct (fieldStep c u (setStruct c u) k v f d false) as [l [[d' s]|p]];
    [|reflexivity].
  mred. destruct s; mred; reflexivity.
Qed.

(** [set] on a record runs [setStruct] on a copy of the snapshot. *)
Lemma set_record dd fs vals k v :
  set c u (Value (TStruct dd fs) false (DStruct vals)) k v =
  ('(nVal, _) ← setStruct c u (TStruct dd fs) k v (DStruct vals);
   ret (Value (TStruct dd fs) false nVal)).
Proof. reflexivity. Qed.

(** When [setStruct] returns, a field the key matches exactly holds what
    the exact-match branch assigns to it, and the flag is up. *)
Lemma setStruct_exact_inv dd fs k v target l nVal touched i f :
  setStruct c u (TStruct dd fs) k v target = (l, Ok (nVal, touched)) ->
  fs !! i = Some f -> exactMatch f k = true ->
  touched = true /\
  exists x,
    result (assignField c u f
              (default (zero (Type_ f)) (struct_vals target !! i)) v) = Ok x /\
    struct_vals nVal !! i = Some x.
Proof.
  intros H Hf Hexact. rewrite setStruct_struct in H.
  apply bind_Ok_inv in H. destruct H as (l0 & [vals' s] & l1 & Hloop & H & ->).
  apply fieldsLoop_Ok_inv in Hloop. destruct Hloop as (_ & _ & Hfields).
  destruct (Hfields i f Hf) as (si & li & d' & si' & Hstep & Hv & Hup).
  rewrite fieldStep_exact in Hstep by assumption.
  apply bind_Ok_inv in Hstep. destruct Hstep as (la & x & lb & Ha & Hr & ->).
  apply ret_Ok_inv in Hr. destruct Hr as [-> [= <- <-]].
  specialize (Hup eq_refl). subst s. mred.
  injection H as <- <- <-. split; [reflexivity|].
  exists x. rewrite Ha. auto.
Qed.

(** [set] on a record returns when [setStruct] does, with what it
    logged. *)
Lemma set_Ok_inv dd fs vals k v l val' :
  set c u (Value (TStruct dd fs) false (DStruct vals)) k v = (l, Ok val') ->
  exists nVal touched,
    setStruct c u (TStruct dd fs) k v (DStruct vals) = (l, Ok (nVal, touched)) /\
    val' = Value (TStruct dd fs) false nVal.
Proof.
  rewrite set_record. intros H.
  apply bind_Ok_inv in H. destruct H as (l0 & [nVal b] & l1 & H & Hr & ->).
  apply ret_Ok_inv in Hr. destruct Hr as [-> <-]. rewrite app_nil_r. eauto.
Qed.

(** The step on an exported struct field the key leads into, when the
    nested call finds the key and logs nothing: the clone is stored
    back. *)
Lemma fieldStep_struct_commit g k' k v sd sfs svals nVal s :
  Type_ g = TStruct sd sfs -> exported g = true ->
  exactMatch g k' = false -> prefixMatch g k' = true -> remainder g k' = k ->
  setStruct c u (TStruct sd sfs) k v (DStruct svals) = ([], Ok (nVal, true)) ->
  fieldStep c u (setStruct c u) k' v g (DStruct svals) s = ([], Ok (nVal, true)).
Proof.
  intros Hty Hg Hne Hpre Hrem Hs. unfold fieldStep.
  rewrite Hne, Hpre, Hty, Hg, Hrem. unfold copier_Copy.
  rewrite Hs. reflexivity.
Qed.

(** The same on an exported pointer field: a pointer to the clone is
    stored, and a nil pointer is replaced. *)
Lemma fieldStep_pointer_commit g k' k v sd sfs p nVal s :
  Type_ g = TPtr (TStruct sd sfs) -> exported g = true ->
  exactMatch g k' = false -> prefixMatch g k' = true -> remainder g k' = k ->
  setStruct c u (TStruct sd sfs) k v (default (zero (TStruct sd sfs)) p)
  = ([], Ok (nVal, true)) ->
  fieldStep c u (setStruct c u) k' v g (DPtr p) s
  = ([], Ok (DPtr (Some nVal), true)).
Proof.
  intros Hty Hg Hne Hpre Hrem Hs. unfold fieldStep.
  rewrite Hne, Hpre, Hty, Hg, Hrem.
  replace (if IsNil (DPtr p) then zero (TStruct sd sfs)
           else copier_Copy (zero (TStruct sd sfs)) (DPtr p))
    with (default (zero (TStruct sd sfs)) p) by (destruct p; reflexivity).
  rewrite Hs. reflexivity.
Qed.

(** The same on an exported map of records: the clone is stored at the
    map key, in a new map when the field holds none. *)
Lemma fieldStep_map_commit g k' k v dm sd sfs (ptr : bool) m mapKey nVal s :
  Type_ g = TMap dm (TBasic None String_)
              (if ptr then TPtr (TStruct sd sfs) else TStruct sd sfs) ->
  exported g = true ->
  exactMatch g k' = false -> prefixMatch g k' = true ->
  Strings.SplitN2 KeySepByte (remainder g k') = Some (mapKey, k) ->
  setStruct c u (TStruct sd sfs) k v
    match default ∅ m !! mapKey with
    | Some ov => copier_Copy (zero (TStruct sd sfs)) ov
    | None => zero (TStruct sd sfs)
    end
  = ([], Ok (nVal, true)) ->
  fieldStep c u (setStruct c u) k' v g (DMap m) s
  = ([], Ok (DMap (Some (<[mapKey := if ptr then DPtr (Some nVal) else nVal]>
                           (default ∅ m))), true)).
Proof.
  intros Hty Hg Hne Hpre Hsplit Hs. unfold fieldStep.
  rewrite Hne, Hpre, Hty. cbn [kind].
  assert (Hmap :
    setStructMap (setStruct c u) g (TBasic None String_) (TStruct sd sfs) ptr
                 (DMap m) s (remainder g k') v
    = ([], Ok (DMap (Some (<[mapKey := if ptr then DPtr (Some nVal) else nVal]>
                             (default ∅ m))), true))).
  { unfold setStructMap, makeMapIfNil. rewrite Hsplit, Hg.
    replace (AssignableTo (TBasic None String_) (TBasic None String_))
      with true by reflexivity. cbn [negb].
    destruct m as [m|]; cbn [IsNil map_of default from_option id] in *;
      rewrite bind_ret.
    - destruct (m !! mapKey); rewrite bind_ret, Hs; reflexivity.
    - rewrite lookup_empty in *. rewrite bind_ret, Hs. reflexivity. }
  destruct ptr; exact Hmap.
Qed.

(** *** What a call logs *)

Lemma assignField_silent f d v : logged (assignField c u f d v) = [].
Proof.
  unfold assignField. destruct (exported f); [|reflexivity].
  rewrite logged_bind, unmarshal_codecResult.
  destruct (codecResult u (Type_ f) d (ToString c v)) as [[d'|err]|];
    try reflexivity.
  cbn [logged result ret fst snd app].
  destruct (castValue c _ v) as [y|]; [|reflexivity].
  unfold assignTo. destruct (AssignableTo _ _); reflexivity.
Qed.

Lemma setStringMap_silent f kt et d nK v :
  logged (setStringMap f kt et d nK v) = [].
Proof.
  unfold setStringMap, makeMapIfNil, SetMapIndex, assignTo.
  destruct (IsNil d), (exported f), (AssignableTo (TBasic None String_) kt);
    try reflexivity.
  all: destruct v as [y|]; [destruct (AssignableTo y.1 et)|]; reflexivity.
Qed.

(** A step that walks into no nested record logs nothing. *)
Lemma fieldStep_silent rec k v f d s :
  descends f k = false -> logged (fieldStep c u rec k v f d s) = [].
Proof.
  unfold descends, fieldStep. destruct (exactMatch f k); cbn [negb andb].
  { intros _. rewrite logged_bind, assignField_silent.
    destruct (result _); reflexivity. }
  destruct (prefixMatch f k); cbn [andb]; [|reflexivity].
  unfold nestedRecord.
  destruct (Type_ f) as [dd bb|e|dd fs|dd kt et|dd e|]; try reflexivity;
    try discriminate.
  - destruct e; try reflexivity; discriminate.
  - destruct (kind kt) as [[]| | | | |]; try reflexivity.
    destruct et as [? b|e|? ?|? ? ?|? ?|]; try reflexivity; try discriminate.
    + intros _. destruct b; try reflexivity.
      rewrite logged_bind, setStringMap_silent. destruct (result _); reflexivity.
    + destruct e as [? b|?|? ?|? ? ?|? ?|]; try reflexivity; try discriminate.
      intros _. destruct b; try reflexivity.
      rewrite logged_bind, setStringMap_silent. destruct (result _); reflexivity.
Qed.

Lemma fieldsLoop_silent rec k v fs : forall vals s,
  Forall (fun f => descends f k = false) fs ->
  logged (fieldsLoop (fieldStep c u rec k v) fs vals s) = [].
Proof.
  induction fs as [|f fs IH]; intros vals s Hfs; [reflexivity|].
  apply Forall_cons in Hfs. destruct Hfs as [Hf Hfs].
  rewrite fieldsLoop_cons, logged_bind, fieldStep_silent by assumption.
  destruct (result _) as [[d1 s1]|]; [|reflexivity].
  rewrite logged_bind, IH by assumption.
  destruct (result _) as [[vs s2]|]; reflexivity.
Qed.

Lemma makeMapIfNil_silent f d l m : makeMapIfNil f d = (l, Ok m) -> l = [].
Proof.
  unfold makeMapIfNil. destruct (IsNil d), (exported f); intros [= <- _];
    reflexivity.
Qed.

(** What a step logs: the messages of the nested call it makes, if it
    makes one; [walk] tells when, on which struct type and with which
    key. *)
Lemma fieldStep_log rec k v f d s l d' s' :
  fieldStep c u rec k v f d s = (l, Ok (d', s')) ->
  match walk f k with
  | Some (st, nK) => exists n0 r, rec st nK v n0 = (l, Ok r)
  | None => l = []
  end.
Proof.
  assert (Hexact : forall (m : M data) l0 r,
    logged m = [] -> (d0 ← m; ret (d0, true)) = (l0, Ok r) -> l0 = []).
  { intros m l0 r Hm H. apply bind_Ok_inv in H.
    destruct H as (l1 & a & l2 & H1 & H2 & ->).
    apply ret_Ok_inv in H2. destruct H2 as [-> _].
    rewrite H1 in Hm. cbn in Hm. subst l1. reflexivity. }
  assert (Hrec : forall st nK n0 (w : data -> data) l0 r,
    ('(nVal, ok) ← rec st nK v n0;
     if ok : bool then ret (w nVal, true) else ret (d, s)) = (l0, Ok r) ->
    exists n1 r1, rec st nK v n1 = (l0, Ok r1)).
  { intros st nK n0 w l0 r H. apply bind_Ok_inv in H.
    destruct H as (l1 & [nVal ok] & l2 & H1 & H2 & ->).
    assert (l2 = []) by (destruct ok; injection H2 as <- _; reflexivity).
    subst l2. rewrite app_nil_r. eauto. }
  assert (Hmap : forall kt st ptr l0 r,
    setStructMap rec f kt st ptr d s (remainder f k) v = (l0, Ok r) ->
    match Strings.SplitN2 KeySepByte (remainder f k) with
    | Some (_, rest) => exists n1 r1, rec st rest v n1 = (l0, Ok r1)
    | None => l0 = []
    end).
  { intros kt st ptr l0 r H. unfold setStructMap in H.
    destruct (Strings.SplitN2 KeySepByte (remainder f k)) as [[mapKey rest]|];
      [|injection H as <- _; reflexivity].
    apply bind_Ok_inv in H. destruct H as (l1 & m & l2 & Hm & H & ->).
    apply makeMapIfNil_silent in Hm. subst l1.
    destruct (negb (AssignableTo (TBasic None String_) kt)); [discriminate|].
    apply bind_Ok_inv in H. destruct H as (l3 & n0 & l4 & Hn & H & ->).
    assert (l3 = []).
    { destruct (m !! mapKey); [destruct (exported f)|];
        try discriminate Hn; injection Hn as <- _; reflexivity. }
    subst l3.
    apply bind_Ok_inv in H. destruct H as (l5 & [nVal ok] & l6 & Hr & H & ->).
    assert (l6 = []).
    { destruct ok; [|injection H as <- _; reflexivity].
      destruct (exported f); [|discriminate H].
      rewrite bind_ret in H. injection H as <- _. reflexivity. }
    subst l6. cbn [app]. rewrite app_nil_r. eauto. }
  unfold fieldStep, walk.
  destruct (exactMatch f k).
  { apply Hexact, assignField_silent. }
  destruct (prefixMatch f k); [|intros [= <- _]; reflexivity].
  destruct (Type_ f) as [dd bb|e|dd fs|dd kt et|dd e|] eqn:Hty;
    try (intros [= <- _]; reflexivity).
  - destruct e as [? ?|?|dd fs|? ? ?|? ?|];
      try (intros [= <- _]; reflexivity).
    destruct (exported f); [|intros [= <- _]; reflexivity].
    apply (Hrec _ _ _ (fun n => DPtr (Some n))).
  - destruct (exported f); [|intros [= <- _]; reflexivity].
    apply (Hrec _ _ _ (fun n => n)).
  - destruct (kind kt) as [[]| | | | |];
      try (intros [= <- _]; reflexivity).
    destruct et as [? b0|e|dd' fs|? ? ?|? ?|];
      try (intros [= <- _]; reflexivity).
    + destruct b0; try (intros [= <- _]; reflexivity).
      apply Hexact, setStringMap_silent.
    + destruct e as [? b0|?|dd' fs|? ? ?|? ?|];
        try (intros [= <- _]; reflexivity).
      * destruct b0; try (intros [= <- _]; reflexivity).
        apply Hexact, setStringMap_silent.
      * intros H. apply Hmap in H.
        destruct (Strings.SplitN2 KeySepByte (remainder f k)) as [[? ?]|];
          exact H.
    + intros H. apply Hmap in H.
      destruct (Strings.SplitN2 KeySepByte (remainder f k)) as [[? ?]|];
        exact H.
Qed.

(** What the loop logs: the messages of the steps, field after field. *)
Lemma fieldsLoop_logs rec k v fs : forall vals s l vals' s',
  fieldsLoop (fieldStep c u rec k v) fs vals s = (l, Ok (vals', s')) ->
  exists ls, l = concat ls /\ length ls = length fs /\
    forall i f, fs !! i = Some f ->
      exists li, ls !! i = Some li /\
        match walk f k with
        | Some (st, nK) => exists n0 r, rec st nK v n0 = (li, Ok r)
        | None => li = []
        end.
Proof.
  induction fs as [|g fs IH]; intros vals s l vals' s' H.
  - injection H as <- _ _. exists []. repeat split. intros i f Hf. discriminate.
  - rewrite fieldsLoop_cons in H.
    apply bind_Ok_inv in H. destruct H as (l1 & [d1 s1] & l2 & Hstep & H & ->).
    apply bind_Ok_inv in H. destruct H as (l3 & [vs s2] & l4 & Hrest & H & ->).
    apply ret_Ok_inv in H. destruct H as [-> _].
    destruct (IH _ _ _ _ _ Hrest) as (ls & -> & Hlen & Hfields).
    exists (l1 :: ls). split; [cbn; rewrite app_nil_r; reflexivity|].
    split; [cbn; congruence|].
    intros [|i] f Hf; cbn in Hf.
    + injection Hf as <-. exists l1. split; [reflexivity|].
      eapply fieldStep_log, Hstep.
    + apply Hfields, Hf.
Qed.

(** The messages of [setStruct], on any record: those of the nested
    calls, field after field, then the message for the key when no field
    was touched. *)
Lemma setStruct_logs sd sfs nK v target l nVal touched :
  setStruct c u (TStruct sd sfs) nK v target = (l, Ok (nVal, touched)) ->
  exists ls,
    l = concat ls ++ (if touched : bool then [] else [notFound nK]) /\
    length ls = length sfs /\
    forall i f, sfs !! i = Some f ->
      exists li, ls !! i = Some li /\
        match walk f nK with
        | Some (st, nK') => exists n0 r, setStruct c u st nK' v n0 = (li, Ok r)
        | None => li = []
        end.
Proof.
  rewrite setStruct_struct. intros H.
  apply bind_Ok_inv in H. destruct H as (l0 & [vals' s] & l1 & Hloop & H & ->).
  destruct (fieldsLoop_logs _ _ _ _ _ _ _ _ _ Hloop) as (ls & -> & Hlen & Hfields).
  exists ls. split; [|auto].
  destruct s; cbn in H; injection H as <- _ <-; reflexivity.
Qed.

(** C5, as amended. In a record with an exported [int] field [f] that
    the key [k] matches exactly, and for an input the integer conversion
    fails on: the assignment stores 0, with no message and no panic; a
    [set(k, v)] that returns has stored 0 in the field and found the key
    ([setStruct] returns true). When [f] is the one field [k] matches,
    [set(k, v)] returns, logs nothing and changes no other field; and
    when the record is itself an exported struct field of a parent in
    which the key [k'] leads to it alone, [set(k', v)] on the parent
    stores the record with the 0 back and changes nothing else. *)
Theorem set_unparsable_int_zeroes dd fs vals i f k v :
  fs !! i = Some f -> length vals = length fs ->
  Type_ f = TBasic None Int -> exported f = true ->
  exactMatch f k = true ->
  ToIntegerE c Int v = None ->
  (forall d, assignField c u f d v = ([], Ok (DNum 0))) /\
  (forall l val',
     set c u (Value (TStruct dd fs) false (DStruct vals)) k v = (l, Ok val') ->
     struct_vals (snapshot val') !! i = Some (DNum 0) /\
     exists nVal,
       setStruct c u (TStruct dd fs) k v (DStruct vals) = (l, Ok (nVal, true))) /\
  ((forall j g, j <> i -> fs !! j = Some g ->
                exactMatch g k = false /\ prefixMatch g k = false) ->
   setStruct c u (TStruct dd fs) k v (DStruct vals)
   = ([], Ok (DStruct (<[i := DNum 0]> vals), true)) /\
   set c u (Value (TStruct dd fs) false (DStruct vals)) k v
   = ([], Ok (Value (TStruct dd fs) false (DStruct (<[i := DNum 0]> vals)))) /\
   forall pdd pfs pvals j g k',
     pfs !! j = Some g -> pvals !! j = Some (DStruct vals) ->
     length pvals = length pfs ->
     Type_ g = TStruct dd fs -> exported g = true ->
     exactMatch g k' = false -> prefixMatch g k' = true ->
     remainder g k' = k ->
     (forall j' g', j' <> j -> pfs !! j' = Some g' ->
                    exactMatch g' k' = false /\ prefixMatch g' k' = false) ->
     set c u (Value (TStruct pdd pfs) false (DStruct pvals)) k' v
     = ([], Ok (Value (TStruct pdd pfs) false
                  (DStruct (<[j := DStruct (<[i := DNum 0]> vals)]> pvals))))).
Proof.
  intros Hf Hlen Hty Hexp Hexact Hfail.
  assert (Ha : forall d, assignField c u f d v = ([], Ok (DNum 0))).
  { intros d. unfold assignField. rewrite Hexp, Hty.
    cbn. unfold ToInteger. rewrite Hfail. reflexivity. }
  split; [exact Ha|]. split.
  - intros l val' H. apply set_Ok_inv in H.
    destruct H as (nVal & touched & Hs & ->). cbn [snapshot].
    destruct (setStruct_exact_inv dd fs k v (DStruct vals) l nVal touched i f
                Hs Hf Hexact) as (-> & x & Hx & Hv).
    rewrite Ha in Hx. injection Hx as <-. eauto.
  - intros Hothers.
    destruct (lookup_lt_is_Some_2 vals i) as [d Hd].
    { rewrite Hlen. eapply lookup_lt_Some, Hf. }
    assert (Hs : setStruct c u (TStruct dd fs) k v (DStruct vals)
                 = ([], Ok (DStruct (<[i := DNum 0]> vals), true))).
    { rewrite (setStruct_single dd fs vals i f d) by assumption.
      rewrite fieldStep_exact by assumption. rewrite Ha. reflexivity. }
    split; [exact Hs|]. split; [rewrite set_record, Hs; reflexivity|].
    intros pdd pfs pvals j g k' Hg Hpd Hplen Hgty Hgexp Hne Hpre Hrem Hpothers.
    rewrite set_record.
    rewrite (setStruct_single pdd pfs pvals j g (DStruct vals)) by assumption.
    rewrite (fieldStep_struct_commit g k' k v dd fs vals
               (DStruct (<[i := DNum 0]> vals)) false) by assumption.
    reflexivity.
Qed.

(** C10, as amended. In a record with an unexported field [f] that the
    key [k] matches exactly: a [setStruct] that returns has left [f] as
    it was and returns true all the same, so that it logs no message of
    its own for [k]: its log is that of the loop over the fields, the
    messages of the nested calls that [walk] tells, field after field,
    none of them for [f]. When [f] is the one field [k] matches,
    [setStruct] and [set(k, v)] return with the record they read and an
    empty log; and when the record is nested in an exported field [g] of
    a parent and the key [k'] leads to [k] through [g], the step on [g]
    raises the flag and stores the clone back: the clone itself in a struct
    field, a pointer to it in a pointer field (a nil pointer is replaced by
    a pointer to the zero record), the clone at the map key in a map of
    records (the entry is created when the map has none). *)
Theorem set_unexported_field_is_touched dd fs vals i f k v :
  fs !! i = Some f -> length vals = length fs ->
  exported f = false -> exactMatch f k = true ->
  (forall l nVal touched,
     setStruct c u (TStruct dd fs) k v (DStruct vals) = (l, Ok (nVal, touched)) ->
     touched = true /\
     struct_vals nVal !! i = vals !! i /\
     (exists vals',
        fieldsLoop (fieldStep c u (setStruct c u) k v) fs vals false
        = (l, Ok (vals', true)) /\ nVal = DStruct vals') /\
     exists ls,
       l = concat ls /\ length ls = length fs /\ ls !! i = Some [] /\
       forall j g, fs !! j = Some g ->
         exists lj, ls !! j = Some lj /\
           match walk g k with
           | Some (st, nK) =>
               exists n0 r, setStruct c u st nK v n0 = (lj, Ok r)
           | None => lj = []
           end) /\
  ((forall j g, j <> i -> fs !! j = Some g ->
                exactMatch g k = false /\ prefixMatch g k = false) ->
   setStruct c u (TStruct dd fs) k v (DStruct vals)
   = ([], Ok (DStruct vals, true)) /\
   set c u (Value (TStruct dd fs) false (DStruct vals)) k v
   = ([], Ok (Value (TStruct dd fs) false (DStruct vals))) /\
   forall g k' s,
     exported g = true -> exactMatch g k' = false -> prefixMatch g k' = true ->
     (Type_ g = TStruct dd fs -> remainder g k' = k ->
      fieldStep c u (setStruct c u) k' v g (DStruct vals) s
      = ([], Ok (DStruct vals, true))) /\
     (Type_ g = TPtr (TStruct dd fs) -> remainder g k' = k ->
      fieldStep c u (setStruct c u) k' v g (DPtr (Some (DStruct vals))) s
      = ([], Ok (DPtr (Some (DStruct vals)), true)) /\
      fieldStep c u (setStruct c u) k' v g (DPtr None) s
      = ([], Ok (DPtr (Some (zero (TStruct dd fs))), true))) /\
     (forall dm (ptr : bool) m mapKey,
        Type_ g = TMap dm (TBasic None String_)
                    (if ptr then TPtr (TStruct dd fs) else TStruct dd fs) ->
        Strings.SplitN2 KeySepByte (remainder g k') = Some (mapKey, k) ->
        default ∅ m !! mapKey = None ->
        fieldStep c u (setStruct c u) k' v g (DMap m) s
        = ([], Ok (DMap (Some (<[mapKey :=
                     if ptr then DPtr (Some (zero (TStruct dd fs)))
                     else zero (TStruct dd fs)]> (default ∅ m))), true)))).
Proof.
  intros Hf Hlen Hexp Hexact.
  destruct (lookup_lt_is_Some_2 vals i) as [d Hd].
  { rewrite Hlen. eapply lookup_lt_Some, Hf. }
  split.
  - intros l nVal touched H.
    destruct (setStruct_exact_inv dd fs k v (DStruct vals) l nVal touched i f
                H Hf Hexact) as (-> & x & Hx & Hv).
    split; [reflexivity|]. split.
    + cbn [struct_vals] in Hx. rewrite Hd in Hx. cbn [default] in Hx.
      unfold assignField in Hx. rewrite Hexp in Hx. injection Hx as <-.
      rewrite Hd. exact Hv.
    + pose proof (setStruct_logs _ _ _ _ _ _ _ _ H) as (ls & Hl & Hlen' & Hls).
      cbn [app] in Hl. rewrite app_nil_r in Hl.
      rewrite setStruct_struct in H. cbn [struct_vals] in H.
      apply bind_Ok_inv in H.
      destruct H as (l0 & [vals' s] & l1 & Hloop & H & ->).
      destruct s; cbn in H; [|discriminate H]. injection H as <- <-.
      rewrite app_nil_r in *. split; [eauto|].
      exists ls. split; [exact Hl|]. split; [exact Hlen'|]. split; [|exact Hls].
      destruct (Hls i f Hf) as (li & Hli & Hw).
      unfold walk in Hw. rewrite Hexact in Hw. subst li. exact Hli.
  - intros Hothers.
    assert (Hs : forall ws, length ws = length fs ->
               setStruct c u (TStruct dd fs) k v (DStruct ws)
               = ([], Ok (DStruct ws, true))).
    { intros ws Hws.
      destruct (lookup_lt_is_Some_2 ws i) as [w Hw].
      { rewrite Hws. eapply lookup_lt_Some, Hf. }
      rewrite (setStruct_single dd fs ws i f w) by assumption.
      rewrite fieldStep_exact by assumption.
      unfold assignField. rewrite Hexp. mred.
      rewrite list_insert_id by assumption. reflexivity. }
    assert (Hz : setStruct c u (TStruct dd fs) k v (zero (TStruct dd fs))
                 = ([], Ok (zero (TStruct dd fs), true))).
    { cbn [zero]. apply Hs. apply length_map. }
    split; [apply Hs, Hlen|].
    split; [rewrite set_record, (Hs vals Hlen); reflexivity|].
    intros g k' s Hg Hne Hpre. split; [|split].
    + intros Hty Hrem.
      apply (fieldStep_struct_commit g k' k v dd fs vals); auto.
    + intros Hty Hrem. split.
      * apply (fieldStep_pointer_commit g k' k v dd fs (Some (DStruct vals)));
          auto. cbn [default from_option id]. auto.
      * apply (fieldStep_pointer_commit g k' k v dd fs None); auto.
    + intros dm ptr m mapKey Hty Hsplit Hnone.
      apply (fieldStep_map_commit g k' k v dm dd fs ptr m mapKey); auto.
      rewrite Hnone. exact Hz.
Qed.

(** C4, as amended. When [setStruct] returns, every field whose alias
    matches the key exactly holds what the exact-match branch assigns to
    it, whatever the fields before it matched, and the flag is up. *)
Theorem set_assigns_every_exact_match dd fs vals k v l nVal touched :
  length vals = length fs ->
  setStruct c u (TStruct dd fs) k v (DStruct vals) = (l, Ok (nVal, touched)) ->
  forall i f d,
    fs !! i = Some f -> vals !! i = Some d -> exactMatch f k = true ->
    touched = true /\
    exists x, result (assignField c u f d v) = Ok x /\
              struct_vals nVal !! i = Some x.
Proof.
  intros Hlen H i f d Hf Hd Hexact. rewrite setStruct_struct in H.
  apply bind_Ok_inv in H. destruct H as (l0 & [vals' s] & l1 & Hloop & H & ->).
  apply fieldsLoop_Ok_inv in Hloop. destruct Hloop as (_ & _ & Hfields).
  destruct (Hfields i f Hf) as (si & li & d' & si' & Hstep & Hv & Hup).
  simpl struct_vals in Hstep. rewrite Hd in Hstep. simpl in Hstep.
  rewrite fieldStep_exact in Hstep by assumption.
  apply bind_Ok_inv in Hstep. destruct Hstep as (la & x & lb & Ha & Hr & ->).
  apply ret_Ok_inv in Hr. destruct Hr as [-> [= <- <-]].
  specialize (Hup eq_refl). subst s. mred.
  injection H as <- <- <-. split; [reflexivity|].
  exists x. rewrite Ha. auto.
Qed.

(** C8, as amended. On an exported field [f] of a string-keyed map type
    that a key matches by prefix: when the elements are strings or
    pointers to strings, an input that is not nil and whose type is
    assignable to the element type is stored at the remainder key as it
    is, in the map the field holds or in a new one if it holds none, and
    the flag is raised; when the elements are of another scalar type, or
    pointers to one, the field is skipped. *)
Theorem set_string_map_stores_raw rec k f d s dd et ed :
  Type_ f = TMap dd (TBasic None String_) et ->
  exported f = true ->
  exactMatch f k = false -> prefixMatch f k = true ->
  (et = TBasic ed String_ \/ et = TPtr (TBasic ed String_) ->
   forall x, AssignableTo x.1 et = true ->
     fieldStep c u rec k (Some x) f d s
     = ([], Ok (DMap (Some (<[remainder f k := x.2]> (map_of d))), true))) /\
  (forall b, b <> String_ ->
   et = TBasic ed b \/ et = TPtr (TBasic ed b) ->
   forall v, fieldStep c u rec k v f d s = ([], Ok (d, s))).
Proof.
  intros Hty Hexp Hne Hpre. split.
  - intros Het x Hassign. unfold fieldStep.
    rewrite Hne, Hpre, Hty. cbn [kind].
    assert (Hmap : setStringMap f (TBasic None String_) et d (remainder f k) (Some x)
                   = ([], Ok (DMap (Some (<[remainder f k := x.2]> (map_of d)))))).
    { unfold setStringMap, makeMapIfNil, SetMapIndex, assignTo.
      rewrite Hexp, Hassign. cbn [negb].
      replace (AssignableTo (TBasic None String_) (TBasic None String_))
        with true by reflexivity. cbn [negb].
      destruct Het as [-> | ->];
        destruct d as [| | | | [?|] | | [?|] | |]; reflexivity. }
    destruct Het as [-> | ->]; rewrite Hmap; reflexivity.
  - intros b Hb Het v. unfold fieldStep. rewrite Hne, Hpre, Hty. cbn [kind].
    destruct Het as [-> | ->]; destruct b; try reflexivity; congruence.
Qed.

(** *** The two ways an assignment fails *)

(** A codec serves the type when the type or its pointer form implements
    [encoding.TextUnmarshaler]. *)
Lemma codecName_Implements t :
  is_Some (codecName t) <->
  Implements t = true \/ Implements (TPtr t) = true.
Proof.
  unfold codecName, Implements.
  destruct t as [dd b|e|dd fs|dd kt et|dd e|].
  2: change (method (TPtr e)) with (@None (string * receiver)).
  all: destruct (method _) as [[n [|]]|]; cbn; split;
    try (intros [H|H]; discriminate H); try (intros [y H]; discriminate H);
    eauto.
Qed.

Lemma codecName_None t :
  codecName t = None -> Implements t = false /\ Implements (TPtr t) = false.
Proof.
  unfold codecName, Implements. intros H.
  destruct t as [dd b|e|dd fs|dd kt et|dd e|].
  all: try (destruct (method _) as [[n r]|]; [discriminate|]).
  all: split; reflexivity.
Qed.

Lemma unmarshal_declines t d v :
  codecName t = None -> unmarshal c u t d v = ret (false, d).
Proof.
  intros H. apply codecName_None in H. destruct H as [H1 H2].
  unfold unmarshal, unmarshalText. rewrite H1, H2. reflexivity.
Qed.

Lemma castValue_unrecognized t d v :
  recognized t = false -> castValue c (Some (t, d)) v = v.
Proof.
  unfold recognized, castValue, isScalar, isContainer, castScalar, castContainer.
  intros H.
  destruct t as [[dd|] b|e|[dd|] fs|[dd|] kt et|[dd|] e|]; try discriminate.
  all: repeat match goal with
         | |- context [match ?x with _ => _ end] => destruct x eqn:?
         | H : context [match ?x with _ => _ end] |- _ => destruct x eqn:?
         end; try discriminate; try reflexivity.
  all: cbn in *; congruence.
Qed.

Lemma castValue_recognized t d v :
  recognized t = true -> exists x, castValue c (Some (t, d)) v = Some (t, x).
Proof.
  unfold recognized, castValue, isScalar, isContainer, castScalar, castContainer.
  intros H.
  destruct t as [[dd|] b|e|[dd|] fs|[dd|] kt et|[dd|] e|]; try discriminate.
  all: repeat match goal with
         | |- context [match ?x with _ => _ end] => destruct x eqn:?
         | H : context [match ?x with _ => _ end] |- _ => destruct x eqn:?
         end; try discriminate; eauto.
Qed.

(** The text codec of the field rejects the text: the exact-match branch
    panics with the error of the codec. *)
Lemma assignField_rejected f d v n err :
  exported f = true -> codecName (Type_ f) = Some n ->
  (forall cur, u n cur (ToString c v) = Rejected err) ->
  assignField c u f d v = ([], Panic (DecodeError err)).
Proof.
  intros Hexp Hn Hrej. unfold assignField. rewrite Hexp.
  unfold unmarshal, unmarshalText, Implements, callUnmarshalText, codecName in *.
  destruct (Type_ f) as [dd b|e|dd fs|dd kt et|dd e|]; cbn [negb] in *.
  all: try discriminate.
  all: destruct (method _) as [[m [|]]|] eqn:Hm; try discriminate;
    injection Hn as ->; cbn; rewrite ?Hm; cbn; rewrite ?Hrej; try reflexivity.
  all: destruct d as [| | | | [?|] | | | |]; rewrite ?Hrej; reflexivity.
Qed.

(** The conversion table knows the type of the field and no text codec
    claims it: the exact-match branch returns, whatever the input. *)
Lemma assignField_converts f d v :
  exported f = true -> codecName (Type_ f) = None ->
  recognized (Type_ f) = true ->
  exists x, assignField c u f d v = ([], Ok x).
Proof.
  intros Hexp Hn Hrec. unfold assignField. rewrite Hexp.
  rewrite unmarshal_declines by assumption. rewrite bind_ret.
  destruct (castValue_recognized (Type_ f) d v Hrec) as [x Hx].
  replace (Interface (Type_ f) d) with (Some (Type_ f, d))
    by (destruct (Type_ f); try reflexivity; discriminate).
  rewrite Hx. unfold assignTo. cbn [fst snd]. rewrite AssignableTo_refl.
  eexists. reflexivity.
Qed.

(** A step that panics on one field makes the loop panic. *)
Lemma fieldsLoop_panics step fs : forall i f,
  fs !! i = Some f ->
  (forall d s, exists l p, step f d s = (l, Panic p)) ->
  forall vals s, exists l p, fieldsLoop step fs vals s = (l, Panic p).
Proof.
  induction fs as [|g fs IH]; intros i f Hf Hstep vals s; [discriminate|].
  rewrite fieldsLoop_cons. destruct i as [|i]; simpl in Hf.
  - injection Hf as ->.
    destruct (Hstep (hd (zero (Type_ f)) vals) s) as (l & p & ->).
    exists l, p. reflexivity.
  - destruct (step g (hd (zero (Type_ g)) vals) s) as [l [[d' s']|p]];
      [|exists l, p; reflexivity].
    destruct (IH i f Hf Hstep (tl vals) s') as (l' & p & Hl).
    exists (l ++ l'), p. mred. rewrite Hl. reflexivity.
Qed.

(** C6, as amended. On a record whose exported field [f] the key [k]
    matches exactly. When the type of [f] or its pointer form has a text
    codec and the codec rejects the text of the input, the assignment
    panics with the error of the codec and [set] panics, with that error
    when [f] is the one field the key matches. When no codec claims the
    type and the switch of [castValue] has a case for it, the assignment
    returns for every input, and so does [set] when [f] is the one field
    the key matches: a conversion that fails gives the zero value. When no
    codec claims the type and the switch has no case for it, the input is
    passed on as it is: a nil input zeroes the field, an input of an
    assignable type is stored, and any other input makes the assignment
    and [set] panic. *)
Theorem set_codec_failure_panics_conversion_never dd fs vals i f k v :
  fs !! i = Some f -> exported f = true -> exactMatch f k = true ->
  (forall n err,
     codecName (Type_ f) = Some n ->
     (forall cur, u n cur (ToString c v) = Rejected err) ->
     (forall d, assignField c u f d v = ([], Panic (DecodeError err))) /\
     (exists l p,
        set c u (Value (TStruct dd fs) false (DStruct vals)) k v = (l, Panic p)) /\
     (length vals = length fs ->
      (forall j g, j <> i -> fs !! j = Some g ->
                   exactMatch g k = false /\ prefixMatch g k = false) ->
      set c u (Value (TStruct dd fs) false (DStruct vals)) k v
      = ([], Panic (DecodeError err)))) /\
  (codecName (Type_ f) = None -> recognized (Type_ f) = true ->
   (forall d, exists x, assignField c u f d v = ([], Ok x)) /\
   (length vals = length fs ->
    (forall j g, j <> i -> fs !! j = Some g ->
                 exactMatch g k = false /\ prefixMatch g k = false) ->
    exists x,
      set c u (Value (TStruct dd fs) false (DStruct vals)) k v
      = ([], Ok (Value (TStruct dd fs) false (DStruct (<[i := x]> vals)))))) /\
  (codecName (Type_ f) = None -> recognized (Type_ f) = false ->
   kind (Type_ f) <> KInterface ->
   (forall d,
      assignField c u f d v =
      match v with
      | None => ret (zero (Type_ f))
      | Some y =>
          if AssignableTo y.1 (Type_ f) then ret y.2
          else raise (ReflectPanic "Set: value is not assignable")
      end) /\
   (forall y, v = Some y -> AssignableTo y.1 (Type_ f) = false ->
      (exists l p,
         set c u (Value (TStruct dd fs) false (DStruct vals)) k v
         = (l, Panic p)) /\
      (length vals = length fs ->
       (forall j g, j <> i -> fs !! j = Some g ->
                    exactMatch g k = false /\ prefixMatch g k = false) ->
       set c u (Value (TStruct dd fs) false (DStruct vals)) k v
       = ([], Panic (ReflectPanic "Set: value is not assignable"))))).
Proof.
  intros Hf Hexp Hexact.
  assert (Hpanic : forall p,
    (forall d, assignField c u f d v = ([], Panic p)) ->
    (exists l q,
       set c u (Value (TStruct dd fs) false (DStruct vals)) k v = (l, Panic q)) /\
    (length vals = length fs ->
     (forall j g, j <> i -> fs !! j = Some g ->
                  exactMatch g k = false /\ prefixMatch g k = false) ->
     set c u (Value (TStruct dd fs) false (DStruct vals)) k v = ([], Panic p))).
  { intros p Ha. split.
    - destruct (fieldsLoop_panics (fieldStep c u (setStruct c u) k v) fs i f Hf)
        with (vals := vals) (s := false) as (l & q & Hl).
      { intros d s. exists [], p.
        rewrite fieldStep_exact by assumption. rewrite Ha. reflexivity. }
      exists l, q. rewrite set_record, setStruct_struct. simpl struct_vals.
      rewrite Hl. reflexivity.
    - intros Hlen Hothers.
      destruct (lookup_lt_is_Some_2 vals i) as [d Hd].
      { rewrite Hlen. eapply lookup_lt_Some, Hf. }
      rewrite set_record.
      rewrite (setStruct_single dd fs vals i f d) by assumption.
      rewrite fieldStep_exact by assumption. rewrite Ha. reflexivity. }
  split; [|split].
  - intros n err Hn Hrej.
    assert (Ha : forall d, assignField c u f d v = ([], Panic (DecodeError err))).
    { intros d. apply (assignField_rejected f d v n err); assumption. }
    split; [exact Ha|]. apply Hpanic, Ha.
  - intros Hn Hrec. split.
    + intros d. apply assignField_converts; assumption.
    + intros Hlen Hothers.
      destruct (lookup_lt_is_Some_2 vals i) as [d Hd].
      { rewrite Hlen. eapply lookup_lt_Some, Hf. }
      destruct (assignField_converts f d v Hexp Hn Hrec) as [x Hx].
      exists x. rewrite set_record.
      rewrite (setStruct_single dd fs vals i f d) by assumption.
      rewrite fieldStep_exact by assumption. rewrite Hx. reflexivity.
  - intros Hn Hrec Hk.
    assert (Ha : forall d,
      assignField c u f d v =
      match v with
      | None => ret (zero (Type_ f))
      | Some y =>
          if AssignableTo y.1 (Type_ f) then ret y.2
          else raise (ReflectPanic "Set: value is not assignable")
      end).
    { intros d. unfold assignField. rewrite Hexp.
      rewrite unmarshal_declines by assumption. rewrite bind_ret.
      replace (Interface (Type_ f) d) with (Some (Type_ f, d))
        by (destruct (Type_ f); try reflexivity; exfalso; apply Hk; reflexivity).
      rewrite castValue_unrecognized by assumption.
      destruct v as [y|]; [|reflexivity]. unfold assignTo.
      destruct (AssignableTo y.1 (Type_ f)); [|reflexivity].
      destruct (Type_ f); try reflexivity. exfalso. apply Hk. reflexivity. }
    split; [exact Ha|].
    intros y Hv Hna. apply Hpanic. intros d. rewrite Ha, Hv, Hna. reflexivity.
Qed.

End SingleKey.

(** C5, as the spec states it, on the record with the fields [A] (an
    [int]) and [B] (a string) of the one alias [x]: [set("x",
    "not-a-number")] zeroes [A] and would modify no other field. It does:
    [B] matches the key as well and is assigned the text. *)
Lemma set_unparsable_int_changes_other_match :
  ~ (exists l,
       set Ref.cast Ref.noCodec
           (Value Ex.tIntTwice false (DStruct [DNum 3; DString "old"]))
           "x" (Ref.str "not-a-number")
       = (l, Ok (Value Ex.tIntTwice false (DStruct [DNum 0; DString "old"])))) /\
  set Ref.cast Ref.noCodec
      (Value Ex.tIntTwice false (DStruct [DNum 3; DString "old"]))
      "x" (Ref.str "not-a-number")
  = ([], Ok (Value Ex.tIntTwice false
               (DStruct [DNum 0; DString "not-a-number"]))).
Proof.
  split; [|vm_compute; reflexivity].
  intros [l H]. vm_compute in H. discriminate H.
Qed.

(** C5, as amended: on the record [AB], where [b] matches the field [B]
    alone, [set("b", "not-a-number")] zeroes [B] and keeps [A]; on the
    record with the two fields of alias [x], the [int] field holds 0 after
    the call and the key is found. *)
Lemma set_unparsable_int_zeroes_witness :
  set Ref.cast Ref.noCodec (Value Ex.tAB false (DStruct [DString "x"; DNum 3]))
      "b" (Ref.str "not-a-number")
  = ([], Ok (Value Ex.tAB false (DStruct [DString "x"; DNum 0]))) /\
  (struct_vals (snapshot (Value Ex.tIntTwice false
                            (DStruct [DNum 0; DString "not-a-number"])))
   !! 0 = Some (DNum 0) /\
   exists nVal,
     setStruct Ref.cast Ref.noCodec Ex.tIntTwice "x" (Ref.str "not-a-number")
               (DStruct [DNum 3; DString "old"])
     = ([], Ok (nVal, true))).
Proof.
  split.
  - refine (proj1 (proj2 (proj2 (proj2 (set_unparsable_int_zeroes
      Ref.cast Ref.noCodec (Some (Decl "AB" None))
      [Field "A" false "a" Ref.t_string; Field "B" false "b" Ref.t_int]
      [DString "x"; DNum 3] 1
      (Field "B" false "b" Ref.t_int) "b" (Ref.str "not-a-number")
      eq_refl eq_refl eq_refl eq_refl eq_refl eq_refl)) _))).
    intros [|[|j]] g Hj Hg; try (exfalso; apply Hj; reflexivity).
    + injection Hg as <-. split; reflexivity.
    + discriminate Hg.
  - exact (proj1 (proj2 (set_unparsable_int_zeroes
      Ref.cast Ref.noCodec (Some (Decl "IntTwice" None))
      [Field "A" false "x" Ref.t_int; Field "B" false "x" Ref.t_string]
      [DNum 3; DString "old"] 0
      (Field "A" false "x" Ref.t_int) "x" (Ref.str "not-a-number")
      eq_refl eq_refl eq_refl eq_refl eq_refl eq_refl))
      [] (Value Ex.tIntTwice false (DStruct [DNum 0; DString "not-a-number"]))
      eq_refl).
Defined.

(** C10, as the spec states it, on the record with the embedded record
    [Inner] and the unexported field [secret]: [set("secret", v)] would
    emit no "not found" message. It emits one: the key also leads into
    the embedded record, which has no such field. *)
Lemma set_unexported_logs_with_embedded_sibling :
  logged (set Ref.cast Ref.noCodec
              (Value Ex.tEmbSecret false (zero Ex.tEmbSecret))
              "secret" (Ref.str "s"))
  <> [] /\
  set Ref.cast Ref.noCodec (Value Ex.tEmbSecret false (zero Ex.tEmbSecret))
      "secret" (Ref.str "s")
  = ([notFound "secret"], Ok (Value Ex.tEmbSecret false (zero Ex.tEmbSecret))).
Proof. split; [vm_compute; discriminate|vm_compute; reflexivity]. Qed.

(** C10, as amended, on the record with the unexported field [secret]:
    [set("secret", "s")] stores the record it read and logs nothing; below
    a nil pointer the step stores a pointer to the zero record, and below
    a map without the entry it creates the entry. On the record with the
    embedded record [Inner] beside [secret], the key is found and the one
    message is that of the nested call on [Inner]. *)
Lemma set_unexported_field_is_touched_witness :
  (true = true /\
   struct_vals (zero Ex.tEmbSecret) !! 1
   = [DStruct [DString ""]; DString ""] !! 1 /\
   (exists vals',
      fieldsLoop (fieldStep Ref.cast Ref.noCodec (setStruct Ref.cast Ref.noCodec)
                            "secret" (Ref.str "s"))
                 [Field "Inner" true ",embed" Ex.tInner;
                  Field "secret" false "secret" Ref.t_string]
                 [DStruct [DString ""]; DString ""] false
      = ([notFound "secret"], Ok (vals', true)) /\
      zero Ex.tEmbSecret = DStruct vals') /\
   exists ls,
     [notFound "secret"] = concat ls /\
     length ls = length [Field "Inner" true ",embed" Ex.tInner;
                         Field "secret" false "secret" Ref.t_string] /\
     ls !! 1 = Some [] /\
     forall j g,
       [Field "Inner" true ",embed" Ex.tInner;
        Field "secret" false "secret" Ref.t_string] !! j = Some g ->
       exists lj, ls !! j = Some lj /\
         match walk g "secret" with
         | Some (st, nK) =>
             exists n0 r,
               setStruct Ref.cast Ref.noCodec st nK (Ref.str "s") n0
               = (lj, Ok r)
         | None => lj = []
         end) /\
  set Ref.cast Ref.noCodec (Value Ex.tSecret false (DStruct [DString ""; DNum 7]))
      "secret" (Ref.str "s")
  = ([], Ok (Value Ex.tSecret false (DStruct [DString ""; DNum 7]))) /\
  fieldStep Ref.cast Ref.noCodec (setStruct Ref.cast Ref.noCodec)
            "s.secret" (Ref.str "s") (Field "S" false "s" (TPtr Ex.tSecret))
            (DPtr None) false
  = ([], Ok (DPtr (Some (zero Ex.tSecret)), true)) /\
  fieldStep Ref.cast Ref.noCodec (setStruct Ref.cast Ref.noCodec)
            "m.x.secret" (Ref.str "s")
            (Field "M" false "m" (TMap None Ref.t_string Ex.tSecret))
            (DMap None) false
  = ([], Ok (DMap (Some (<["x" := zero Ex.tSecret]> (default ∅ None))), true)).
Proof.
  assert (Hothers : forall j g, j <> 0 ->
    [Field "secret" false "secret" Ref.t_string; Field "N" false "n" Ref.t_int]
    !! j = Some g ->
    exactMatch g "secret" = false /\ prefixMatch g "secret" = false).
  { intros [|[|j]] g Hj Hg; try (exfalso; apply Hj; reflexivity).
    - injection Hg as <-. split; reflexivity.
    - discriminate Hg. }
  pose proof (proj2 (set_unexported_field_is_touched Ref.cast Ref.noCodec
    (Some (Decl "Secret" None))
    [Field "secret" false "secret" Ref.t_string; Field "N" false "n" Ref.t_int]
    [DString ""; DNum 7] 0
    (Field "secret" false "secret" Ref.t_string) "secret" (Ref.str "s")
    eq_refl eq_refl eq_refl eq_refl) Hothers) as (_ & Hset & Hparent).
  split.
  { exact (proj1 (set_unexported_field_is_touched Ref.cast Ref.noCodec
      (Some (Decl "EmbSecret" None))
      [Field "Inner" true ",embed" Ex.tInner;
       Field "secret" false "secret" Ref.t_string]
      [DStruct [DString ""]; DString ""] 1
      (Field "secret" false "secret" Ref.t_string) "secret" (Ref.str "s")
      eq_refl eq_refl eq_refl eq_refl)
      [notFound "secret"] (zero Ex.tEmbSecret) true eq_refl). }
  split; [exact Hset|]. split.
  - exact (proj2 (proj1 (proj2 (Hparent (Field "S" false "s" (TPtr Ex.tSecret))
      "s.secret" false eq_refl eq_refl eq_refl)) eq_refl eq_refl)).
  - exact (proj2 (proj2 (Hparent
      (Field "M" false "m" (TMap None Ref.t_string Ex.tSecret))
      "m.x.secret" false eq_refl eq_refl eq_refl))
      None false None "x" eq_refl eq_refl eq_refl).
Defined.

(** The same at the level of [set], on the record with a pointer to the
    record [Secret] and a map of such records, both nil before the call:
    the key is found below each, nothing is logged, and the clone is
    committed back, as a new pointee and as a new entry. *)
Lemma set_unexported_below_pointer_and_map :
  set Ref.cast Ref.noCodec (Value Ex.tHolder false (zero Ex.tHolder))
      "s.secret" (Ref.str "s")
  = ([], Ok (Value Ex.tHolder false
               (DStruct [DPtr (Some (zero Ex.tSecret)); DMap None]))) /\
  set Ref.cast Ref.noCodec (Value Ex.tHolder false (zero Ex.tHolder))
      "m.x.secret" (Ref.str "s")
  = ([], Ok (Value Ex.tHolder false
               (DStruct [DPtr None; DMap (Some {["x" := zero Ex.tSecret]})]))).
Proof. split; vm_compute; reflexivity. Qed.

(** C4, as the spec states it, on the record with the two fields of alias
    [x]: were the first exact match to end the scan, [set("x", "v")] would
    leave the second field empty. It does not: both fields hold [v]. *)
Lemma set_first_exact_match_does_not_stop :
  ~ (exists l,
       set Ref.cast Ref.noCodec (Value Ex.tTwice false (zero Ex.tTwice))
           "x" (Ref.str "v")
       = (l, Ok (Value Ex.tTwice false (DStruct [DString "v"; DString ""])))).
Proof. intros [l H]. vm_compute in H. discriminate H. Qed.

(** C4, as amended, on the record with the two fields of alias [x]: the
    second field is assigned too. *)
Lemma set_assigns_every_exact_match_witness :
  true = true /\
  exists x,
    result (assignField Ref.cast Ref.noCodec (Field "B" false "x" Ref.t_string)
                        (DString "") (Ref.str "v")) = Ok x /\
    struct_vals (DStruct [DString "v"; DString "v"]) !! 1 = Some x.
Proof.
  exact (set_assigns_every_exact_match Ref.cast Ref.noCodec
    (Some (Decl "Twice" None))
    [Field "A" false "x" Ref.t_string; Field "B" false "x" Ref.t_string]
    [DString ""; DString ""] "x" (Ref.str "v") []
    (DStruct [DString "v"; DString "v"]) true eq_refl eq_refl
    1 (Field "B" false "x" Ref.t_string) (DString "") eq_refl eq_refl eq_refl).
Defined.

(** C8, as the spec states it, on the record with the field [M] of type
    [map[string]int]: [set("m.x", 5)] would create the map and store 5 at
    [x]. It does not: the field stays nil and the key is reported not
    found. *)
Lemma set_int_map_is_not_stored :
  ~ (exists l,
       set Ref.cast Ref.noCodec (Value Ex.tIntMap false (zero Ex.tIntMap))
           "m.x" (Ref.int 5)
       = (l, Ok (Value Ex.tIntMap false
                   (DStruct [DMap (Some {["x" := DNum 5%Z]})])))) /\
  set Ref.cast Ref.noCodec (Value Ex.tIntMap false (zero Ex.tIntMap))
      "m.x" (Ref.int 5)
  = ([notFound "m.x"], Ok (Value Ex.tIntMap false (DStruct [DMap None]))).
Proof.
  split; [|vm_compute; reflexivity].
  intros [l H]. vm_compute in H. discriminate H.
Qed.

(** C8, as amended, on the field [M] of type [map[string]string], nil
    before the call. *)
Lemma set_string_map_stores_raw_witness :
  fieldStep Ref.cast Ref.noCodec (setStruct Ref.cast Ref.noCodec) "m.x"
            (Ref.str "5")
            (Field "M" false "m" (TMap None Ref.t_string Ref.t_string))
            (DMap None) false
  = ([], Ok (DMap (Some {["x" := DString "5"]}), true)).
Proof.
  exact (proj1 (set_string_map_stores_raw Ref.cast Ref.noCodec
    (setStruct Ref.cast Ref.noCodec) "m.x"
    (Field "M" false "m" (TMap None Ref.t_string Ref.t_string))
    (DMap None) false None Ref.t_string None eq_refl eq_refl eq_refl eq_refl)
    (or_introl eq_refl) (Ref.t_string, DString "5") eq_refl).
Defined.

(** C6, as the spec states it, on the record with the field [Port] of
    type [Port], a defined integer type with no text codec:
    [set("port", "8080")] goes the way of the conversion and would not
    raise. It does: the switch of [castValue] has no case for [Port], the
    string is passed on as it is and [Set] panics. *)
Lemma set_unconverted_input_panics :
  codecName Ex.tPort = None /\
  ~ (exists l val',
       set Ref.cast Ref.noCodec (Value Ex.tFlat false (zero Ex.tFlat))
           "port" (Ref.str "8080") = (l, Ok val')) /\
  set Ref.cast Ref.noCodec (Value Ex.tFlat false (zero Ex.tFlat))
      "port" (Ref.str "8080")
  = ([], Panic (ReflectPanic "Set: value is not assignable")).
Proof.
  split; [reflexivity|]. split; [|vm_compute; reflexivity].
  intros (l & val' & H). vm_compute in H. discriminate H.
Qed.

(** C6, as amended, on the record with the codec field [Lvl] and the
    [int] field [N], and on the record with the field [Port]: the text
    [loud] makes the codec of [Level] panic with its error and makes the
    conversion to [int] give 0; the text [8080] is not converted to a
    [Port]. *)
Lemma set_codec_failure_panics_conversion_never_witness :
  set Ref.cast Ex.codec (Value Ex.tCodec false (zero Ex.tCodec))
      "lvl" (Ref.str "loud")
  = ([], Panic (DecodeError "unknown level")) /\
  (exists x,
     set Ref.cast Ex.codec (Value Ex.tCodec false (zero Ex.tCodec))
         "n" (Ref.str "loud")
     = ([], Ok (Value Ex.tCodec false
                  (DStruct (<[2 := x]> [DSlice None; DNum 0%Z; DNum 0%Z]))))) /\
  set Ref.cast Ref.noCodec (Value Ex.tFlat false (zero Ex.tFlat))
      "port" (Ref.str "8080")
  = ([], Panic (ReflectPanic "Set: value is not assignable")).
Proof.
  split; [|split].
  - refine (proj2 (proj2 (proj1 (set_codec_failure_panics_conversion_never
      Ref.cast Ex.codec (Some (Decl "Codec" None))
      [Field "L" false "l" Ex.tList; Field "Lvl" false "lvl" Ex.tLevel;
       Field "N" false "n" Ref.t_int]
      [DSlice None; DNum 0%Z; DNum 0%Z] 1 (Field "Lvl" false "lvl" Ex.tLevel)
      "lvl" (Ref.str "loud") eq_refl eq_refl eq_refl)
      "Level" "unknown level" eq_refl _)) eq_refl _).
    + intros cur. reflexivity.
    + intros [|[|[|j]]] g Hj Hg; try (exfalso; apply Hj; reflexivity).
      * injection Hg as <-. split; reflexivity.
      * injection Hg as <-. split; reflexivity.
      * discriminate Hg.
  - refine (proj2 (proj1 (proj2 (set_codec_failure_panics_conversion_never
      Ref.cast Ex.codec (Some (Decl "Codec" None))
      [Field "L" false "l" Ex.tList; Field "Lvl" false "lvl" Ex.tLevel;
       Field "N" false "n" Ref.t_int]
      [DSlice None; DNum 0%Z; DNum 0%Z] 2 (Field "N" false "n" Ref.t_int)
      "n" (Ref.str "loud") eq_refl eq_refl eq_refl)) eq_refl eq_refl)
      eq_refl _).
    intros [|[|[|j]]] g Hj Hg; try (exfalso; apply Hj; reflexivity).
    + injection Hg as <-. split; reflexivity.
    + injection Hg as <-. split; reflexivity.
    + discriminate Hg.
  - refine (proj2 (proj2 (proj2 (proj2 (set_codec_failure_panics_conversion_never
      Ref.cast Ref.noCodec (Some (Decl "Flat" None))
      [Field "Host" false "" Ref.t_string; Field "Port" false "port" Ex.tPort;
       Field "Skip" false "-" Ref.t_string]
      [DString ""; DNum 0%Z; DString ""] 1 (Field "Port" false "port" Ex.tPort)
      "port" (Ref.str "8080") eq_refl eq_refl eq_refl)) eq_refl eq_refl _)
      (Ref.t_string, DString "8080") eq_refl eq_refl) eq_refl _).
    + discriminate.
    + intros [|[|[|j]]] g Hj Hg; try (exfalso; apply Hj; reflexivity).
      * injection Hg as <-. split; reflexivity.
      * injection Hg as <-. split; reflexivity.
      * discriminate Hg.
Defined.


(** ** The "not found" diagnostic *)

Section Diagnostic.

Context (c : Cast) (u : string -> data -> string -> decoded).

(** C7, as amended. On a record, for every key [k]: when [k] matches
    no field, neither exactly nor by prefix, [set(k, v)] logs the one
    message "Config key k not found in bound value", stores the snapshot
    it read and does not panic. In general, when [set(k, v)] returns, its
    messages are those of the nested calls of [setStruct], field after
    field in the order of declaration, followed by that message for [k]
    exactly when no field was touched. A field gives rise to a nested
    call when the key matches it by prefix and not exactly and it is an
    exported struct, an exported pointer to a struct, or a string-keyed map
    of structs or of pointers to structs with a remainder key of the form
    [mapKey.rest]; the nested call is made with the remainder key, or
    with [rest], and its messages follow the same rule; no other field
    logs. When no field was touched every field holds what it held, but
    for a nil map on the way, now an empty map. *)
Theorem set_not_found_diagnostic dd fs vals k v :
  length vals = length fs ->
  (Forall (fun f => exactMatch f k = false /\ prefixMatch f k = false) fs ->
   set c u (Value (TStruct dd fs) false (DStruct vals)) k v
   = ([notFound k], Ok (Value (TStruct dd fs) false (DStruct vals)))) /\
  (forall l val',
   set c u (Value (TStruct dd fs) false (DStruct vals)) k v = (l, Ok val') ->
   exists l0 vals' touched,
     fieldsLoop (fieldStep c u (setStruct c u) k v) fs vals false
     = (l0, Ok (vals', touched)) /\
     val' = Value (TStruct dd fs) false (DStruct vals') /\
     l = l0 ++ (if touched : bool then [] else [notFound k]) /\
     (Forall (fun f => descends f k = false) fs -> l0 = []) /\
     (touched = false ->
      forall i d, vals !! i = Some d ->
        vals' !! i = Some d \/
        (vals' !! i = Some (DMap (Some ∅)) /\ forall m, d <> DMap (Some m))) /\
     exists ls,
       l0 = concat ls /\ length ls = length fs /\
       forall i f, fs !! i = Some f ->
         exists li, ls !! i = Some li /\
           match walk f k with
           | Some (st, nK) =>
               exists n0 r, setStruct c u st nK v n0 = (li, Ok r)
           | None => li = []
           end) /\
  (forall sd sfs nK target l nVal touched,
   setStruct c u (TStruct sd sfs) nK v target = (l, Ok (nVal, touched)) ->
   exists ls,
     l = concat ls ++ (if touched : bool then [] else [notFound nK]) /\
     length ls = length sfs /\
     forall i f, sfs !! i = Some f ->
       exists li, ls !! i = Some li /\
         match walk f nK with
         | Some (st, nK') =>
             exists n0 r, setStruct c u st nK' v n0 = (li, Ok r)
         | None => li = []
         end).
Proof.
  intros Hlen. split; [|split].
  - intros Hfs. rewrite set_record, setStruct_struct. cbn [struct_vals].
    rewrite fieldsLoop_unmatched by assumption. reflexivity.
  - intros l val' H. rewrite set_record, setStruct_struct in H.
    cbn [struct_vals] in H.
    destruct (fieldsLoop (fieldStep c u (setStruct c u) k v) fs vals false)
      as [l0 [[vals' touched]|p]] eqn:Hloop; [|discriminate].
    exists l0, vals', touched. split; [reflexivity|].
    assert (H' : val' = Value (TStruct dd fs) false (DStruct vals') /\
                 l = l0 ++ (if touched then [] else [notFound k])).
    { destruct touched; cbn in H; injection H as <- <-;
        rewrite ?app_nil_r; auto. }
    destruct H' as [-> ->]. split; [reflexivity|]. split; [reflexivity|].
    split; [|split].
    + intros Hfs.
      pose proof (fieldsLoop_silent c u (setStruct c u) k v fs vals false Hfs) as Hl.
      rewrite Hloop in Hl. exact Hl.
    + intros -> i d Hd.
      apply fieldsLoop_Ok_inv in Hloop. destruct Hloop as (Hlen' & _ & Hfields).
      destruct (lookup_lt_is_Some_2 fs i) as [f Hf].
      { rewrite <- Hlen. eapply lookup_lt_Some, Hd. }
      destruct (Hfields i f Hf) as (si & li & d' & si' & Hstep & Hv & Hup).
      rewrite Hd in Hstep. cbn [default] in Hstep.
      destruct si'; [specialize (Hup eq_refl); discriminate|].
      apply fieldStep_untouched in Hstep. destruct Hstep as [_ [-> | [-> Hnil]]].
      * left. exact Hv.
      * right. auto.
    + eapply fieldsLoop_logs, Hloop.
  - intros sd sfs nK target l nVal touched. apply setStruct_logs.
Qed.

End Diagnostic.

(** C7, as the spec states it, on the record with the nested field [Db]:
    [set("db.nope", v)] touches no field and would log the one message
    for [db.nope]. It logs two: the nested walk logs one for the remainder
    key [nope] first. *)
Lemma set_nested_miss_logs_twice :
  logged (set Ref.cast Ref.noCodec (Value Ex.tNested false (zero Ex.tNested))
              "db.nope" (Ref.str "x"))
  <> [notFound "db.nope"] /\
  set Ref.cast Ref.noCodec (Value Ex.tNested false (zero Ex.tNested))
      "db.nope" (Ref.str "x")
  = ([notFound "nope"; notFound "db.nope"],
     Ok (Value Ex.tNested false (zero Ex.tNested))).
Proof. split; [vm_compute; discriminate|vm_compute; reflexivity]. Qed.

(** A call that touches a field logs all the same when the key also
    leads into an embedded record that has no such field. *)
Lemma set_embedded_miss_logs_though_touched :
  set Ref.cast Ref.noCodec (Value Ex.tOuter false (zero Ex.tOuter))
      "a" (Ref.str "x")
  = ([notFound "a"],
     Ok (Value Ex.tOuter false (DStruct [DStruct [DString ""]; DString "x"]))).
Proof. vm_compute. reflexivity. Qed.

(** A miss below a nil map of records leaves an empty map behind; a hit
    creates the entry. *)
Lemma set_miss_makes_nil_map_empty :
  set Ref.cast Ref.noCodec (Value Ex.tItems false (zero Ex.tItems))
      "items.x.nope" (Ref.str "v")
  = ([notFound "nope"; notFound "items.x.nope"],
     Ok (Value Ex.tItems false (DStruct [DMap (Some ∅)]))) /\
  set Ref.cast Ref.noCodec (Value Ex.tItems false (zero Ex.tItems))
      "items.x.name" (Ref.str "hello")
  = ([], Ok (Value Ex.tItems false
               (DStruct [DMap (Some {["x" := DStruct [DString "hello"]]})]))).
Proof. split; vm_compute; reflexivity. Qed.

(** Two fields the key matches by prefix without a nested call: an
    unexported struct field, and a map of records when the remainder key
    has no second segment. The one message is that for the key, and the
    nil map stays nil. *)
Lemma set_prefix_match_without_nested_call :
  walk (Field "db" false "db" Ex.tDb) "db.nope" = None /\
  set Ref.cast Ref.noCodec
      (Value (TStruct (Some (Decl "Hidden" None)) [Field "db" false "db" Ex.tDb])
             false (DStruct [DStruct [DString ""]]))
      "db.nope" (Ref.str "x")
  = ([notFound "db.nope"],
     Ok (Value (TStruct (Some (Decl "Hidden" None)) [Field "db" false "db" Ex.tDb])
               false (DStruct [DStruct [DString ""]]))) /\
  walk (Field "Items" false "items" (TMap None Ref.t_string Ex.tItem)) "items.x"
  = None /\
  set Ref.cast Ref.noCodec (Value Ex.tItems false (zero Ex.tItems))
      "items.x" (Ref.str "v")
  = ([notFound "items.x"], Ok (Value Ex.tItems false (DStruct [DMap None]))).
Proof. repeat split; vm_compute; reflexivity. Qed.

(** C7, as amended, on the record with the nested field [Db]: the key
    [port] matches no field; the key [db.nope] leads into [Db] and finds
    nothing there, and the two messages are that of the nested call, for
    [nope], and that for the key. *)
Lemma set_not_found_diagnostic_witness :
  set Ref.cast Ref.noCodec (Value Ex.tNested false (zero Ex.tNested))
      "port" (Ref.str "x")
  = ([notFound "port"], Ok (Value Ex.tNested false (zero Ex.tNested))) /\
  (exists l0 vals' touched,
    fieldsLoop (fieldStep Ref.cast Ref.noCodec (setStruct Ref.cast Ref.noCodec)
                          "db.nope" (Ref.str "x"))
               [Field "Db" false "db" Ex.tDb] [DStruct [DString ""]] false
    = (l0, Ok (vals', touched)) /\
    Value Ex.tNested false (zero Ex.tNested)
    = Value (TStruct (Some (Decl "Nested" None)) [Field "Db" false "db" Ex.tDb])
            false (DStruct vals') /\
    [notFound "nope"; notFound "db.nope"]
    = l0 ++ (if touched : bool then [] else [notFound "db.nope"]) /\
    (Forall (fun f => descends f "db.nope" = false) [Field "Db" false "db" Ex.tDb] ->
     l0 = []) /\
    (touched = false ->
     forall i d, [DStruct [DString ""]] !! i = Some d ->
       vals' !! i = Some d \/
       (vals' !! i = Some (DMap (Some ∅)) /\ forall m, d <> DMap (Some m))) /\
    exists ls,
      l0 = concat ls /\ length ls = length [Field "Db" false "db" Ex.tDb] /\
      forall i f, [Field "Db" false "db" Ex.tDb] !! i = Some f ->
        exists li, ls !! i = Some li /\
          match walk f "db.nope" with
          | Some (st, nK) =>
              exists n0 r,
                setStruct Ref.cast Ref.noCodec st nK (Ref.str "x") n0
                = (li, Ok r)
          | None => li = []
          end) /\
  (exists ls,
     [notFound "nope"] = concat ls ++ [notFound "nope"] /\
     length ls = length [Field "Host" false "host" Ref.t_string] /\
     forall i f, [Field "Host" false "host" Ref.t_string] !! i = Some f ->
       exists li, ls !! i = Some li /\
         match walk f "nope" with
         | Some (st, nK') =>
             exists n0 r,
               setStruct Ref.cast Ref.noCodec st nK' (Ref.str "x") n0
               = (li, Ok r)
         | None => li = []
         end).
Proof.
  split; [|split].
  - refine (proj1 (set_not_found_diagnostic Ref.cast Ref.noCodec
      (Some (Decl "Nested" None)) [Field "Db" false "db" Ex.tDb]
      [DStruct [DString ""]] "port" (Ref.str "x") eq_refl) _).
    repeat constructor.
  - exact (proj1 (proj2 (set_not_found_diagnostic Ref.cast Ref.noCodec
      (Some (Decl "Nested" None)) [Field "Db" false "db" Ex.tDb]
      [DStruct [DString ""]] "db.nope" (Ref.str "x") eq_refl))
      [notFound "nope"; notFound "db.nope"]
      (Value Ex.tNested false (zero Ex.tNested)) eq_refl).
  - exact (proj2 (proj2 (set_not_found_diagnostic Ref.cast Ref.noCodec
      (Some (Decl "Nested" None)) [Field "Db" false "db" Ex.tDb]
      [DStruct [DString ""]] "db.nope" (Ref.str "x") eq_refl))
      (Some (Decl "Db" None)) [Field "Host" false "host" Ref.t_string]
      "nope" (DStruct [DString ""]) [notFound "nope"]
      (DStruct [DString ""]) false eq_refl).
Defined.

(** ** Idempotence *)

Section Idempotence.

Context (c : Cast) (u : string -> data -> string -> decoded).

(** The text codecs give, on a value they decoded from a text, that
    value again for the same text. *)
Hypothesis codec_idempotent :
  forall n d text d', u n d text = Decoded d' -> u n d' text = Decoded d'.

(** The input, converted to its own dynamic type, is itself. *)
Variable x : iface.
Hypothesis input_fixed : castValue c x x = x.

Lemma castValue_cases t d v :
  castValue c (Some (t, d)) v = v \/
  exists y, castValue c (Some (t, d)) v = Some (t, y).
Proof.
  unfold castValue.
  destruct t; try (destruct (castScalar c _ v); eauto).
  all: destruct (castContainer c _ v); eauto.
Qed.

Lemma codecResult_idem t d str d1 :
  codecResult u t d str = Some (Decoded d1) ->
  codecResult u t d1 str = Some (Decoded d1).
Proof.
  unfold codecResult.
  destruct t as [dd bb|e|dd fs|dd kt et|dd e|].
  all: repeat match goal with
         | |- context [method ?t] => destruct (method t) as [[n [|]]|] eqn:?
         end; try discriminate.
  all: try (destruct d as [| | | |[?|]| | | |]).
  all: intros H.
  all: repeat match type of H with
         | context [u ?n ?a ?s] =>
             let E := fresh "E" in destruct (u n a s) eqn:E
         end; try discriminate H.
  all: injection H as <-.
  all: try (rewrite E; reflexivity).
  all: rewrite (codec_idempotent _ _ _ _ E); reflexivity.
Qed.

Lemma codecResult_declines t d d' str :
  codecResult u t d str = None -> codecResult u t d' str = None.
Proof.
  unfold codecResult.
  destruct t as [dd bb|e|dd fs|dd kt et|dd e|].
  all: repeat match goal with
         | |- context [method ?t] => destruct (method t) as [[n [|]]|] eqn:?
         end; try discriminate; reflexivity.
Qed.

(** What the exact-match branch assigns, it assigns again. *)
Lemma assignField_idem f d d1 :
  result (assignField c u f d x) = Ok d1 ->
  result (assignField c u f d1 x) = Ok d1.
Proof.
  unfold assignField. destruct (exported f); [|intros [= <-]; reflexivity].
  rewrite !result_bind, !unmarshal_codecResult.
  destruct (codecResult u (Type_ f) d (ToString c x)) as [[d'|err]|] eqn:Hc.
  - cbn. intros [= <-]. rewrite (codecResult_idem _ _ _ _ Hc). reflexivity.
  - discriminate.
  - rewrite (codecResult_declines _ _ d1 _ Hc). cbn [result ret snd].
    destruct (Type_ f) as [dd bb|e|dd fs|dd kt et|dd e|] eqn:Hty;
      try (cbn [Interface]; intros H; exact H).
    (* an interface field: the switch is on what the field holds *)
    cbn [Interface zero].
    assert (Hnil : castValue c None x = x) by reflexivity.
    assert (Hset : forall y, result (assignTo "Set: value is not assignable"
                                       TInterface y) = Ok (DIface (Some y))).
    { intros y. unfold assignTo, AssignableTo. rewrite orb_true_r. reflexivity. }
    destruct (match d with DIface i => i | _ => None end) as [[t0 d0]|] eqn:Hi.
    + destruct (castValue_cases t0 d0 x) as [Hv | [y Hy]].
      * rewrite Hv. destruct x as [y|] eqn:Hx.
        -- rewrite Hset. intros [= <-]. rewrite <- Hx in *.
           rewrite input_fixed. rewrite Hx, Hset. reflexivity.
        -- intros [= <-]. reflexivity.
      * rewrite Hy, Hset. intros [= <-].
        change (castValue c (Some (t0, y)) x) with (castValue c (Some (t0, d0)) x).
        rewrite Hy, Hset. reflexivity.
    + rewrite Hnil. destruct x as [y|] eqn:Hx.
      * rewrite Hset. intros [= <-]. rewrite <- Hx in *.
        rewrite input_fixed. rewrite Hx, Hset. reflexivity.
      * intros [= <-]. reflexivity.
Qed.

Lemma setStruct_Ok_struct t k v target d b :
  result (setStruct c u t k v target) = Ok (d, b) -> exists vals, d = DStruct vals.
Proof.
  destruct t as [dd bb|e|dd fs|dd kt et|dd e|]; try discriminate.
  rewrite setStruct_struct, result_bind.
  destruct (result (fieldsLoop _ _ _ _)) as [[vals s]|]; [|discriminate].
  destruct s; cbn; intros [= <- <-]; eauto.
Qed.

Lemma setStringMap_idem f kt et d nK d1 :
  result (setStringMap f kt et d nK x) = Ok d1 ->
  result (setStringMap f kt et d1 nK x) = Ok d1.
Proof.
  unfold setStringMap, makeMapIfNil, SetMapIndex, assignTo.
  destruct (exported f), (AssignableTo (TBasic None String_) kt);
    destruct (IsNil d); cbn; try discriminate.
  all: destruct x as [y|]; [destruct (AssignableTo y.1 et)|];
    cbn; try discriminate; intros [= <-]; cbn.
  all: rewrite ?insert_insert_eq, ?delete_delete_eq; reflexivity.
Qed.

Lemma setStructMap_idem f kt st ptr d s nK d' s' :
  idem_at c u x st ->
  result (setStructMap (setStruct c u) f kt st ptr d s nK x) = Ok (d', s') ->
  result (setStructMap (setStruct c u) f kt st ptr d' s nK x) = Ok (d', s').
Proof.
  intros IH. unfold setStructMap.
  destruct (Strings.SplitN2 KeySepByte nK) as [[mapKey rest]|];
    [|intros [= <- <-]; reflexivity].
  intros H. rewrite result_bind in H.
  destruct (result (makeMapIfNil f d)) as [m|] eqn:Hm; [|discriminate].
  destruct (negb (AssignableTo (TBasic None String_) kt)) eqn:Hk;
    [discriminate|].
  rewrite result_bind in H.
  destruct (result match m !! mapKey with
                   | Some ov =>
                       if exported f then ret (copier_Copy (zero st) ov)
                       else raise (ReflectPanic "Interface: unexported field")
                   | None => ret (zero st)
                   end) as [n0|] eqn:Hn0; [|discriminate].
  rewrite result_bind in H.
  destruct (result (setStruct c u st rest x n0)) as [[nVal ok]|] eqn:Hrec;
    [|discriminate].
  destruct ok.
  - rewrite result_bind in H.
    destruct (exported f) eqn:Hexp; [|discriminate].
    injection H as <- <-.
    destruct (setStruct_Ok_struct _ _ _ _ _ _ Hrec) as [vals ->].
    rewrite result_bind. cbn [makeMapIfNil IsNil map_of result ret snd].
    rewrite result_bind, lookup_insert_eq.
    cbn [result ret snd].
    replace (copier_Copy (zero st) (if ptr then DPtr (Some (DStruct vals))
                                    else DStruct vals))
      with (DStruct vals) by (destruct ptr; reflexivity).
    rewrite result_bind, (IH _ _ _ _ Hrec), result_bind.
    cbn [result ret snd]. rewrite insert_insert_eq. reflexivity.
  - injection H as <- <-.
    rewrite result_bind. cbn [makeMapIfNil IsNil map_of result ret snd].
    rewrite result_bind, Hn0, result_bind, Hrec. reflexivity.
Qed.

Lemma fieldStep_idem f k d s d' s' :
  (forall t, tsize t <= tsize (Type_ f) -> idem_at c u x t) ->
  result (fieldStep c u (setStruct c u) k x f d s) = Ok (d', s') ->
  result (fieldStep c u (setStruct c u) k x f d' s) = Ok (d', s').
Proof.
  unfold fieldStep.
  destruct (exactMatch f k).
  { intros _. rewrite !result_bind.
    destruct (result (assignField c u f d x)) as [d1|] eqn:Ha; [|discriminate].
    intros [= <- <-]. rewrite (assignField_idem _ _ _ Ha). reflexivity. }
  destruct (prefixMatch f k); [|intros _ [= <- <-]; reflexivity].
  destruct (Type_ f) as [dd bb|e|dd fs|dd kt et|dd e|] eqn:Hty; intros IH;
    try (intros [= <- <-]; reflexivity).
  - (* a pointer *)
    destruct e as [? ?|?|dd fs|? ? ?|? ?|];
      try (intros [= <- <-]; reflexivity).
    destruct (exported f); [|intros [= <- <-]; reflexivity].
    rewrite !result_bind.
    destruct (result (setStruct c u (TStruct dd fs) (remainder f k) x _))
      as [[nVal ok]|] eqn:Hrec; [|discriminate].
    destruct ok; intros [= <- <-].
    + destruct (setStruct_Ok_struct _ _ _ _ _ _ Hrec) as [vals ->].
      cbn [IsNil copier_Copy].
      assert (Hle : tsize (TStruct dd fs) <= tsize (TPtr (TStruct dd fs)))
        by (simpl; lia).
      rewrite (IH _ Hle _ _ _ _ Hrec). reflexivity.
    + rewrite Hrec. reflexivity.
  - (* a struct *)
    destruct (exported f); [|intros [= <- <-]; reflexivity].
    rewrite !result_bind.
    destruct (result (setStruct c u (TStruct dd fs) (remainder f k) x _))
      as [[nVal ok]|] eqn:Hrec; [|discriminate].
    destruct ok; intros [= <- <-].
    + destruct (setStruct_Ok_struct _ _ _ _ _ _ Hrec) as [vals ->].
      cbn [copier_Copy].
      rewrite (IH _ (le_n _) _ _ _ _ Hrec). reflexivity.
    + rewrite Hrec. reflexivity.
  - (* a map *)
    destruct (kind kt) as [[]| | | | |]; try (intros [= <- <-]; reflexivity).
    destruct et as [? b|e|dd' fs|? ? ?|? ?|];
      try (intros [= <- <-]; reflexivity).
    + destruct b; try (intros [= <- <-]; reflexivity).
      rewrite !result_bind.
      destruct (result (setStringMap _ _ _ d _ x)) as [d1|] eqn:Hs;
        [|discriminate].
      intros [= <- <-]. rewrite (setStringMap_idem _ _ _ _ _ _ Hs). reflexivity.
    + destruct e as [? b|?|dd' fs|? ? ?|? ?|];
        try (intros [= <- <-]; reflexivity).
      * destruct b; try (intros [= <- <-]; reflexivity).
        rewrite !result_bind.
        destruct (result (setStringMap _ _ _ d _ x)) as [d1|] eqn:Hs;
          [|discriminate].
        intros [= <- <-]. rewrite (setStringMap_idem _ _ _ _ _ _ Hs).
        reflexivity.
      * apply setStructMap_idem, IH. simpl. lia.
    + apply setStructMap_idem, IH. simpl. lia.
Qed.

Lemma fieldsLoop_idem fs k : forall vals s vals' s',
  (forall f, In f fs -> forall t, tsize t <= tsize (Type_ f) -> idem_at c u x t) ->
  result (fieldsLoop (fieldStep c u (setStruct c u) k x) fs vals s)
  = Ok (vals', s') ->
  result (fieldsLoop (fieldStep c u (setStruct c u) k x) fs vals' s)
  = Ok (vals', s').
Proof.
  induction fs as [|f fs IHfs]; intros vals s vals' s' IH.
  - intros [= <- <-]. reflexivity.
  - rewrite !fieldsLoop_cons, !result_bind.
    destruct (result (fieldStep c u (setStruct c u) k x f _ s))
      as [[d1 s1]|] eqn:Hstep; [|discriminate].
    rewrite result_bind.
    destruct (result (fieldsLoop _ fs (tl vals) s1)) as [[vs s2]|] eqn:Hrest;
      [|discriminate].
    intros [= <- <-]. cbn [hd tl].
    rewrite (fieldStep_idem _ _ _ _ _ _ (IH f (or_introl eq_refl)) Hstep).
    rewrite result_bind, (IHfs _ _ _ _ (fun g Hg => IH g (or_intror Hg)) Hrest).
    reflexivity.
Qed.

Lemma setStruct_idem t : idem_at c u x t.
Proof.
  remember (tsize t) as n eqn:Hn. revert t Hn.
  induction n as [n IH] using lt_wf_ind. intros t -> k target d b.
  destruct t as [dd bb|e|dd fs|dd kt et|dd e|]; try discriminate.
  rewrite !setStruct_struct, !result_bind.
  destruct (result (fieldsLoop _ fs (struct_vals target) false))
    as [[vals s]|] eqn:Hloop; [|discriminate].
  intros H.
  assert (Hd : d = DStruct vals /\ b = s).
  { destruct s; cbn in H; injection H as <- <-; auto. }
  destruct Hd as [-> ->]. cbn [struct_vals].
  rewrite (fieldsLoop_idem fs k _ _ _ _) with (2 := Hloop); [exact H|].
  intros f Hf t Ht. apply (IH (tsize t)); [|reflexivity].
  pose proof (tsize_field dd fs f Hf). lia.
Qed.

(** The copy loop of the map branch copies the map. *)
Lemma sort_elem_of (kk : string) l : kk ∈ Strings.sort l <-> kk ∈ l.
Proof.
  unfold Strings.sort. induction l as [|y l IH]; simpl; [reflexivity|].
  rewrite elem_of_cons, <- IH. clear IH.
  generalize (foldr Strings.insert_sorted [] l). intros l'.
  induction l' as [|z l' IH]; simpl.
  - rewrite list_elem_of_singleton, elem_of_nil. tauto.
  - destruct (String.leb y z); rewrite !elem_of_cons; [reflexivity|].
    rewrite IH. tauto.
Qed.

Lemma sorted_elem_of {A} (m : gmap string A) kk :
  kk ∈ sorted m <-> is_Some (m !! kk).
Proof.
  unfold sorted. rewrite sort_elem_of, list_elem_of_fmap. split.
  - intros [[k' a] [-> Hin]]. apply elem_of_map_to_list in Hin. eauto.
  - intros [a Ha]. exists (kk, a). split; [reflexivity|].
    apply elem_of_map_to_list, Ha.
Qed.

Lemma copyMap_id (m : gmap string data) : copyMap m = m.
Proof.
  unfold copyMap. apply map_eq. intros kk.
  assert (H : forall l (acc : gmap string data),
    foldl (fun nMap k0 => <[k0 := default (DIface None) (m !! k0)]> nMap) acc l
    !! kk
    = if decide (kk ∈ l) then Some (default (DIface None) (m !! kk))
      else acc !! kk).
  { induction l as [|y l IH]; intros acc.
    - destruct (decide (kk ∈ [])) as [Hin|_]; [|reflexivity].
      apply elem_of_nil in Hin. destruct Hin.
    - cbn [foldl]. rewrite IH.
      destruct (decide (kk ∈ l)) as [Hin|Hnin];
        destruct (decide (kk ∈ y :: l)) as [Hin'|Hnin']; try reflexivity.
      + exfalso. apply Hnin'. right. exact Hin.
      + apply elem_of_cons in Hin'. destruct Hin' as [->|Hin]; [|tauto].
        apply lookup_insert_eq.
      + apply lookup_insert_ne. intros ->. apply Hnin'. left. }
  rewrite H, lookup_empty.
  destruct (decide (kk ∈ sorted m)) as [Hin|Hnin].
  - apply sorted_elem_of in Hin. destruct Hin as [a ->]. reflexivity.
  - destruct (m !! kk) eqn:Hm; [|reflexivity].
    exfalso. apply Hnin, sorted_elem_of. eauto.
Qed.

(** C9, as amended. When the text codecs give on their own result, for
    the same text, that result again, and the input converted to its own
    type is the input, a second [set(k, x)] stores the snapshot the first
    one stored: the cell holds the same value after one call and after
    two. *)
Theorem set_twice_stores_the_same val k :
  stored c u (stored c u val k x) k x = stored c u val k x.
Proof.
  destruct val as [t im d]. unfold stored at 2 3, set.
  cbn [vt isMap snapshot]. destruct im.
  - destruct (type_eqb t openMap) eqn:Ht; cbn [result ret raise snd].
    + unfold stored, set. cbn [vt isMap snapshot]. rewrite Ht.
      cbn [result ret snd map_of]. rewrite !copyMap_id, insert_insert_eq.
      reflexivity.
    + unfold stored, set. cbn [vt isMap snapshot]. rewrite Ht. reflexivity.
  - rewrite result_bind.
    destruct (result (setStruct c u t k x (copier_Copy (zero t) d)))
      as [[d1 b]|] eqn:H; cbn [result ret snd].
    + unfold stored, set. cbn [vt isMap snapshot]. rewrite result_bind.
      destruct (setStruct_Ok_struct _ _ _ _ _ _ H) as [vals ->].
      cbn [copier_Copy]. rewrite (setStruct_idem _ _ _ _ _ H). reflexivity.
    + unfold stored, set. cbn [vt isMap snapshot]. rewrite result_bind, H.
      reflexivity.
Qed.

End Idempotence.

(** C9, as the spec states it, on the record with the field [L] of type
    [List], whose codec appends: after one [set("l", "a")] the list is
    [a], after two it is [a, a]. *)
Lemma set_twice_differs_with_appending_codec :
  let val := Value Ex.tCodec false (zero Ex.tCodec) in
  stored Ref.cast Ex.codec (stored Ref.cast Ex.codec val "l" (Ref.str "a"))
         "l" (Ref.str "a")
  <> stored Ref.cast Ex.codec val "l" (Ref.str "a").
Proof. vm_compute. discriminate. Qed.

(** The second condition is needed as well: for a field of interface
    type the switch of [castValue] is on what the field holds, so an
    input its own conversion changes (a nil [*int], converted to a pointer
    to 0) is stored as it is by the first call and converted by the
    second. *)
Lemma set_twice_differs_on_interface_field :
  stored Ref.cast Ref.noCodec
         (stored Ref.cast Ref.noCodec (Value Ex.tAny false (zero Ex.tAny))
                 "x" Ex.nilIntPtr)
         "x" Ex.nilIntPtr
  <> stored Ref.cast Ref.noCodec (Value Ex.tAny false (zero Ex.tAny))
            "x" Ex.nilIntPtr.
Proof. vm_compute. discriminate. Qed.

(** C9, as amended, with the codec of [Level], which depends on the text
    alone. *)
Lemma set_twice_stores_the_same_witness :
  let val := Value Ex.tCodec false (zero Ex.tCodec) in
  stored Ref.cast Ex.levelCodec
         (stored Ref.cast Ex.levelCodec val "lvl" (Ref.str "info"))
         "lvl" (Ref.str "info")
  = stored Ref.cast Ex.levelCodec val "lvl" (Ref.str "info").
Proof.
  refine (set_twice_stores_the_same Ref.cast Ex.levelCodec _ (Ref.str "info")
            eq_refl (Value Ex.tCodec false (zero Ex.tCodec)) "lvl").
  intros n d text d'. unfold Ex.levelCodec.
  destruct (String.eqb n "Level");
    [destruct (String.eqb text "debug"); [|destruct (String.eqb text "info")]|];
    intros H; try discriminate H; injection H as <-; reflexivity.
Defined.

(** * Further properties *)

(** ** The order of the keys *)

Lemma insert_sorted_Sorted x l :
  Sorted (fun a b => String.leb a b = true) l ->
  Sorted (fun a b => String.leb a b = true) (Strings.insert_sorted x l).
Proof.
  induction 1 as [|y l Hl IH Hhd]; simpl.
  - repeat constructor.
  - destruct (String.leb x y) eqn:Hxy.
    + constructor; [constructor; assumption|constructor; exact Hxy].
    + constructor; [exact IH|].
      assert (Hyx : String.leb y x = true).
      { destruct (String.leb_total x y) as [H|H]; congruence. }
      destruct Hhd as [|z l' Hyz]; simpl.
      * constructor. exact Hyx.
      * destruct (String.leb x z); constructor; assumption.
Qed.

Lemma insert_sorted_Permutation x l : Strings.insert_sorted x l ≡ₚ x :: l.
Proof.
  induction l as [|y l IH]; simpl; [reflexivity|].
  destruct (String.leb x y); [reflexivity|].
  rewrite IH. apply Permutation_swap.
Qed.

Lemma sort_Permutation l : Strings.sort l ≡ₚ l.
Proof.
  unfold Strings.sort. induction l as [|y l IH]; simpl; [reflexivity|].
  rewrite insert_sorted_Permutation, IH. reflexivity.
Qed.

(** X1. [sorted] lists the keys of the map, each one once, in increasing
    byte-wise order. *)
Theorem sorted_lists_keys_in_order {A} (m : gmap string A) :
  Sorted (fun a b => String.leb a b = true) (sorted m) /\
  NoDup (sorted m) /\
  forall kk, kk ∈ sorted m <-> is_Some (m !! kk).
Proof.
  split; [|split].
  - unfold sorted, Strings.sort.
    induction (map_to_list m).*1 as [|y l IH]; simpl; [constructor|].
    apply insert_sorted_Sorted, IH.
  - unfold sorted. rewrite sort_Permutation. apply NoDup_fst_map_to_list.
  - intros kk. apply sorted_elem_of.
Qed.

(** ** The OpenMap variant *)

Lemma foldl_insert_lookup (g : string -> data) kk : forall l (acc : gmap string data),
  foldl (fun nMap k0 => <[k0 := g k0]> nMap) acc l !! kk
  = if decide (kk ∈ l) then Some (g kk) else acc !! kk.
Proof.
  induction l as [|y l IH]; intros acc.
  - destruct (decide (kk ∈ [])) as [Hin|_]; [|reflexivity].
    apply elem_of_nil in Hin. destruct Hin.
  - cbn [foldl]. rewrite IH.
    destruct (decide (kk ∈ l)) as [Hin|Hnin];
      destruct (decide (kk ∈ y :: l)) as [Hin'|Hnin']; try reflexivity.
    + exfalso. apply Hnin'. right. exact Hin.
    + apply elem_of_cons in Hin'. destruct Hin' as [->|Hin]; [|tauto].
      apply lookup_insert_eq.
    + apply lookup_insert_ne. intros ->. apply Hnin'. left.
Qed.

(** X2. On a bound [map[string]interface{}], [set(k, v)] stores the map
    the cell held with [k] bound to [v]: every other key keeps its entry, a
    nil map counts as empty, and the call neither logs nor panics. *)
Theorem set_open_map_inserts c u val k v :
  vt val = openMap -> isMap val = true ->
  set c u val k v
  = ([], Ok (Value openMap true
               (DMap (Some (<[k := DIface v]> (map_of (snapshot val))))))).
Proof.
  intros Ht Hm. unfold set. rewrite Hm, Ht, copyMap_id. reflexivity.
Qed.

(** X3. On a bound [map[string]interface{}], [setValues(x)] stores the
    map the cell held overridden by the batch: a key of [x] holds its value
    in [x], any other key keeps its entry. *)
Theorem setValues_open_map_overrides c u val x :
  vt val = openMap -> isMap val = true ->
  setValues c u val x
  = ([], Ok (Value openMap true
               (DMap (Some ((DIface <$> x) ∪ map_of (snapshot val)))))).
Proof.
  intros Ht Hm. unfold setValues. rewrite Hm, Ht, copyMap_id.
  replace (type_eqb openMap openMap) with true by reflexivity.
  assert (Hmap :
    foldl (fun nMap kk => <[kk := DIface (default None (x !! kk))]> nMap)
          (map_of (snapshot val)) (sorted x)
    = (DIface <$> x) ∪ map_of (snapshot val)); [|rewrite Hmap; reflexivity].
  apply map_eq. intros kk.
  rewrite (foldl_insert_lookup (fun k0 => DIface (default None (x !! k0)))).
  rewrite lookup_union, lookup_fmap.
  destruct (decide (kk ∈ sorted x)) as [Hin|Hnin].
  - apply sorted_elem_of in Hin. destruct Hin as [a ->]. cbn.
    destruct (map_of (snapshot val) !! kk); reflexivity.
  - destruct (x !! kk) eqn:Hx.
    + exfalso. apply Hnin, sorted_elem_of. eauto.
    + cbn. destruct (map_of (snapshot val) !! kk); reflexivity.
Qed.

(** X4. [Bind] accepts every map type whose keys are of kind string and
    whose elements are interfaces, but [set] and [setValues] assert the
    snapshot to be a [map[string]interface{}]: on a bound map of any other
    such type (a defined map type, a defined key type) every update
    panics. *)
Theorem set_on_defined_map_type_panics c u t val :
  Bind t = Ok val -> kind t = KMap -> type_eqb t openMap = false ->
  (forall k v,
     set c u val k v = ([], Panic (RuntimePanic "interface conversion"))) /\
  (forall x,
     setValues c u val x = ([], Panic (RuntimePanic "interface conversion"))).
Proof.
  intros HB Hk Ht.
  destruct t as [dd bb|e|dd fs|dd kt et|dd e|]; try discriminate.
  unfold Bind in HB. destruct (kind kt) as [[]| | | | |]; try discriminate.
  destruct et; try discriminate. injection HB as <-.
  split; intros; unfold set, setValues; cbn [isMap vt]; rewrite Ht; reflexivity.
Qed.

(** ** Batches on a record *)

Lemma setEach_setAll c u dd fs x : forall keys vals,
  (nVal ← setEach c u (TStruct dd fs) x keys (DStruct vals);
   ret (Value (TStruct dd fs) false nVal))
  = setAll c u (Value (TStruct dd fs) false (DStruct vals)) x keys.
Proof.
  induction keys as [|kk keys IH]; intros vals; [reflexivity|].
  cbn [setEach setAll]. rewrite set_record.
  destruct (setStruct c u (TStruct dd fs) kk (default None (x !! kk))
              (DStruct vals)) as [l [[nVal b]|p]] eqn:H; [|reflexivity].
  assert (Hs : exists vals', nVal = DStruct vals').
  { apply (setStruct_Ok_struct c u (TStruct dd fs) kk (default None (x !! kk))
             (DStruct vals) nVal b). rewrite H. reflexivity. }
  destruct Hs as [vals' ->].
  rewrite !bind_pair. cbn [fst snd ret]. rewrite app_nil_r, bind_pair.
  rewrite <- IH.
  destruct (setEach c u (TStruct dd fs) x keys (DStruct vals')) as [l' [n|p]];
    cbn [fst snd]; [rewrite !bind_pair|]; cbn; rewrite ?app_nil_r, ?app_assoc;
    reflexivity.
Qed.

(** X5. On a record, [setValues(x)] is [set(kk, x[kk])] for each key of
    the batch in increasing order, started from the zero value of the
    record type and not from the snapshot the cell holds: same snapshot, same
    log, same panic. *)
Theorem setValues_record_is_sets_from_zero c u dd fs d x :
  setValues c u (Value (TStruct dd fs) false d) x
  = setAll c u (Value (TStruct dd fs) false (zero (TStruct dd fs))) x (sorted x).
Proof.
  unfold setValues. cbn [isMap vt snapshot zero].
  apply setEach_setAll.
Qed.

(** ** The key enumeration and the resolver *)

Lemma getStructKeys_cons d f fs p :
  getStructKeys (TStruct d (f :: fs)) p =
  if String.eqb (Tag f) "-" then getStructKeys (TStruct d fs) p
  else match Type_ f with
       | TStruct _ _ =>
           getStructKeys (Type_ f)
             (if String.eqb (alias f) ",embed" then "" else alias f +:+ KeySep)
           ++ getStructKeys (TStruct d fs) p
       | _ => (p +:+ alias f) :: getStructKeys (TStruct d fs) p
       end.
Proof. reflexivity. Qed.

(** X6. The keys of a record are those of its fields, in the order of
    declaration: the enumeration of a field list is the concatenation of
    the enumerations of its parts. *)
Theorem getStructKeys_app d fs1 fs2 p :
  getStructKeys (TStruct d (fs1 ++ fs2)) p =
  getStructKeys (TStruct d fs1) p ++ getStructKeys (TStruct d fs2) p.
Proof.
  induction fs1 as [|f fs1 IH]; [reflexivity|].
  rewrite <- app_comm_cons, !getStructKeys_cons, IH.
  destruct (String.eqb (Tag f) "-"); [reflexivity|].
  destruct (Type_ f); try reflexivity. apply app_assoc.
Qed.

(** X7. For a record none of whose fields is of struct kind, the keys
    are the aliases of the fields not tagged [-], in the order of
    declaration, each behind the prefix: the tag of the field, or without
    a tag its lower-cased name. *)
Theorem getStructKeys_flat d fs p :
  Forall (fun f => kind (Type_ f) <> KStruct) fs ->
  getStructKeys (TStruct d fs) p =
  (fun f => p +:+ alias f) <$> filter (fun f => Tag f <> "-") fs.
Proof.
  induction 1 as [|f fs Hf _ IH]; [reflexivity|].
  rewrite getStructKeys_cons, IH, filter_cons.
  destruct (String.eqb_spec (Tag f) "-") as [He|Hne].
  - destruct (decide (Tag f <> "-")) as [Hd|_]; [congruence|reflexivity].
  - destruct (decide (Tag f <> "-")) as [_|Hd]; [|tauto].
    destruct (Type_ f); try reflexivity. exfalso. apply Hf. reflexivity.
Qed.

Lemma getStructKeys_flat_elem d fs p k :
  Forall (fun f => kind (Type_ f) <> KStruct) fs ->
  k ∈ getStructKeys (TStruct d fs) p ->
  exists f, f ∈ fs /\ k = p +:+ alias f.
Proof.
  induction 1 as [|f fs Hf _ IH]; [intros H; inversion H|].
  rewrite getStructKeys_cons.
  destruct (String.eqb (Tag f) "-").
  - intros H. destruct (IH H) as (g & Hg & ->). exists g. split; [right|]; auto.
  - destruct (Type_ f); try (exfalso; apply Hf; reflexivity).
    all: intros H; apply elem_of_cons in H; destruct H as [->|H];
      [exists f; split; [left|reflexivity]|].
    all: destruct (IH H) as (g & Hg & ->); exists g; split; [right|]; auto.
Qed.

Lemma lower_ascii_idem a :
  Strings.lower_ascii (Strings.lower_ascii a) = Strings.lower_ascii a.
Proof. destruct a as [[] [] [] [] [] [] [] []]; reflexivity. Qed.

Lemma ToLower_idem s : Strings.ToLower (Strings.ToLower s) = Strings.ToLower s.
Proof.
  induction s as [|a s IH]; [reflexivity|].
  cbn [Strings.ToLower]. rewrite lower_ascii_idem, IH. reflexivity.
Qed.

Lemma lower_ascii_isASCII a :
  (Ascii.N_of_ascii (Strings.lower_ascii a) <? 128)%N
  = (Ascii.N_of_ascii a <? 128)%N.
Proof. destruct a as [[] [] [] [] [] [] [] []]; reflexivity. Qed.

Lemma ToLower_isASCII s : Strings.isASCII (Strings.ToLower s) = Strings.isASCII s.
Proof.
  induction s as [|a s IH]; [reflexivity|].
  cbn [Strings.ToLower Strings.isASCII]. rewrite lower_ascii_isASCII, IH.
  reflexivity.
Qed.

Lemma alias_isASCII f :
  Strings.isASCII (Name f) = true -> Strings.isASCII (Tag f) = true ->
  Strings.isASCII (alias f) = true.
Proof.
  intros Hn Ht. unfold alias.
  destruct (String.eqb (Tag f) ""); [|exact Ht].
  destruct (String.eqb (Name f) ""); [reflexivity|].
  rewrite ToLower_isASCII. exact Hn.
Qed.

(** The alias the enumeration gives a field matches the field exactly in
    the resolver. *)
Lemma exactMatch_alias f : exactMatch f (alias f) = true.
Proof.
  unfold exactMatch, tagOf, alias, Strings.EqualFold.
  destruct (String.eqb (Tag f) ""); cbn [andb].
  - destruct (String.eqb (Name f) "").
    + reflexivity.
    + rewrite ToLower_idem, String.eqb_refl. apply orb_true_r.
  - rewrite String.eqb_refl. reflexivity.
Qed.

(** X8. For a record whose field names and tags are ASCII and none of
    whose fields is of struct kind, every key the enumeration yields is a
    key the resolver finds: it matches a field exactly, so a [setStruct]
    with it that returns has touched a field. (Outside ASCII the lowered
    name of a field need not fold back to the name: [strings.ToLower] and
    [strings.EqualFold] are Unicode functions, and [Strings.ToLower] and
    [Strings.EqualFold] are these on ASCII strings only.) *)
Theorem strict_keys_of_flat_record_are_found c u dd fs k :
  Forall (fun f => kind (Type_ f) <> KStruct) fs ->
  Forall (fun f => Strings.isASCII (Name f) = true /\
                   Strings.isASCII (Tag f) = true) fs ->
  k ∈ getStructKeys (TStruct dd fs) "" ->
  Strings.isASCII k = true /\
  (exists i f, fs !! i = Some f /\ exactMatch f k = true) /\
  forall v target l nVal touched,
    setStruct c u (TStruct dd fs) k v target = (l, Ok (nVal, touched)) ->
    touched = true.
Proof.
  intros Hflat Hascii Hk.
  destruct (getStructKeys_flat_elem dd fs "" k Hflat Hk) as (f & Hin & ->).
  assert (Ha : Strings.isASCII ("" +:+ alias f) = true).
  { rewrite Forall_forall in Hascii. destruct (Hascii f Hin) as [Hn Ht].
    apply alias_isASCII; assumption. }
  apply list_elem_of_lookup in Hin. destruct Hin as [i Hi].
  assert (Hex : exactMatch f ("" +:+ alias f) = true) by apply exactMatch_alias.
  split; [exact Ha|]. split; [eauto|].
  intros v target l nVal touched H.
  destruct (setStruct_exact_inv c u dd fs _ v target l nVal touched i f H Hi Hex)
    as [Ht _]. exact Ht.
Qed.

(** X9. A field tagged [-] is left out of the keys, but the resolver has
    no case for that tag: [set] with the key [-], or with the name of the
    field in any letter case, assigns the field. *)
Theorem dash_field_is_skipped_by_keys_not_by_set c u dd fs1 f fs2 :
  Tag f = "-" ->
  (forall p, getStructKeys (TStruct dd (fs1 ++ f :: fs2)) p
             = getStructKeys (TStruct dd (fs1 ++ fs2)) p) /\
  forall k v target l nVal touched,
    k = "-" \/ Strings.EqualFold (Name f) k = true ->
    setStruct c u (TStruct dd (fs1 ++ f :: fs2)) k v target
    = (l, Ok (nVal, touched)) ->
    touched = true /\
    exists x,
      result (assignField c u f
                (default (zero (Type_ f)) (struct_vals target !! length fs1)) v)
      = Ok x /\
      struct_vals nVal !! length fs1 = Some x.
Proof.
  intros Htag. split.
  - intros p. induction fs1 as [|g fs1 IH].
    + cbn [app]. rewrite getStructKeys_cons, Htag. reflexivity.
    + rewrite <- !app_comm_cons, !getStructKeys_cons, IH. reflexivity.
  - intros k v target l nVal touched Hk H.
    apply (setStruct_exact_inv c u dd (fs1 ++ f :: fs2) k v target l nVal touched
             (length fs1) f H).
    + apply list_lookup_middle. reflexivity.
    + unfold exactMatch, tagOf. rewrite Htag. cbn [String.eqb andb].
      destruct Hk as [-> | ->]; [reflexivity|apply orb_true_r].
Qed.

(** ** What a single-key update leaves alone *)

(** X10. When [set(k, v)] on a record returns, every field of plain type
    (a scalar, or a struct of fields of plain type) that the key matches
    neither exactly nor by prefix holds what it held. The statement stops
    at the plain types: a map, slice or pointer field of the new snapshot
    shares what it refers to with the old one, and a write through a field
    the key does match shows in an unmatched field that refers to the same
    map. *)
Theorem set_leaves_unmatched_fields c u dd fs vals k v l val' :
  set c u (Value (TStruct dd fs) false (DStruct vals)) k v = (l, Ok val') ->
  forall i f d,
    fs !! i = Some f -> vals !! i = Some d ->
    plain (Type_ f) = true ->
    exactMatch f k = false -> prefixMatch f k = false ->
    struct_vals (snapshot val') !! i = Some d.
Proof.
  intros H i f d Hf Hd _ He Hp. rewrite set_record, setStruct_struct in H.
  apply bind_Ok_inv in H. destruct H as (l0 & [nVal b] & l1 & H & Hr & ->).
  apply ret_Ok_inv in Hr. destruct Hr as [-> <-]. cbn [snapshot].
  apply bind_Ok_inv in H. destruct H as (l2 & [vals' s] & l3 & Hloop & H & ->).
  assert (HnVal : nVal = DStruct vals').
  { destruct s; cbn in H; injection H as _ <- _; reflexivity. }
  subst nVal. cbn [struct_vals] in *.
  apply fieldsLoop_Ok_inv in Hloop. destruct Hloop as (_ & _ & Hfields).
  destruct (Hfields i f Hf) as (si & li & d' & si' & Hstep & Hv & _).
  rewrite Hd in Hstep. cbn [default] in Hstep.
  rewrite fieldStep_unmatched in Hstep by assumption.
  injection Hstep as _ <- _. exact Hv.
Qed.

Lemma fieldStep_unexported c u rec k v f d s l d' s' :
  exported f = false ->
  (kind (Type_ f) = KMap -> exists m, d = DMap m) ->
  fieldStep c u rec k v f d s = (l, Ok (d', s')) -> d' = d.
Proof.
  intros Hexp Hmap. unfold fieldStep.
  destruct (exactMatch f k).
  { unfold assignField. rewrite Hexp, bind_ret. intros [= _ <- _]. reflexivity. }
  destruct (prefixMatch f k); [|intros [= _ <- _]; reflexivity].
  destruct (Type_ f) as [dd bb|e|dd fs|dd kt et|dd e|] eqn:Hty;
    try (intros [= _ <- _]; reflexivity).
  - destruct e; try (intros [= _ <- _]; reflexivity).
    rewrite Hexp. intros [= _ <- _]. reflexivity.
  - rewrite Hexp. intros [= _ <- _]. reflexivity.
  - destruct Hmap as [m ->]; [reflexivity|].
    unfold setStructMap, setStringMap, makeMapIfNil, SetMapIndex.
    rewrite Hexp. cbn [negb IsNil].
    intros H. destruct m as [m|]; cbn [IsNil map_of] in H.
    + inv_M H; try discriminate; try congruence; reflexivity.
    + inv_M H; try discriminate; try congruence; reflexivity.
Qed.

(** X11. [set] never writes an unexported field: when [set(k, v)] on a
    record returns, every unexported field holds what it held, whatever
    the key matches (it is asked of a map field that it holds a map). *)
Theorem set_never_writes_unexported_field c u dd fs vals k v l val' :
  set c u (Value (TStruct dd fs) false (DStruct vals)) k v = (l, Ok val') ->
  forall i f d,
    fs !! i = Some f -> vals !! i = Some d ->
    exported f = false ->
    (kind (Type_ f) = KMap -> exists m, d = DMap m) ->
    struct_vals (snapshot val') !! i = Some d.
Proof.
  intros H i f d Hf Hd Hexp Hmap. rewrite set_record, setStruct_struct in H.
  apply bind_Ok_inv in H. destruct H as (l0 & [nVal b] & l1 & H & Hr & ->).
  apply ret_Ok_inv in Hr. destruct Hr as [-> <-]. cbn [snapshot].
  apply bind_Ok_inv in H. destruct H as (l2 & [vals' s] & l3 & Hloop & H & ->).
  assert (HnVal : nVal = DStruct vals').
  { destruct s; cbn in H; injection H as _ <- _; reflexivity. }
  subst nVal. cbn [struct_vals] in *.
  apply fieldsLoop_Ok_inv in Hloop. destruct Hloop as (_ & _ & Hfields).
  destruct (Hfields i f Hf) as (si & li & d' & si' & Hstep & Hv & _).
  rewrite Hd in Hstep. cbn [default] in Hstep.
  apply fieldStep_unexported in Hstep; [|assumption..].
  subst d'. exact Hv.
Qed.

(** ** Assignments outside the conversion table *)

(** X12. A field whose type has no text codec and no case in the switch
    of [castValue] (a defined integer or string type, a slice of floats)
    is assigned the input as it is: a nil input zeroes the field, an input
    of an assignable type is stored unconverted, and any other input makes
    the assignment, and with it [set], panic. *)
Theorem assign_outside_table_is_unconverted c u f :
  exported f = true -> codecName (Type_ f) = None ->
  recognized (Type_ f) = false -> kind (Type_ f) <> KInterface ->
  (forall d v,
     assignField c u f d v =
     match v with
     | None => ret (zero (Type_ f))
     | Some y =>
         if AssignableTo y.1 (Type_ f) then ret y.2
         else raise (ReflectPanic "Set: value is not assignable")
     end) /\
  (forall dd fs vals i k y,
     fs !! i = Some f -> exactMatch f k = true ->
     AssignableTo y.1 (Type_ f) = false ->
     exists l p,
       set c u (Value (TStruct dd fs) false (DStruct vals)) k (Some y)
       = (l, Panic p)).
Proof.
  intros Hexp Hn Hrec Hk.
  assert (Hassign : forall d v,
     assignField c u f d v =
     match v with
     | None => ret (zero (Type_ f))
     | Some y =>
         if AssignableTo y.1 (Type_ f) then ret y.2
         else raise (ReflectPanic "Set: value is not assignable")
     end).
  { intros d v. unfold assignField. rewrite Hexp.
    rewrite unmarshal_declines by assumption. rewrite bind_ret.
    replace (Interface (Type_ f) d) with (Some (Type_ f, d))
      by (destruct (Type_ f); try reflexivity; exfalso; apply Hk; reflexivity).
    rewrite castValue_unrecognized by assumption.
    destruct v as [y|]; [|reflexivity]. unfold assignTo.
    destruct (AssignableTo y.1 (Type_ f)); [|reflexivity].
    destruct (Type_ f); try reflexivity. exfalso. apply Hk. reflexivity. }
  split; [exact Hassign|].
  intros dd fs vals i k y Hf Hexact Hna.
  destruct (fieldsLoop_panics (fieldStep c u (setStruct c u) k (Some y)) fs i f Hf)
    with (vals := vals) (s := false) as (l & p & Hl).
  { intros d s. exists [], (ReflectPanic "Set: value is not assignable").
    rewrite fieldStep_exact by assumption.
    rewrite Hassign, Hna. reflexivity. }
  exists l, p. rewrite set_record, setStruct_struct. simpl struct_vals.
  rewrite Hl. reflexivity.
Qed.

(** ** Pointer fields *)

(** X13. For a pointer field whose pointee type has a text codec,
    [unmarshalText] gives a nil pointer a fresh zero pointee before the
    codec runs: the assignment on the nil field is the assignment on a
    pointer to the zero value, and when it returns the field is not nil. *)
Theorem nil_pointer_codec_field_is_allocated c u f e v :
  exported f = true -> Type_ f = TPtr e -> is_Some (method e) ->
  assignField c u f (DPtr None) v
  = assignField c u f (DPtr (Some (zero e))) v /\
  forall l d', assignField c u f (DPtr None) v = (l, Ok d') ->
               exists p, d' = DPtr (Some p).
Proof.
  intros Hexp Hty [[n r] Hm]. unfold assignField.
  rewrite Hexp, Hty, !unmarshal_codecResult. unfold codecResult. rewrite Hm.
  destruct r; (split; [reflexivity|]).
  all: intros l d'; destruct (u n (zero e) (ToString c v)); cbn;
    intros H; try discriminate H; injection H as _ <-; eauto.
Qed.

(** X14. A field that is a pointer to a predeclared scalar type never
    ends up nil: whatever the input, a nil one or one the conversion fails
    on included, the exact-match branch stores a pointer to the converted
    value. *)
Theorem pointer_scalar_field_is_never_nil c u f b d v :
  exported f = true -> Type_ f = TPtr (TBasic None b) ->
  exists x, castScalar c (TBasic None b) v = Some x /\
            assignField c u f d v = ([], Ok (DPtr (Some x))).
Proof.
  intros Hexp Hty. unfold assignField.
  rewrite Hexp, Hty, unmarshal_declines by reflexivity.
  rewrite bind_ret. cbn [Interface castValue].
  destruct (castScalar c (TBasic None b) v) as [x|] eqn:Hx;
    [|destruct b; discriminate Hx].
  exists x. split; [reflexivity|].
  unfold assignTo. cbn [fst snd]. rewrite AssignableTo_refl. reflexivity.
Qed.

(** ** Map fields *)

Lemma makeMapIfNil_Ok f d l m : makeMapIfNil f d = (l, Ok m) -> m = map_of d.
Proof.
  unfold makeMapIfNil. destruct d as [| | | |[?|]| |[?|]| |]; cbn;
    destruct (exported f); cbn; intros H; try discriminate H;
    injection H as _ <-; reflexivity.
Qed.

Lemma fieldStep_map_frame c u rec k v f d s l d' s' dm kt et :
  Type_ f = TMap dm kt et -> exactMatch f k = false ->
  fieldStep c u rec k v f d s = (l, Ok (d', s')) ->
  forall key,
    key <> remainder f k ->
    (forall rest, Strings.SplitN2 KeySepByte (remainder f k) <> Some (key, rest)) ->
    map_of d' !! key = map_of d !! key.
Proof.
  intros Hty He H key Hk Hsplit. unfold fieldStep in H. rewrite He, Hty in H.
  destruct (prefixMatch f k); [|injection H as _ <- _; reflexivity].
  destruct (kind kt) as [[]| | | | |]; try (injection H as _ <- _; reflexivity).
  assert (Hstr : forall et0,
    (d0 ← setStringMap f kt et0 d (remainder f k) v; ret (d0, true))
    = (l, Ok (d', s')) -> map_of d' !! key = map_of d !! key).
  { clear H. intros et0 H. unfold setStringMap, SetMapIndex, assignTo in H.
    apply bind_Ok_inv in H. destruct H as (l1 & d1 & l2 & H & Hr & _).
    apply ret_Ok_inv in Hr. destruct Hr as [_ [= <- _]].
    apply bind_Ok_inv in H. destruct H as (l3 & m & l4 & Hm & H & _).
    apply makeMapIfNil_Ok in Hm. subst m.
    apply bind_Ok_inv in H. destruct H as (l5 & m' & l6 & H & Hr & _).
    apply ret_Ok_inv in Hr. destruct Hr as [_ <-]. cbn [map_of].
    destruct (negb (exported f)); [discriminate|].
    destruct (negb (AssignableTo (TBasic None String_) kt)); [discriminate|].
    destruct v as [y|].
    - destruct (AssignableTo y.1 et0); [|discriminate].
      rewrite bind_ret in H. injection H as _ <-.
      apply lookup_insert_ne. congruence.
    - injection H as _ <-. apply lookup_delete_ne. congruence. }
  assert (Hrec : forall st ptr,
    setStructMap rec f kt st ptr d s (remainder f k) v = (l, Ok (d', s')) ->
    map_of d' !! key = map_of d !! key).
  { clear H. intros st ptr H. unfold setStructMap in H.
    destruct (Strings.SplitN2 KeySepByte (remainder f k)) as [[mapKey rest]|]
      eqn:Hsp; [|injection H as _ <- _; reflexivity].
    apply bind_Ok_inv in H. destruct H as (l1 & m & l2 & Hm & H & _).
    apply makeMapIfNil_Ok in Hm. subst m.
    destruct (negb (AssignableTo (TBasic None String_) kt)); [discriminate|].
    apply bind_Ok_inv in H. destruct H as (l3 & n0 & l4 & _ & H & _).
    apply bind_Ok_inv in H. destruct H as (l5 & [nVal ok] & l6 & _ & H & _).
    destruct ok.
    - apply bind_Ok_inv in H. destruct H as (l7 & m' & l8 & H & Hr & _).
      apply ret_Ok_inv in Hr. destruct Hr as [_ [= <- _]]. cbn [map_of].
      destruct (exported f); [|discriminate]. injection H as _ <-.
      apply lookup_insert_ne. intros <-. apply (Hsplit rest). reflexivity.
    - injection H as _ <- _. reflexivity. }
  destruct et as [? b|e|? ?|? ? ?|? ?|];
    try (injection H as _ <- _; reflexivity).
  - destruct b; try (injection H as _ <- _; reflexivity). eapply Hstr, H.
  - destruct e as [? b|?|? ?|? ? ?|? ?|];
      try (injection H as _ <- _; reflexivity).
    + destruct b; try (injection H as _ <- _; reflexivity). eapply Hstr, H.
    + eapply Hrec, H.
  - eapply Hrec, H.
Qed.

(** X15. A [set] that goes into a map field by prefix changes one entry
    at most: that of the remainder key in a map of strings, that of the
    first segment of the remainder key in a map of records. When the map
    field is the one field of the record the key matches, and the records
    of a map of records are of plain type, then, when [set] on the record
    returns, every other entry of the map is as it was. (A second field
    the key matches may refer to the same map and write another entry of
    it, and a record that holds a map or a pointer may share it with
    another entry: the statement leaves both out.) *)
Theorem set_keeps_other_map_entries c u dd fs vals k v l val' :
  set c u (Value (TStruct dd fs) false (DStruct vals)) k v = (l, Ok val') ->
  forall i f d dm kt et,
    fs !! i = Some f -> vals !! i = Some d ->
    Type_ f = TMap dm kt et -> exactMatch f k = false ->
    prefixMatch f k = true ->
    (forall j g, j <> i -> fs !! j = Some g ->
                 exactMatch g k = false /\ prefixMatch g k = false) ->
    (forall sd sfs, et = TStruct sd sfs \/ et = TPtr (TStruct sd sfs) ->
                    plain (TStruct sd sfs) = true) ->
    forall key,
      key <> remainder f k ->
      (forall rest,
         Strings.SplitN2 KeySepByte (remainder f k) <> Some (key, rest)) ->
      exists d', struct_vals (snapshot val') !! i = Some d' /\
                 map_of d' !! key = map_of d !! key.
Proof.
  intros H i f d dm kt et Hf Hd Hty He _ _ _ key Hk Hsplit.
  rewrite set_record, setStruct_struct in H.
  apply bind_Ok_inv in H. destruct H as (l0 & [nVal b] & l1 & H & Hr & ->).
  apply ret_Ok_inv in Hr. destruct Hr as [-> <-]. cbn [snapshot].
  apply bind_Ok_inv in H. destruct H as (l2 & [vals' s] & l3 & Hloop & H & ->).
  assert (HnVal : nVal = DStruct vals').
  { destruct s; cbn in H; injection H as _ <- _; reflexivity. }
  subst nVal. cbn [struct_vals] in *.
  apply fieldsLoop_Ok_inv in Hloop. destruct Hloop as (_ & _ & Hfields).
  destruct (Hfields i f Hf) as (si & li & d' & si' & Hstep & Hv & _).
  rewrite Hd in Hstep. cbn [default] in Hstep.
  exists d'. split; [exact Hv|].
  eapply fieldStep_map_frame; eassumption.
Qed.

(** ** Whether a key is found *)

Section Static.

Context (c : Cast) (u : string -> data -> string -> decoded).

Lemma setStructMap_flag f kt st ptr nK v v' d d' s l l' r r' b b' :
  static_at c u st ->
  setStructMap (setStruct c u) f kt st ptr d s nK v = (l, Ok (r, b)) ->
  setStructMap (setStruct c u) f kt st ptr d' s nK v' = (l', Ok (r', b')) ->
  b = b'.
Proof.
  intros IH. unfold setStructMap.
  destruct (Strings.SplitN2 KeySepByte nK) as [[mapKey rest]|];
    [|intros [= _ _ <-] [= _ _ <-]; reflexivity].
  intros H H'.
  apply bind_Ok_inv in H. destruct H as (l1 & m & l2 & _ & H & _).
  apply bind_Ok_inv in H'. destruct H' as (l1' & m' & l2' & _ & H' & _).
  destruct (negb (AssignableTo (TBasic None String_) kt)); [discriminate|].
  apply bind_Ok_inv in H. destruct H as (l3 & n0 & l4 & _ & H & _).
  apply bind_Ok_inv in H'. destruct H' as (l3' & n0' & l4' & _ & H' & _).
  apply bind_Ok_inv in H. destruct H as (l5 & [nVal ok] & l6 & Hrec & H & _).
  apply bind_Ok_inv in H'.
  destruct H' as (l5' & [nVal' ok'] & l6' & Hrec' & H' & _).
  assert (ok = ok') by (eapply IH; eassumption). subst ok'.
  destruct ok.
  - apply bind_Ok_inv in H. destruct H as (? & ? & ? & _ & H & _).
    apply bind_Ok_inv in H'. destruct H' as (? & ? & ? & _ & H' & _).
    injection H as _ _ <-. injection H' as _ _ <-. reflexivity.
  - injection H as _ _ <-. injection H' as _ _ <-. reflexivity.
Qed.

Lemma fieldStep_flag f k v v' d d' s l l' r r' b b' :
  (forall t, tsize t <= tsize (Type_ f) -> static_at c u t) ->
  fieldStep c u (setStruct c u) k v f d s = (l, Ok (r, b)) ->
  fieldStep c u (setStruct c u) k v' f d' s = (l', Ok (r', b')) ->
  b = b'.
Proof.
  unfold fieldStep.
  destruct (exactMatch f k).
  { intros _ H H'.
    apply bind_Ok_inv in H. destruct H as (? & ? & ? & _ & H & _).
    apply bind_Ok_inv in H'. destruct H' as (? & ? & ? & _ & H' & _).
    injection H as _ _ <-. injection H' as _ _ <-. reflexivity. }
  destruct (prefixMatch f k); [|intros _ [= _ _ <-] [= _ _ <-]; reflexivity].
  assert (Hrec : forall st nK n0 n0' (w w' : data -> data) ,
    static_at c u st ->
    ('(nVal, ok) ← setStruct c u st nK v n0;
     if ok : bool then ret (w nVal, true) else ret (d, s)) = (l, Ok (r, b)) ->
    ('(nVal, ok) ← setStruct c u st nK v' n0';
     if ok : bool then ret (w' nVal, true) else ret (d', s)) = (l', Ok (r', b')) ->
    b = b').
  { intros st nK n0 n0' w w' IH H H'.
    apply bind_Ok_inv in H. destruct H as (l5 & [nVal ok] & l6 & Hrec & H & _).
    apply bind_Ok_inv in H'.
    destruct H' as (l5' & [nVal' ok'] & l6' & Hrec' & H' & _).
    assert (ok = ok') by (eapply IH; eassumption). subst ok'.
    destruct ok; injection H as _ _ <-; injection H' as _ _ <-; reflexivity. }
  assert (Hstr : forall et0 nK,
    (d0 ← setStringMap f et0.1 et0.2 d nK v; ret (d0, true)) = (l, Ok (r, b)) ->
    (d0 ← setStringMap f et0.1 et0.2 d' nK v'; ret (d0, true))
    = (l', Ok (r', b')) ->
    b = b').
  { intros et0 nK H H'.
    apply bind_Ok_inv in H. destruct H as (? & ? & ? & _ & H & _).
    apply bind_Ok_inv in H'. destruct H' as (? & ? & ? & _ & H' & _).
    injection H as _ _ <-. injection H' as _ _ <-. reflexivity. }
  destruct (Type_ f) as [dd bb|e|dd fs|dd kt et|dd e|] eqn:Hty; intros IH;
    try (intros [= _ _ <-] [= _ _ <-]; reflexivity).
  - destruct e as [? ?|?|dd fs|? ? ?|? ?|];
      try (intros [= _ _ <-] [= _ _ <-]; reflexivity).
    destruct (exported f); [|intros [= _ _ <-] [= _ _ <-]; reflexivity].
    apply (Hrec _ _ _ _ (fun n => DPtr (Some n)) (fun n => DPtr (Some n))).
    apply IH. simpl. lia.
  - destruct (exported f); [|intros [= _ _ <-] [= _ _ <-]; reflexivity].
    apply (Hrec _ _ _ _ (fun n => n) (fun n => n)).
    apply IH. apply le_n.
  - destruct (kind kt) as [[]| | | | |];
      try (intros [= _ _ <-] [= _ _ <-]; reflexivity).
    destruct et as [? b0|e|dd' fs|? ? ?|? ?|];
      try (intros [= _ _ <-] [= _ _ <-]; reflexivity).
    + destruct b0; try (intros [= _ _ <-] [= _ _ <-]; reflexivity).
      apply (Hstr (kt, _)).
    + destruct e as [? b0|?|dd' fs|? ? ?|? ?|];
        try (intros [= _ _ <-] [= _ _ <-]; reflexivity).
      * destruct b0; try (intros [= _ _ <-] [= _ _ <-]; reflexivity).
        apply (Hstr (kt, _)).
      * apply setStructMap_flag, IH. simpl. lia.
    + apply setStructMap_flag, IH. simpl. lia.
Qed.

Lemma fieldsLoop_flag fs k v v' : forall vals vals' s l l' r r' b b',
  (forall f, In f fs -> forall t, tsize t <= tsize (Type_ f) -> static_at c u t) ->
  fieldsLoop (fieldStep c u (setStruct c u) k v) fs vals s = (l, Ok (r, b)) ->
  fieldsLoop (fieldStep c u (setStruct c u) k v') fs vals' s = (l', Ok (r', b')) ->
  b = b'.
Proof.
  induction fs as [|f fs IHfs]; intros vals vals' s l l' r r' b b' IH.
  - intros [= _ _ <-] [= _ _ <-]. reflexivity.
  - rewrite !fieldsLoop_cons. intros H H'.
    apply bind_Ok_inv in H. destruct H as (l1 & [d1 s1] & l2 & Hstep & H & _).
    apply bind_Ok_inv in H'.
    destruct H' as (l1' & [d1' s1'] & l2' & Hstep' & H' & _).
    assert (s1 = s1').
    { eapply fieldStep_flag; [|eassumption..]. apply IH. left. reflexivity. }
    subst s1'.
    apply bind_Ok_inv in H. destruct H as (l3 & [vs s2] & l4 & Hrest & H & _).
    apply bind_Ok_inv in H'.
    destruct H' as (l3' & [vs' s2'] & l4' & Hrest' & H' & _).
    injection H as _ _ <-. injection H' as _ _ <-.
    eapply IHfs; [|eassumption..].
    intros g Hg. apply IH. right. exact Hg.
Qed.

(** X16. Whether a key is found in a record depends on the record type
    and the key alone: two calls of [setStruct] that return, on any two
    values of the type and with any two inputs, return the same flag. *)
Theorem found_depends_on_type_and_key t k v v' d d' l l' r r' b b' :
  setStruct c u t k v d = (l, Ok (r, b)) ->
  setStruct c u t k v' d' = (l', Ok (r', b')) ->
  b = b'.
Proof.
  revert k v v' d d' l l' r r' b b'. change (static_at c u t).
  remember (tsize t) as n eqn:Hn. revert t Hn.
  induction n as [n IH] using lt_wf_ind.
  intros t -> k v v' d d' l l' r r' b b'.
  destruct t as [dd bb|e|dd fs|dd kt et|dd e|]; try discriminate.
  rewrite !setStruct_struct. intros H H'.
  apply bind_Ok_inv in H. destruct H as (l1 & [vals s] & l2 & Hloop & H & _).
  apply bind_Ok_inv in H'.
  destruct H' as (l1' & [vals' s'] & l2' & Hloop' & H' & _).
  assert (s = s').
  { eapply fieldsLoop_flag; [|eassumption..].
    intros f Hf t Ht. apply (IH (tsize t)); [|reflexivity].
    pose proof (tsize_field dd fs f Hf). lia. }
  subst s'.
  destruct s; cbn in H, H'; injection H as _ _ <-; injection H' as _ _ <-;
    reflexivity.
Qed.

End Static.

(** ** Text codecs and the value a field held *)

(** X17. A text codec declared on the value receiver of a defined scalar
    type works on a copy of the field: when it accepts the text the field
    keeps what it held, when it rejects it the assignment panics; the
    conversion table is not consulted. *)
Theorem value_receiver_codec_leaves_field c u f dcl b d v :
  exported f = true -> Type_ f = TBasic (Some dcl) b ->
  unmarshaler dcl = Some ValueRecv ->
  assignField c u f d v =
  match u (tname dcl) d (ToString c v) with
  | Decoded _ => ret d
  | Rejected err => raise (DecodeError err)
  end.
Proof.
  intros Hexp Hty Hm. unfold assignField.
  rewrite Hexp, Hty, unmarshal_codecResult. unfold codecResult, method.
  rewrite Hm. destruct (u (tname dcl) d (ToString c v)); reflexivity.
Qed.

(** X18. Without a text codec, what the exact-match branch assigns to a
    field that is not of interface type does not depend on what the field
    held: the switch of [castValue] is on the type of the field alone. *)
Theorem assignment_ignores_old_value c u f d d' v :
  exported f = true -> codecName (Type_ f) = None ->
  kind (Type_ f) <> KInterface ->
  assignField c u f d v = assignField c u f d' v.
Proof.
  intros Hexp Hn Hk. unfold assignField.
  rewrite Hexp, !unmarshal_declines by assumption. rewrite !bind_ret.
  replace (Interface (Type_ f) d) with (Some (Type_ f, d))
    by (destruct (Type_ f); try reflexivity; exfalso; apply Hk; reflexivity).
  replace (Interface (Type_ f) d') with (Some (Type_ f, d'))
    by (destruct (Type_ f); try reflexivity; exfalso; apply Hk; reflexivity).
  reflexivity.
Qed.

(** ** Dotted keys *)

(** X19. A dotted key descends: when the key [k] matches by prefix one
    field of the record, exported and of struct type, and no other,
    [setStruct] with [k] is [setStruct] on the nested record with the
    remainder key; the nested record is stored back when a field of it was
    touched, and otherwise the record is left as it was and [k] is logged
    as not found after the message of the nested call. *)
Theorem set_descends_into_nested_record c u dd fs vals i f k v sd sfs svals :
  fs !! i = Some f -> vals !! i = Some (DStruct svals) ->
  length vals = length fs ->
  Type_ f = TStruct sd sfs -> exported f = true ->
  exactMatch f k = false -> prefixMatch f k = true ->
  (forall j g, j <> i -> fs !! j = Some g ->
               exactMatch g k = false /\ prefixMatch g k = false) ->
  setStruct c u (TStruct dd fs) k v (DStruct vals) =
  ('(nVal, ok) ← setStruct c u (TStruct sd sfs) (remainder f k) v (DStruct svals);
   if ok : bool then ret (DStruct (<[i := nVal]> vals), true)
   else Debug (notFound k);; ret (DStruct vals, false)).
Proof.
  intros Hf Hd Hlen Hty Hexp He Hp Hothers.
  rewrite (setStruct_single c u dd fs vals i f (DStruct svals)) by assumption.
  unfold fieldStep. rewrite He, Hp, Hty, Hexp. cbn [copier_Copy zero].
  destruct (setStruct c u (TStruct sd sfs) (remainder f k) v (DStruct svals))
    as [l [[nVal ok]|p]]; [|reflexivity].
  rewrite !bind_pair. destruct ok; cbn; rewrite ?app_nil_r; [reflexivity|].
  rewrite list_insert_id by assumption. reflexivity.
Qed.

(** X20. The same through a pointer: the nested call works on a copy of
    the pointee, or on a zero value when the pointer is nil; a pointer to
    the result is stored when a field was touched, and a nil pointer stays
    nil when none was. *)
Theorem set_descends_through_pointer c u dd fs vals i f k v sd sfs p :
  fs !! i = Some f -> vals !! i = Some (DPtr p) ->
  length vals = length fs ->
  Type_ f = TPtr (TStruct sd sfs) -> exported f = true ->
  exactMatch f k = false -> prefixMatch f k = true ->
  (forall j g, j <> i -> fs !! j = Some g ->
               exactMatch g k = false /\ prefixMatch g k = false) ->
  setStruct c u (TStruct dd fs) k v (DStruct vals) =
  ('(nVal, ok) ← setStruct c u (TStruct sd sfs) (remainder f k) v
                   (default (zero (TStruct sd sfs)) p);
   if ok : bool then ret (DStruct (<[i := DPtr (Some nVal)]> vals), true)
   else Debug (notFound k);; ret (DStruct vals, false)).
Proof.
  intros Hf Hd Hlen Hty Hexp He Hp Hothers.
  rewrite (setStruct_single c u dd fs vals i f (DPtr p)) by assumption.
  unfold fieldStep. rewrite He, Hp, Hty, Hexp.
  replace (if IsNil (DPtr p) then zero (TStruct sd sfs)
           else copier_Copy (zero (TStruct sd sfs)) (DPtr p))
    with (default (zero (TStruct sd sfs)) p) by (destruct p; reflexivity).
  destruct (setStruct c u (TStruct sd sfs) (remainder f k) v _)
    as [l [[nVal ok]|q]]; [|reflexivity].
  rewrite !bind_pair. destruct ok; cbn; rewrite ?app_nil_r; [reflexivity|].
  rewrite list_insert_id by assumption. reflexivity.
Qed.

(** X21. The prefix [getStructKeys] is given reaches the fields of the
    record itself and no further: for a record whose fields are all of
    struct kind or tagged [-], the keys are the same for every prefix. *)
Theorem nested_keys_ignore_the_prefix d fs p p' :
  Forall (fun f => Tag f = "-" \/ kind (Type_ f) = KStruct) fs ->
  getStructKeys (TStruct d fs) p = getStructKeys (TStruct d fs) p'.
Proof.
  induction 1 as [|f fs Hf _ IH]; [reflexivity|].
  rewrite !getStructKeys_cons, IH.
  destruct (String.eqb_spec (Tag f) "-") as [He|Hne]; [reflexivity|].
  destruct Hf as [Hf|Hf]; [congruence|].
  destruct (Type_ f); try discriminate Hf. reflexivity.
Qed.

(** ** Maps of records, nil inputs, interface fields *)

(** X22. A dotted key descends into a map of records: when the key
    matches by prefix one exported field only, a string-keyed map of
    structs or of pointers to structs, and the remainder key is
    [mapKey.rest], [setStruct] is [setStruct] with [rest] on a copy of the
    entry of [mapKey], or on a zero value when the map has none. When a
    field of it was touched the result is stored at [mapKey]; when none
    was, the map is kept, a nil one replaced by an empty one, and the key
    is logged as not found. *)
Theorem set_descends_into_map_of_records
    c u dd fs vals i f k v dm sd sfs (ptr : bool) m mapKey rest :
  fs !! i = Some f -> vals !! i = Some (DMap m) ->
  length vals = length fs ->
  Type_ f = TMap dm (TBasic None String_)
              (if ptr then TPtr (TStruct sd sfs) else TStruct sd sfs) ->
  exported f = true ->
  exactMatch f k = false -> prefixMatch f k = true ->
  Strings.SplitN2 KeySepByte (remainder f k) = Some (mapKey, rest) ->
  (forall j g, j <> i -> fs !! j = Some g ->
               exactMatch g k = false /\ prefixMatch g k = false) ->
  setStruct c u (TStruct dd fs) k v (DStruct vals) =
  ('(nVal, ok) ← setStruct c u (TStruct sd sfs) rest v
                   match default ∅ m !! mapKey with
                   | Some ov => copier_Copy (zero (TStruct sd sfs)) ov
                   | None => zero (TStruct sd sfs)
                   end;
   if ok : bool then
     ret (DStruct (<[i := DMap (Some (<[mapKey :=
                      if ptr then DPtr (Some nVal) else nVal]> (default ∅ m)))]>
                     vals), true)
   else Debug (notFound k);;
        ret (DStruct (<[i := DMap (Some (default ∅ m))]> vals), false)).
Proof.
  intros Hf Hd Hlen Hty Hexp He Hp Hsplit Hothers.
  rewrite (setStruct_single c u dd fs vals i f (DMap m)) by assumption.
  unfold fieldStep. rewrite He, Hp, Hty. cbn [kind].
  assert (Hmap :
    setStructMap (setStruct c u) f (TBasic None String_) (TStruct sd sfs) ptr
                 (DMap m) false (remainder f k) v
    = ('(nVal, ok) ← setStruct c u (TStruct sd sfs) rest v
                       match default ∅ m !! mapKey with
                       | Some ov => copier_Copy (zero (TStruct sd sfs)) ov
                       | None => zero (TStruct sd sfs)
                       end;
       if ok : bool then
         ret (DMap (Some (<[mapKey := if ptr then DPtr (Some nVal) else nVal]>
                            (default ∅ m))), true)
       else ret (DMap (Some (default ∅ m)), false))).
  { unfold setStructMap, makeMapIfNil. rewrite Hsplit, Hexp.
    replace (AssignableTo (TBasic None String_) (TBasic None String_))
      with true by reflexivity. cbn [negb].
    destruct m as [m|]; cbn [IsNil map_of default from_option id];
      rewrite bind_ret.
    - destruct (m !! mapKey); rewrite bind_ret;
        destruct (setStruct c u _ rest v _) as [l [[nVal ok]|p]];
        try reflexivity; rewrite !bind_pair; destruct ok; reflexivity.
    - rewrite lookup_empty, bind_ret.
      destruct (setStruct c u _ rest v _) as [l [[nVal ok]|p]];
        try reflexivity; rewrite !bind_pair; destruct ok; reflexivity. }
  destruct ptr; rewrite Hmap;
    destruct (setStruct c u _ rest v _) as [l [[nVal ok]|p]];
    try reflexivity; rewrite !bind_pair; destruct ok; cbn;
    rewrite ?app_nil_r; reflexivity.
Qed.

(** X23. A nil input deletes: on an exported field that is a string-keyed
    map of strings or of pointers to strings, matched by prefix, [set]
    with a nil input removes the entry of the remainder key (the zero
    [reflect.Value] makes [SetMapIndex] delete), in the map the field
    holds or in a new one if it holds none, and the key counts as found. *)
Theorem set_nil_deletes_string_map_entry c u rec k f d s dd et ed :
  Type_ f = TMap dd (TBasic None String_) et ->
  et = TBasic ed String_ \/ et = TPtr (TBasic ed String_) ->
  exported f = true ->
  exactMatch f k = false -> prefixMatch f k = true ->
  fieldStep c u rec k None f d s
  = ([], Ok (DMap (Some (delete (remainder f k) (map_of d))), true)).
Proof.
  intros Hty Het Hexp He Hp. unfold fieldStep. rewrite He, Hp, Hty. cbn [kind].
  assert (Hmap : setStringMap f (TBasic None String_) et d (remainder f k) None
                 = ([], Ok (DMap (Some (delete (remainder f k) (map_of d)))))).
  { unfold setStringMap, makeMapIfNil, SetMapIndex. rewrite Hexp. cbn [negb].
    replace (AssignableTo (TBasic None String_) (TBasic None String_))
      with true by reflexivity. cbn [negb].
    destruct d as [| | | | [?|] | | [?|] | |]; reflexivity. }
  destruct Het as [-> | ->]; rewrite Hmap; reflexivity.
Qed.

(** X24. A field of interface type is converted to the dynamic type of
    what it holds: while it holds nil the input is stored as it is; once
    it holds a value of a type in the table of [castValue], every later
    input is converted to that type. *)
Theorem interface_field_keeps_its_dynamic_type c u f :
  exported f = true -> Type_ f = TInterface ->
  (forall v, assignField c u f (DIface None) v = ret (DIface v)) /\
  (forall t0 d0 v,
     recognized t0 = true ->
     exists x, castValue c (Some (t0, d0)) v = Some (t0, x) /\
               assignField c u f (DIface (Some (t0, d0))) v
               = ret (DIface (Some (t0, x)))).
Proof.
  intros Hexp Hty.
  assert (Hset : forall y, assignTo "Set: value is not assignable" TInterface y
                           = ret (DIface (Some y))).
  { intros y. unfold assignTo, AssignableTo. rewrite orb_true_r. reflexivity. }
  split.
  - intros v. unfold assignField.
    rewrite Hexp, Hty, unmarshal_declines by reflexivity.
    rewrite bind_ret. cbn [Interface castValue zero].
    destruct v as [y|]; [apply Hset|reflexivity].
  - intros t0 d0 v Hrec.
    destruct (castValue_recognized c t0 d0 v Hrec) as [x Hx].
    exists x. split; [exact Hx|]. unfold assignField.
    rewrite Hexp, Hty, unmarshal_declines by reflexivity.
    rewrite bind_ret. cbn [Interface]. rewrite Hx. apply Hset.
Qed.

(** ** Instances *)

(** X2 on a map that holds [a]. *)
Lemma set_open_map_inserts_witness :
  set Ref.cast Ref.noCodec
      (Value openMap true (DMap (Some {["a" := DIface (Ref.int 1)]})))
      "b" (Ref.str "x")
  = ([], Ok (Value openMap true
               (DMap (Some (<["b" := DIface (Ref.str "x")]>
                              {["a" := DIface (Ref.int 1)]}))))).
Proof.
  exact (set_open_map_inserts Ref.cast Ref.noCodec
    (Value openMap true (DMap (Some {["a" := DIface (Ref.int 1)]})))
    "b" (Ref.str "x") eq_refl eq_refl).
Defined.

(** X3 on a map that holds [a] and [b], with a batch for [b] and [c]. *)
Lemma setValues_open_map_overrides_witness :
  setValues Ref.cast Ref.noCodec
      (Value openMap true
         (DMap (Some {["a" := DIface (Ref.int 1); "b" := DIface (Ref.int 2)]})))
      {["b" := Ref.str "x"; "c" := Ref.str "y"]}
  = ([], Ok (Value openMap true
               (DMap (Some ((DIface <$> {["b" := Ref.str "x"; "c" := Ref.str "y"]})
                            ∪ {["a" := DIface (Ref.int 1);
                                "b" := DIface (Ref.int 2)]}))))).
Proof.
  exact (setValues_open_map_overrides Ref.cast Ref.noCodec
    (Value openMap true
       (DMap (Some {["a" := DIface (Ref.int 1); "b" := DIface (Ref.int 2)]})))
    {["b" := Ref.str "x"; "c" := Ref.str "y"]} eq_refl eq_refl).
Defined.

(** X4 on [type Settings map[string]interface{}]. *)
Lemma set_on_defined_map_type_panics_witness :
  (forall k v,
     set Ref.cast Ref.noCodec (Value Ex.tSettings true (DMap None)) k v
     = ([], Panic (RuntimePanic "interface conversion"))) /\
  (forall x,
     setValues Ref.cast Ref.noCodec (Value Ex.tSettings true (DMap None)) x
     = ([], Panic (RuntimePanic "interface conversion"))).
Proof.
  exact (set_on_defined_map_type_panics Ref.cast Ref.noCodec Ex.tSettings
    (Value Ex.tSettings true (DMap None)) eq_refl eq_refl eq_refl).
Defined.

(** X7 on the record [Flat]: [host] and [port], not [skip]. *)
Lemma getStructKeys_flat_witness :
  getStructKeys Ex.tFlat "" = ["host"; "port"].
Proof.
  refine (getStructKeys_flat (Some (Decl "Flat" None))
    [Field "Host" false "" Ref.t_string; Field "Port" false "port" Ex.tPort;
     Field "Skip" false "-" Ref.t_string] "" _).
  repeat constructor; discriminate.
Defined.

(** X8 on the record [Flat] and its key [host]. *)
Lemma strict_keys_of_flat_record_are_found_witness :
  Strings.isASCII "host" = true /\
  (exists i f,
     [Field "Host" false "" Ref.t_string; Field "Port" false "port" Ex.tPort;
      Field "Skip" false "-" Ref.t_string] !! i = Some f /\
     exactMatch f "host" = true) /\
  forall v target l nVal touched,
    setStruct Ref.cast Ref.noCodec Ex.tFlat "host" v target
    = (l, Ok (nVal, touched)) ->
    touched = true.
Proof.
  refine (strict_keys_of_flat_record_are_found Ref.cast Ref.noCodec
    (Some (Decl "Flat" None))
    [Field "Host" false "" Ref.t_string; Field "Port" false "port" Ex.tPort;
     Field "Skip" false "-" Ref.t_string] "host" _ _ _).
  - repeat constructor; discriminate.
  - repeat constructor.
  - constructor.
Defined.

(** X9 on the record [Flat]: [set("skip", "v")] assigns the field tagged
    [-]. *)
Lemma dash_field_is_skipped_by_keys_not_by_set_witness :
  getStructKeys Ex.tFlat ""
  = getStructKeys
      (TStruct (Some (Decl "Flat" None))
         [Field "Host" false "" Ref.t_string; Field "Port" false "port" Ex.tPort])
      "" /\
  (true = true /\
   exists x,
     result (assignField Ref.cast Ref.noCodec
               (Field "Skip" false "-" Ref.t_string) (DString "") (Ref.str "v"))
     = Ok x /\
     struct_vals (DStruct [DString ""; DNum 0; DString "v"]) !! 2 = Some x).
Proof.
  split.
  - exact (proj1 (dash_field_is_skipped_by_keys_not_by_set Ref.cast Ref.noCodec
      (Some (Decl "Flat" None))
      [Field "Host" false "" Ref.t_string; Field "Port" false "port" Ex.tPort]
      (Field "Skip" false "-" Ref.t_string) [] eq_refl) "").
  - exact (proj2 (dash_field_is_skipped_by_keys_not_by_set Ref.cast Ref.noCodec
      (Some (Decl "Flat" None))
      [Field "Host" false "" Ref.t_string; Field "Port" false "port" Ex.tPort]
      (Field "Skip" false "-" Ref.t_string) [] eq_refl)
      "skip" (Ref.str "v") (zero Ex.tFlat) []
      (DStruct [DString ""; DNum 0; DString "v"]) true
      (or_intror eq_refl) eq_refl).
Defined.

(** X10 on the record [AB]: [set("b", "42")] leaves [A] alone. *)
Lemma set_leaves_unmatched_fields_witness :
  struct_vals (snapshot (Value Ex.tAB false (DStruct [DString "x"; DNum 42])))
  !! 0 = Some (DString "x").
Proof.
  exact (set_leaves_unmatched_fields Ref.cast Ref.noCodec
    (Some (Decl "AB" None))
    [Field "A" false "a" Ref.t_string; Field "B" false "b" Ref.t_int]
    [DString "x"; DNum 3] "b" (Ref.str "42") []
    (Value Ex.tAB false (DStruct [DString "x"; DNum 42])) eq_refl
    0 (Field "A" false "a" Ref.t_string) (DString "x")
    eq_refl eq_refl eq_refl eq_refl eq_refl).
Defined.

(** X11 on the record with the unexported field [secret]. *)
Lemma set_never_writes_unexported_field_witness :
  struct_vals (snapshot (Value Ex.tSecret false (DStruct [DString "s0"; DNum 7])))
  !! 0 = Some (DString "s0").
Proof.
  refine (set_never_writes_unexported_field Ref.cast Ref.noCodec
    (Some (Decl "Secret" None))
    [Field "secret" false "secret" Ref.t_string; Field "N" false "n" Ref.t_int]
    [DString "s0"; DNum 7] "secret" (Ref.str "s") []
    (Value Ex.tSecret false (DStruct [DString "s0"; DNum 7])) eq_refl
    0 (Field "secret" false "secret" Ref.t_string) (DString "s0")
    eq_refl eq_refl eq_refl _).
  intros H. discriminate H.
Defined.

(** X12 on the field [Port] of the record [Flat]: the string [8080] is
    not converted to a [Port], and [set] panics. *)
Lemma assign_outside_table_is_unconverted_witness :
  assignField Ref.cast Ref.noCodec (Field "Port" false "port" Ex.tPort)
              (DNum 0) (Ref.str "8080")
  = raise (ReflectPanic "Set: value is not assignable") /\
  exists l p,
    set Ref.cast Ref.noCodec (Value Ex.tFlat false (zero Ex.tFlat))
        "port" (Ref.str "8080") = (l, Panic p).
Proof.
  assert (Hne : kind (Type_ (Field "Port" false "port" Ex.tPort)) <> KInterface)
    by discriminate.
  split.
  - exact (proj1 (assign_outside_table_is_unconverted Ref.cast Ref.noCodec
      (Field "Port" false "port" Ex.tPort) eq_refl eq_refl eq_refl Hne)
      (DNum 0) (Ref.str "8080")).
  - exact (proj2 (assign_outside_table_is_unconverted Ref.cast Ref.noCodec
      (Field "Port" false "port" Ex.tPort) eq_refl eq_refl eq_refl Hne)
      (Some (Decl "Flat" None))
      [Field "Host" false "" Ref.t_string; Field "Port" false "port" Ex.tPort;
       Field "Skip" false "-" Ref.t_string]
      [DString ""; DNum 0; DString ""] 1 "port" (Ref.t_string, DString "8080")
      eq_refl eq_refl eq_refl).
Defined.

(** X13 on a field of type [*Level], nil before the call. *)
Lemma nil_pointer_codec_field_is_allocated_witness :
  assignField Ref.cast Ex.levelCodec (Field "Lvl" false "lvl" (TPtr Ex.tLevel))
              (DPtr None) (Ref.str "info")
  = assignField Ref.cast Ex.levelCodec (Field "Lvl" false "lvl" (TPtr Ex.tLevel))
                (DPtr (Some (zero Ex.tLevel))) (Ref.str "info") /\
  forall l d',
    assignField Ref.cast Ex.levelCodec (Field "Lvl" false "lvl" (TPtr Ex.tLevel))
                (DPtr None) (Ref.str "info") = (l, Ok d') ->
    exists p, d' = DPtr (Some p).
Proof.
  refine (nil_pointer_codec_field_is_allocated Ref.cast Ex.levelCodec
    (Field "Lvl" false "lvl" (TPtr Ex.tLevel)) Ex.tLevel (Ref.str "info")
    eq_refl eq_refl _).
  eexists. reflexivity.
Defined.

(** X14 on a field of type [*int] and a text that is no number. *)
Lemma pointer_scalar_field_is_never_nil_witness :
  exists x,
    castScalar Ref.cast (TBasic None Int) (Ref.str "junk") = Some x /\
    assignField Ref.cast Ref.noCodec (Field "P" false "p" (TPtr Ref.t_int))
                (DPtr None) (Ref.str "junk")
    = ([], Ok (DPtr (Some x))).
Proof.
  exact (pointer_scalar_field_is_never_nil Ref.cast Ref.noCodec
    (Field "P" false "p" (TPtr Ref.t_int)) Int (DPtr None) (Ref.str "junk")
    eq_refl eq_refl).
Defined.

(** X15 on the record with the field [M] of type [map[string]string]:
    [set("m.b", "2")] keeps the entry of [a]; and on the record with the
    field [Items] of type [map[string]Item]: [set("items.x.name", "n")]
    keeps the entry of [y]. *)
Lemma set_keeps_other_map_entries_witness :
  (exists d',
     struct_vals (snapshot (Value Ex.tStringMap false
       (DStruct [DMap (Some (<["b" := DString "2"]> {["a" := DString "1"]}))])))
     !! 0 = Some d' /\
     map_of d' !! "a" = map_of (DMap (Some {["a" := DString "1"]})) !! "a") /\
  (exists d',
     struct_vals (snapshot (Value Ex.tItems false
       (DStruct [DMap (Some (<["x" := DStruct [DString "n"]]>
                               {["y" := DStruct [DString "old"]]}))])))
     !! 0 = Some d' /\
     map_of d' !! "y"
     = map_of (DMap (Some {["y" := DStruct [DString "old"]]})) !! "y").
Proof.
  split.
  - refine (set_keeps_other_map_entries Ref.cast Ref.noCodec
      (Some (Decl "StringMap" None))
      [Field "M" false "m" (TMap None Ref.t_string Ref.t_string)]
      [DMap (Some {["a" := DString "1"]})] "m.b" (Ref.str "2") []
      (Value Ex.tStringMap false
        (DStruct [DMap (Some (<["b" := DString "2"]> {["a" := DString "1"]}))]))
      eq_refl
      0 (Field "M" false "m" (TMap None Ref.t_string Ref.t_string))
      (DMap (Some {["a" := DString "1"]})) None Ref.t_string Ref.t_string
      eq_refl eq_refl eq_refl eq_refl eq_refl _ _ "a" _ _).
    + intros [|j] g Hj Hg; [exfalso; apply Hj; reflexivity|discriminate Hg].
    + intros sd sfs [H|H]; discriminate H.
    + intros H. discriminate H.
    + intros rest H. discriminate H.
  - refine (set_keeps_other_map_entries Ref.cast Ref.noCodec
      (Some (Decl "Items" None))
      [Field "Items" false "items" (TMap None Ref.t_string Ex.tItem)]
      [DMap (Some {["y" := DStruct [DString "old"]]})] "items.x.name"
      (Ref.str "n") []
      (Value Ex.tItems false
        (DStruct [DMap (Some (<["x" := DStruct [DString "n"]]>
                                {["y" := DStruct [DString "old"]]}))]))
      eq_refl
      0 (Field "Items" false "items" (TMap None Ref.t_string Ex.tItem))
      (DMap (Some {["y" := DStruct [DString "old"]]})) None Ref.t_string Ex.tItem
      eq_refl eq_refl eq_refl eq_refl eq_refl _ _ "y" _ _).
    + intros [|j] g Hj Hg; [exfalso; apply Hj; reflexivity|discriminate Hg].
    + intros sd sfs [H|H]; [injection H as <- <-; reflexivity|discriminate H].
    + intros H. discriminate H.
    + intros rest H. discriminate H.
Defined.

(** X16 on the nested record: [db.host] is found whatever the input and
    the value. *)
Lemma found_depends_on_type_and_key_witness : true = true.
Proof.
  exact (found_depends_on_type_and_key Ref.cast Ref.noCodec Ex.tNested "db.host"
    (Ref.str "a") (Ref.int 5)
    (DStruct [DStruct [DString ""]]) (DStruct [DStruct [DString "x"]])
    [] [] (DStruct [DStruct [DString "a"]]) (DStruct [DStruct [DString "5"]])
    true true eq_refl eq_refl).
Defined.

(** X17 on a field of type [Mode]. *)
Lemma value_receiver_codec_leaves_field_witness :
  assignField Ref.cast Ex.levelCodec (Field "Mode" false "mode" Ex.tMode)
              (DNum 3) (Ref.str "debug")
  = ret (DNum 3).
Proof.
  exact (value_receiver_codec_leaves_field Ref.cast Ex.levelCodec
    (Field "Mode" false "mode" Ex.tMode) (Decl "Mode" (Some ValueRecv)) Int
    (DNum 3) (Ref.str "debug") eq_refl eq_refl eq_refl).
Defined.

(** X18 on an [int] field. *)
Lemma assignment_ignores_old_value_witness :
  assignField Ref.cast Ref.noCodec (Field "B" false "b" Ref.t_int)
              (DNum 3) (Ref.str "42")
  = assignField Ref.cast Ref.noCodec (Field "B" false "b" Ref.t_int)
                (DNum 7) (Ref.str "42").
Proof.
  refine (assignment_ignores_old_value Ref.cast Ref.noCodec
    (Field "B" false "b" Ref.t_int) (DNum 3) (DNum 7) (Ref.str "42")
    eq_refl eq_refl _).
  intros H. discriminate H.
Defined.

(** X19 on the nested record: [set("db.host", "h")]. *)
Lemma set_descends_into_nested_record_witness :
  setStruct Ref.cast Ref.noCodec Ex.tNested "db.host" (Ref.str "h")
            (DStruct [DStruct [DString ""]])
  = ('(nVal, ok) ← setStruct Ref.cast Ref.noCodec Ex.tDb
                     (remainder (Field "Db" false "db" Ex.tDb) "db.host")
                     (Ref.str "h") (DStruct [DString ""]);
     if ok : bool then ret (DStruct (<[0 := nVal]> [DStruct [DString ""]]), true)
     else Debug (notFound "db.host");; ret (DStruct [DStruct [DString ""]], false)).
Proof.
  refine (set_descends_into_nested_record Ref.cast Ref.noCodec
    (Some (Decl "Nested" None)) [Field "Db" false "db" Ex.tDb]
    [DStruct [DString ""]] 0 (Field "Db" false "db" Ex.tDb) "db.host"
    (Ref.str "h") (Some (Decl "Db" None))
    [Field "Host" false "host" Ref.t_string] [DString ""]
    eq_refl eq_refl eq_refl eq_refl eq_refl eq_refl eq_refl _).
  intros [|j] g Hj Hg; [exfalso; apply Hj; reflexivity|discriminate Hg].
Defined.

(** X20 on a record with a nil pointer to [Db]. *)
Lemma set_descends_through_pointer_witness :
  setStruct Ref.cast Ref.noCodec
    (TStruct (Some (Decl "Nested" None)) [Field "Db" false "db" (TPtr Ex.tDb)])
    "db.host" (Ref.str "h") (DStruct [DPtr None])
  = ('(nVal, ok) ← setStruct Ref.cast Ref.noCodec Ex.tDb
                     (remainder (Field "Db" false "db" (TPtr Ex.tDb)) "db.host")
                     (Ref.str "h") (default (zero Ex.tDb) None);
     if ok : bool then ret (DStruct (<[0 := DPtr (Some nVal)]> [DPtr None]), true)
     else Debug (notFound "db.host");; ret (DStruct [DPtr None], false)).
Proof.
  refine (set_descends_through_pointer Ref.cast Ref.noCodec
    (Some (Decl "Nested" None)) [Field "Db" false "db" (TPtr Ex.tDb)]
    [DPtr None] 0 (Field "Db" false "db" (TPtr Ex.tDb)) "db.host"
    (Ref.str "h") (Some (Decl "Db" None))
    [Field "Host" false "host" Ref.t_string] None
    eq_refl eq_refl eq_refl eq_refl eq_refl eq_refl eq_refl _).
  intros [|j] g Hj Hg; [exfalso; apply Hj; reflexivity|discriminate Hg].
Defined.

(** X21 on the record nested to depth three, below its root. *)
Lemma nested_keys_ignore_the_prefix_witness :
  getStructKeys Ex.tMid "b." = getStructKeys Ex.tMid "".
Proof.
  refine (nested_keys_ignore_the_prefix (Some (Decl "Mid" None))
    [Field "C" false "c" Ex.tLeaf] "b." "" _).
  constructor; [right; reflexivity|constructor].
Defined.

(** X22 on the record with the field [Items] of type [map[string]Item],
    nil before the call. *)
Lemma set_descends_into_map_of_records_witness :
  setStruct Ref.cast Ref.noCodec Ex.tItems "items.x.name" (Ref.str "hello")
            (DStruct [DMap None])
  = ('(nVal, ok) ← setStruct Ref.cast Ref.noCodec Ex.tItem "name"
                     (Ref.str "hello") (zero Ex.tItem);
     if ok : bool then
       ret (DStruct [DMap (Some (<["x" := nVal]> (∅ : gmap string data)))], true)
     else Debug (notFound "items.x.name");;
          ret (DStruct [DMap (Some ∅)], false)).
Proof.
  refine (set_descends_into_map_of_records Ref.cast Ref.noCodec
    (Some (Decl "Items" None))
    [Field "Items" false "items" (TMap None Ref.t_string Ex.tItem)]
    [DMap None] 0 (Field "Items" false "items" (TMap None Ref.t_string Ex.tItem))
    "items.x.name" (Ref.str "hello") None (Some (Decl "Item" None))
    [Field "Name" false "name" Ref.t_string] false None "x" "name"
    eq_refl eq_refl eq_refl eq_refl eq_refl eq_refl eq_refl eq_refl _).
  intros [|j] g Hj Hg; [exfalso; apply Hj; reflexivity|discriminate Hg].
Defined.

(** X23 on the field [M] of type [map[string]string] holding [x]. *)
Lemma set_nil_deletes_string_map_entry_witness :
  fieldStep Ref.cast Ref.noCodec (setStruct Ref.cast Ref.noCodec) "m.x" None
            (Field "M" false "m" (TMap None Ref.t_string Ref.t_string))
            (DMap (Some {["x" := DString "1"]})) false
  = ([], Ok (DMap (Some (delete "x" (map_of (DMap (Some {["x" := DString "1"]}))))),
             true)).
Proof.
  exact (set_nil_deletes_string_map_entry Ref.cast Ref.noCodec
    (setStruct Ref.cast Ref.noCodec) "m.x"
    (Field "M" false "m" (TMap None Ref.t_string Ref.t_string))
    (DMap (Some {["x" := DString "1"]})) false None Ref.t_string None
    eq_refl (or_introl eq_refl) eq_refl eq_refl eq_refl).
Defined.

(** X24 on the field [X] of type [interface{}]. *)
Lemma interface_field_keeps_its_dynamic_type_witness :
  (forall v,
     assignField Ref.cast Ref.noCodec (Field "X" false "x" TInterface)
                 (DIface None) v = ret (DIface v)) /\
  (forall t0 d0 v,
     recognized t0 = true ->
     exists x, castValue Ref.cast (Some (t0, d0)) v = Some (t0, x) /\
               assignField Ref.cast Ref.noCodec (Field "X" false "x" TInterface)
                           (DIface (Some (t0, d0))) v
               = ret (DIface (Some (t0, x)))).
Proof.
  exact (interface_field_keeps_its_dynamic_type Ref.cast Ref.noCodec
    (Field "X" false "x" TInterface) eq_refl eq_refl).
Defined.
